(** * Heightmap rendering of implicit solids (ao/render/discrete/heightmap.cpp)

    A shallow embedding of the hierarchical heightmap renderer: the batched
    normal renderer ([NormalRenderer]), the leaf rasteriser ([pixels]), the
    flood primitive ([fill]), the recursive subdivision ([recurse]) and the
    driver ([render]), together with the properties of the depth and normal
    images they produce.

    Numbers are modelled as the code has them: C++ [float] and [double] values
    are IEEE-754 values of [spec_float] (binary32 and binary64 operations of
    the Standard Library), comparisons are [SFltb], [SFleb] and [SFeqb], packed
    normals are 32-bit words in [Z], and images are arrays of rows updated in
    place. *)

From Stdlib Require Import ZArith Lia Bool.
From Stdlib Require Import Floats.SpecFloat.
From stdpp Require Import base list.

Local Open Scope nat_scope.

(** ** Floating-point values *)

Abbreviation float := spec_float.

(** [-std::numeric_limits<float>::infinity()] *)
Definition neg_infinity : float := S754_infinity true.

(** The literal [0] compared against floats. *)
Definition fzero : float := S754_zero false.

(** [a >= b] on floats is [b <= a]; both are false when a NaN is involved. *)
Definition SFgeb (a b : float) : bool := SFleb b a.

(** The order of two finite values of the same sign: exponents first, then
    mantissas, as [SFcompare] compares them. *)
Definition lex (e1 : Z) (m1 : positive) (e2 : Z) (m2 : positive) : comparison :=
  match Z.compare e1 e2 with Lt => Lt | Gt => Gt | Eq => Pos.compare m1 m2 end.

(** Binary32 ([float]) and binary64 ([double]) arithmetic. *)
Definition prec32 : Z := 24.
Definition emax32 : Z := 128.
Definition prec64 : Z := 53.
Definition emax64 : Z := 1024.

Definition mul32 := SFmul prec32 emax32.
Definition div32 := SFdiv prec32 emax32.
Definition mul64 := SFmul prec64 emax64.
Definition add64 := SFadd prec64 emax64.
Definition sqrt64 := SFsqrt prec64 emax64.

(** Conversion [double -> float] rounds to nearest even; the conversion
    [float -> double] is exact and keeps the value as it is. *)
Definition to_float (x : float) : float :=
  match x with
  | S754_finite s m e => binary_round prec32 emax32 s m e
  | _ => x
  end.

Definition to_double (x : float) : float := x.

(** Integer literals converted to [float] and [double]. *)
Definition float_of_Z (n : Z) : float := binary_normalize prec32 emax32 n 0 false.
Definition double_of_Z (n : Z) : float := binary_normalize prec64 emax64 n 0 false.

(** The [double] literal [0.5]. *)
Definition half64 : float := binary_normalize prec64 emax64 1 (-1) false.

Definition is_nan (x : float) : bool :=
  match x with S754_nan => true | _ => false end.

(** Truncation toward zero of a finite value; NaN and the infinities have no
    integer part. *)
Definition trunc (x : float) : option Z :=
  match x with
  | S754_zero _ => Some 0%Z
  | S754_finite s m e =>
      let a := match e with
               | Zneg p => Z.shiftr (Zpos m) (Zpos p)
               | _ => Z.shiftl (Zpos m) e
               end in
      Some (if s then Z.opp a else a)
  | _ => None
  end.

(** A triple of floats: a position [{x, y, z}] or a gradient [(dx, dy, dz)]. *)
Definition point : Type := float * float * float.

Record Interval := mkInterval { ilower : float; iupper : float }.

(** Reading an array; outside the array the source reads undefined memory,
    which the model renders as NaN. *)
Definition at_f (l : list float) (i : nat) : float := default S754_nan (l !! i).
Definition at_n (l : list nat) (i : nat) : nat := default 0 (l !! i).

(** ** Images

    [DepthImage] and [NormalImage] are two-dimensional Eigen arrays addressed
    as [img(row, col)].  They are modelled as a list of rows.  Eigen does not
    check bounds in release builds: a read outside the image yields the
    default value given to [img_get], a write outside is dropped. *)

Abbreviation Image A := (list (list A)).

Definition img_lookup {A} (img : Image A) (row col : nat) : option A :=
  img !! row ≫= (.!! col).

Definition img_get {A} (d : A) (img : Image A) (row col : nat) : A :=
  default d (img_lookup img row col).

Definition img_set {A} (img : Image A) (row col : nat) (v : A) : Image A :=
  alter (<[col := v]>) row img.

(** [Image(rows, cols)] followed by [fill(v)]. *)
Definition img_fill {A} (img : Image A) (v : A) : Image A :=
  map (map (fun _ => v)) img.

Definition img_new {A} (rows cols : nat) (v : A) : Image A :=
  replicate rows (replicate cols v).

Abbreviation DepthImage := (list (list float)).
Abbreviation NormalImage := (list (list Z)).

Definition depth_at (depth : DepthImage) (row col : nat) : float :=
  img_get S754_nan depth row col.

Definition norm_at (norm : NormalImage) (row col : nat) : Z :=
  img_get 0%Z norm row col.

(** ** Voxels and views *)

(** [Voxels]: the three arrays of sample positions [pts[0]], [pts[1]],
    [pts[2]]. *)
Record Voxels := mkVoxels {
  px : list float;
  py : list float;
  pz : list float;
  vox_lower : point;
  vox_upper : point
}.

(** [Voxels::View]: a sub-box given by its corner and size, its bounds, and
    the position arrays of the grid it comes from.  [r.pts] points at the
    first sample of the view, so [r.pts.x()[i]] is [px[corner.x + i]]. *)
Record View := mkView {
  grid : Voxels;
  corner_x : nat; corner_y : nat; corner_z : nat;
  size_x : nat; size_y : nat; size_z : nat;
  lower : point;
  upper : point
}.

Definition pts_x (r : View) (i : nat) : float := at_f (px (grid r)) (corner_x r + i).
Definition pts_y (r : View) (j : nat) : float := at_f (py (grid r)) (corner_y r + j).
Definition pts_z (r : View) (k : nat) : float := at_f (pz (grid r)) (corner_z r + k).

(** [r.voxels()] *)
Definition voxels (r : View) : nat := size_x r * size_y r * size_z r.

(** [Voxels::view()]: the view of the whole grid. *)
Definition view (v : Voxels) : View :=
  {| grid := v;
     corner_x := 0; corner_y := 0; corner_z := 0;
     size_x := length (px v); size_y := length (py v); size_z := length (pz v);
     lower := vox_lower v; upper := vox_upper v |}.

(** ** The evaluator *)

Module Evaluator.

(** [Eigen::Matrix4f], sixteen coefficients. *)
Definition Matrix : Type := list float.

(** Modelled from the spec: the numeric behaviour of the class [Evaluator]
    (ao/eval/evaluator.hpp), which is not part of the sources.  An evaluator
    is bound to one expression tree; the tree decides the scalar field, its
    gradient, the interval result over a box and the way the installed
    matrix acts on a position. *)
Record Tree := mkTree {
  field : point → float;
  gradient : point → point;
  interval : Matrix → point → point → Interval;
  transform : Matrix → point → point
}.

(** Modelled from the spec: the state of the class [Evaluator], which is not
    part of the sources.  [slots] are the staged positions (capacity
    [Result::N]), [results] is the buffer that [values] hands out a borrowed
    view of, [active] is the depth of the activity stack; [pushes] and
    [pops] count the calls of [push()] and [pop()]. *)
Record t := mk {
  tree : Tree;
  M : Matrix;
  slots : list point;
  results : list float;
  active : nat;
  pushes : nat;
  pops : nat
}.

Definition with_slots (e : t) (s : list point) : t :=
  mk (tree e) (M e) s (results e) (active e) (pushes e) (pops e).

Definition with_results (e : t) (r : list float) : t :=
  mk (tree e) (M e) (slots e) r (active e) (pushes e) (pops e).

Definition setMatrix (m : Matrix) (e : t) : t :=
  mk (tree e) m (slots e) (results e) (active e) (pushes e) (pops e).

(** [setRaw(pos, k)]: store [pos] in slot [k] as it is.  The source has
    [Result::N] slots and a store at an index beyond them overruns the
    array, which is undefined; here such a store is dropped.  The
    renderer stores at indices below [Result::N] only: [recurse] calls
    [pixels] on views of at most [Result::N] voxels, and the properties of
    [pixels] are stated for such views. *)
Definition setRaw (p : point) (k : nat) (e : t) : t :=
  with_slots e (<[k := p]> (slots e)).

(** [set(pos, k)]: store [pos] in slot [k] after the transform. *)
Definition set (p : point) (k : nat) (e : t) : t :=
  with_slots e (<[k := transform (tree e) (M e) p]> (slots e)).

(** [applyTransform(count)]: transform the first [count] slots. *)
Definition applyTransform (count : nat) (e : t) : t :=
  with_slots e
    (map (transform (tree e) (M e)) (take count (slots e)) ++ drop count (slots e)).

(** The field at the first [count] slots, written over the result buffer. *)
Definition evaluate (count : nat) (e : t) : list float :=
  map (field (tree e)) (take count (slots e))
    ++ drop (length (take count (slots e))) (results e).

(** [values(count)]: evaluates the staged slots; the caller reads the
    results through the borrowed buffer [results]. *)
Definition values (count : nat) (e : t) : t :=
  with_results e (evaluate count e).

(** [derivs(count)]: the gradients at the staged slots.  The slots are
    evaluated again, which overwrites the result buffer. *)
Definition derivs (count : nat) (e : t) : list point * t :=
  (map (gradient (tree e)) (take count (slots e)),
   with_results e (evaluate count e)).

(** [eval(lower, upper)]: the interval of the field over a box. *)
Definition eval (lo hi : point) (e : t) : Interval :=
  interval (tree e) (M e) lo hi.

Definition push (e : t) : t :=
  mk (tree e) (M e) (slots e) (results e) (S (active e)) (S (pushes e)) (pops e).

Definition pop (e : t) : t :=
  mk (tree e) (M e) (slots e) (results e) (pred (active e)) (pushes e) (S (pops e)).

(** [new Evaluator(t)] with capacity [n]. *)
Definition new (tr : Tree) (n : nat) : t :=
  mk tr [] (replicate n (fzero, fzero, fzero)) (replicate n fzero) 0 0 0.

End Evaluator.

(** ** Packed normals *)

(** [0xffff7f7f], stamped where the depth touches the top of the grid. *)
Definition sky_normal : Z := 0xffff7f7f%Z.

(** A left shift of a [uint32_t]. *)
Definition shl32 (a n : Z) : Z := (Z.shiftl a n mod 2 ^ 32)%Z.

(** The length of the gradient: [pow] and [sqrt] work on [double], the result
    is stored in a [float]. *)
Definition vec_length (g : point) : float :=
  let '(dx, dy, dz) := g in
  to_float (sqrt64 (add64 (add64 (mul64 (to_double dx) (to_double dx))
                                 (mul64 (to_double dy) (to_double dy)))
                          (mul64 (to_double dz) (to_double dz)))).

(** [255 * (d / (2 * length) + 0.5)]: the quotient is a [float], the sum and
    the product are [double]. *)
Definition lane (d len : float) : float :=
  mul64 (double_of_Z 255)
        (add64 (to_double (div32 d (mul32 (float_of_Z 2) len))) half64).

(** ** A splitter and small scenes

    An instance of the two splitters, and the scenes on which the theorems
    below are exercised. *)

(** Modelled from the spec: [View::split()] cuts a view in two halves across
    the axis of largest size (X before Y before Z when sizes are equal); the
    second half holds the samples of greater index.  Both halves keep the
    bounds of the view they come from, which contain their own. *)
Definition cut_x (r : View) : View * View :=
  let h := size_x r / 2 in
  (mkView (grid r) (corner_x r) (corner_y r) (corner_z r)
          h (size_y r) (size_z r) (lower r) (upper r),
   mkView (grid r) (corner_x r + h) (corner_y r) (corner_z r)
          (size_x r - h) (size_y r) (size_z r) (lower r) (upper r)).

Definition cut_y (r : View) : View * View :=
  let h := size_y r / 2 in
  (mkView (grid r) (corner_x r) (corner_y r) (corner_z r)
          (size_x r) h (size_z r) (lower r) (upper r),
   mkView (grid r) (corner_x r) (corner_y r + h) (corner_z r)
          (size_x r) (size_y r - h) (size_z r) (lower r) (upper r)).

Definition cut_z (r : View) : View * View :=
  let h := size_z r / 2 in
  (mkView (grid r) (corner_x r) (corner_y r) (corner_z r)
          (size_x r) (size_y r) h (lower r) (upper r),
   mkView (grid r) (corner_x r) (corner_y r) (corner_z r + h)
          (size_x r) (size_y r) (size_z r - h) (lower r) (upper r)).

Definition split_half (r : View) : View * View :=
  if (size_y r <=? size_x r) && (size_z r <=? size_x r) then cut_x r
  else if size_z r <=? size_y r then cut_y r
  else cut_z r.

(** Modelled from the spec: [split<Axis::X | Axis::Y>()], the same cut
    across X or Y only. *)
Definition split_half_xy (r : View) : View * View :=
  if size_y r <=? size_x r then cut_x r else cut_y r.

(** The [float] of value [m * 2^e]. *)
Definition f32 (m e : Z) : float := binary_normalize prec32 emax32 m e false.

(** The grid of [Voxels({-2, 2}, {-2, 2}, {-2, 2}, 1)]: four samples on each
    axis, at -1.5, -0.5, 0.5 and 1.5. *)
Definition centres : list float :=
  [f32 (-3) (-1); f32 (-1) (-1); f32 1 (-1); f32 3 (-1)].

Definition demo_grid : Voxels :=
  mkVoxels centres centres centres
           (f32 (-2) 0, f32 (-2) 0, f32 (-2) 0) (f32 2 0, f32 2 0, f32 2 0).

(** A grid of one voxel. *)
Definition unit_grid : Voxels :=
  mkVoxels [f32 1 (-1)] [f32 1 (-1)] [f32 1 (-1)]
           (fzero, fzero, fzero) (f32 1 0, f32 1 0, f32 1 0).

(** The half-space [f(x, y, z) = z]: the interval over a box is the
    interval of its z bounds, the gradient is (0, 0, 1), and the matrix is
    not looked at. *)
Definition halfspace : Evaluator.Tree :=
  Evaluator.mkTree (λ p, snd p) (λ _, (fzero, fzero, f32 1 0))
    (λ _ lo hi, mkInterval (snd lo) (snd hi)) (λ _ p, p).

(** The empty field [f = 1]. *)
Definition empty : Evaluator.Tree :=
  Evaluator.mkTree (λ _, f32 1 0) (λ _, (fzero, fzero, f32 1 0))
    (λ _ _ _, mkInterval (f32 1 0) (f32 1 0)) (λ _ p, p).

(** The solid field [f = -1]. *)
Definition solid : Evaluator.Tree :=
  Evaluator.mkTree (λ _, f32 (-1) 0) (λ _, (fzero, fzero, f32 1 0))
    (λ _ _ _, mkInterval (f32 (-1) 0) (f32 (-1) 0)) (λ _ p, p).

(** A flag that is never raised, and one raised from its fourth load on. *)
Definition never : nat → bool := λ _, false.
Definition from_fourth : nat → bool := λ n, 3 <=? n.

(** A platform on which an undefined conversion yields [c]. *)
Definition cast_to (c : Z) : float → Z := λ _, c.

(** [n] fresh evaluators of batch size 4. *)
Definition pool (t : Evaluator.Tree) (n : nat) : list Evaluator.t :=
  replicate n (Evaluator.new t 4).

(** A flag that is raised from the start. *)
Definition always : nat → bool := λ _, true.

(** The column of the four voxels over the pixel (0, 0) of the grid of four
    samples. *)
Definition corner_column : View :=
  mkView demo_grid 0 0 0 1 1 4 (vox_lower demo_grid) (vox_upper demo_grid).


(** The half-space [f(x, y, z) = x], with gradient (1, 0, 0): the columns of
    the grid at x below zero are filled from bottom to top, the others are
    empty. *)
Definition wall : Evaluator.Tree :=
  Evaluator.mkTree (λ p, fst (fst p)) (λ _, (f32 1 0, fzero, fzero))
    (λ _ lo hi, mkInterval (fst (fst lo)) (fst (fst hi))) (λ _ p, p).

(** The same field seen through a transform that exchanges x and z: the
    solid z < 0, whose gradient, taken in the coordinates of the tree, is
    (1, 0, 0). *)
Definition turned : Evaluator.Tree :=
  Evaluator.mkTree (λ p, fst (fst p)) (λ _, (f32 1 0, fzero, fzero))
    (λ _ lo hi, mkInterval (snd lo) (snd hi))
    (λ _ p, (snd p, snd (fst p), fst (fst p))).

(** A flag that is raised from its load [k] on. *)
Definition from_load (k : nat) : nat → bool := λ n, k <=? n.
(** ** The renderer *)

Section Heightmap.

(** [Result::N], the batch size of the evaluator; the header that defines
    it is not part of the sources. *)
Variable N : nat.

(** [Voxels::View::split()] and [split<Axis::X | Axis::Y>()]; the class is
    not part of the sources.  Both return the pair (low, high). *)
Variable split : View → View * View.
Variable split_xy : View → View * View.

(** The value of the flag [abort] at its successive loads. *)
Variable abort : nat → bool.

(** The conversion of a [double] to [uint32_t] where C++ leaves it
    undefined (NaN, or an integer part outside the range of the type). *)
Variable undefined_cast : float → Z.

Definition to_uint32 (x : float) : Z :=
  match trunc x with
  | Some t => if (0 <=? t)%Z && (t <? 2 ^ 32)%Z then t
              else (undefined_cast x mod 2 ^ 32)%Z
  | None => (undefined_cast x mod 2 ^ 32)%Z
  end.

(** The word written by [NormalRenderer::run] for one gradient.  The [int]
    [0xff << 24] is converted to [uint32_t] by the [|], which gives
    [0xff000000]. *)
Definition pack_normal (g : point) : Z :=
  let '(dx, dy, dz) := g in
  let len := vec_length g in
  let ix := to_uint32 (lane dx len) in
  let iy := to_uint32 (lane dy len) in
  let iz := to_uint32 (lane dz len) in
  Z.lor (Z.lor (Z.lor 0xff000000%Z (shl32 iz 16)) (shl32 iy 8)) ix.

(** What a task works on: its evaluator, the two images, and the number of
    loads of [abort] so far. *)
Record State := mkState {
  ev : Evaluator.t;
  depth : DepthImage;
  norm : NormalImage;
  clock : nat
}.

Definition with_ev (s : State) (e : Evaluator.t) : State :=
  mkState e (depth s) (norm s) (clock s).

Definition with_depth (s : State) (d : DepthImage) : State :=
  mkState (ev s) d (norm s) (clock s).

(** [for (int i = 0; i < n; ++i) body] over a state. *)
Definition for_loop {S : Type} (n : nat) (body : nat → S → S) (s : S) : S :=
  fold_left (fun acc i => body i acc) (seq 0 n) s.

(** *** NormalRenderer *)

Record NormalRenderer := mkNormalRenderer {
  xs : list nat;
  ys : list nat;
  count : nat
}.

(** The constructor: [count = 0]; the two arrays have [NUM_POINTS] cells. *)
Definition NormalRenderer_new : NormalRenderer :=
  mkNormalRenderer (replicate N 0) (replicate N 0) 0.

(** The assertion of the destructor. *)
Definition flushed (nr : NormalRenderer) : bool := count nr =? 0.

Definition run (nr : NormalRenderer) (s : State) : NormalRenderer * State :=
  let '(ds, e) := Evaluator.derivs (count nr) (ev s) in
  let nm :=
    for_loop (count nr)
      (fun i nm =>
         img_set nm (at_n (ys nr) i) (at_n (xs nr) i)
                 (pack_normal (default (S754_nan, S754_nan, S754_nan) (ds !! i))))
      (norm s) in
  (mkNormalRenderer (xs nr) (ys nr) 0, mkState e (depth s) nm (clock s)).

Definition flush (nr : NormalRenderer) (s : State) : NormalRenderer * State :=
  if 0 <? count nr then run nr s else (nr, s).

(** The first statements of [push]: the pixel goes to [xs[count]] and
    [ys[count]], its position to slot [count] of the evaluator, and [count]
    is incremented. *)
Definition enqueue (r : View) (i j : nat) (z : float)
    (nr : NormalRenderer) (s : State) : NormalRenderer * State :=
  let xs1 := <[count nr := corner_x r + i]> (xs nr) in
  let ys1 := <[count nr := corner_y r + j]> (ys nr) in
  let e := Evaluator.set (pts_x r i, pts_y r j, z) (count nr) (ev s) in
  (mkNormalRenderer xs1 ys1 (S (count nr)), with_ev s e).

Definition push (r : View) (i j : nat) (z : float)
    (nr : NormalRenderer) (s : State) : NormalRenderer * State :=
  let '(nr1, s1) := enqueue r i j z nr s in
  if count nr1 =? N then run nr1 s1 else (nr1, s1).

(** *** pixels *)

(** The guard of [VIEW_ITERATE_XYZ]: the column is visited when the depth
    of its pixel is below the highest sample of the view. *)
Definition column_open (d : DepthImage) (r : View) (i j : nat) : bool :=
  SFltb (depth_at d (corner_y r + j) (corner_x r + i)) (pts_z r (size_z r - 1)).

(** First pass: flatten the view into the slots of the evaluator. *)
Definition stage (r : View) (d : DepthImage) (e : Evaluator.t) : Evaluator.t * nat :=
  for_loop (size_x r) (fun i =>
    for_loop (size_y r) (fun j acc =>
      if column_open d r i j then
        for_loop (size_z r) (fun k '(e, index) =>
          (Evaluator.setRaw (pts_x r i, pts_y r j, pts_z r (size_z r - k - 1)) index e,
           S index)) acc
      else acc))
    (e, 0).

(** Second pass, the loop over [k] of one column; [ks] are the values of
    [k] still to visit.  The loop is left at the first filled voxel. *)
Fixpoint scan (r : View) (i j : nat) (ks : list nat)
    (index : nat) (nr : NormalRenderer) (s : State) : nat * NormalRenderer * State :=
  match ks with
  | [] => (index, nr, s)
  | k :: ks' =>
      if SFltb (at_f (Evaluator.results (ev s)) index) fzero then
        let index1 := S index in
        let z := pts_z r (size_z r - k - 1) in
        let '(nr1, s1) :=
          if SFltb (depth_at (depth s) (corner_y r + j) (corner_x r + i)) z
          then push r i j z nr
                 (with_depth s (img_set (depth s) (corner_y r + j) (corner_x r + i) z))
          else (nr, s) in
        (index1 + (size_z r - k - 1), nr1, s1)
      else scan r i j ks' (S index) nr s
  end.

Definition unstage (r : View) (s : State) : nat * NormalRenderer * State :=
  for_loop (size_x r) (fun i =>
    for_loop (size_y r) (fun j '(index, nr, s) =>
      if column_open (depth s) r i j
      then scan r i j (seq 0 (size_z r)) index nr s
      else (index, nr, s)))
    (0, NormalRenderer_new, s).

Definition pixels (r : View) (s : State) : State :=
  let '(e1, index) := stage r (depth s) (ev s) in
  let e2 := Evaluator.applyTransform index e1 in
  let e3 := Evaluator.values index e2 in
  let '(_, nr, s1) := unstage r (with_ev s e3) in
  snd (flush nr s1).

(** *** fill *)

Definition fill_loop (r : View) (s : State) : NormalRenderer * State :=
  let z := pts_z r (size_z r - 1) in
  for_loop (size_x r) (fun i =>
    for_loop (size_y r) (fun j '(nr, s) =>
      if SFltb (depth_at (depth s) (corner_y r + j) (corner_x r + i)) z
      then push r i j z nr
             (with_depth s (img_set (depth s) (corner_y r + j) (corner_x r + i) z))
      else (nr, s)))
    (NormalRenderer_new, s).

Definition fill (r : View) (s : State) : State :=
  let '(nr, s1) := fill_loop r s in
  snd (flush nr s1).

(** *** recurse *)

(** [(block >= r.pts.z()[r.size.z() - 1]).all()] *)
Definition block_all_ge (d : DepthImage) (r : View) : bool :=
  forallb (fun j =>
    forallb (fun i =>
      SFgeb (depth_at d (corner_y r + j) (corner_x r + i)) (pts_z r (size_z r - 1)))
      (seq 0 (size_x r)))
    (seq 0 (size_y r)).

Definition on_ev (f : Evaluator.t → Evaluator.t) (s : State) : State :=
  with_ev s (f (ev s)).

(** [abort.load()] *)
Definition load_abort (s : State) : bool * State :=
  (abort (clock s), mkState (ev s) (depth s) (norm s) (S (clock s))).

(** The result is [true] when finished and [false] when aborted; [None]
    when the fuel does not suffice for the depth of the recursion. *)
Fixpoint recurse (fuel : nat) (r : View) (s : State) : option (bool * State) :=
  match fuel with
  | 0 => None
  | S fuel' =>
      let '(stop, s) := load_abort s in
      if stop then Some (false, s)
      else if block_all_ge (depth s) r then Some (true, s)
      else if voxels r <=? N then Some (true, pixels r s)
      else
        let out := Evaluator.eval (lower r) (upper r) (ev s) in
        if SFltb (iupper out) fzero then Some (true, fill r s)
        else if SFleb (ilower out) fzero then
          let s1 := on_ev Evaluator.push s in
          let rs := split r in
          match recurse fuel' (snd rs) s1 with
          | None => None
          | Some (false, s2) => Some (false, on_ev Evaluator.pop s2)
          | Some (true, s2) =>
              match recurse fuel' (fst rs) s2 with
              | None => None
              | Some (false, s3) => Some (false, on_ev Evaluator.pop s3)
              | Some (true, s3) => Some (true, on_ev Evaluator.pop s3)
              end
          end
        else Some (true, s)
  end.

(** *** render *)

(** The loop that builds the list of regions, [rs.front()] split along X
    and Y while there are fewer regions than evaluators.  Every turn of
    the loop makes the list one longer, so [workers] turns of fuel are
    never used up. *)
Fixpoint build_regions (fuel workers : nat) (rs : list View) : list View :=
  match fuel with
  | 0 => rs
  | S fuel' =>
      match rs with
      | [] => rs
      | f :: rest =>
          if (length rs <? workers) && (1 <? Nat.min (size_x f) (size_y f))
          then let p := split_xy f in
               build_regions fuel' workers (rest ++ [fst p; snd p])
          else rs
      end
  end.

Definition regions (workers : nat) (v : Voxels) : list View :=
  build_regions workers workers [view v].

(** The tasks, one per region, each on the next evaluator of [es].  The
    tasks of the source run in parallel on regions that do not share a
    pixel; here they run one after the other, in the order of the list.
    [None] when the fuel does not suffice, or when [es] has no evaluator
    left for a region (the source then reads past the end of [es]). *)
Fixpoint dispatch (fuel : nat) (m : Evaluator.Matrix)
    (es : list Evaluator.t) (rs : list View)
    (d : DepthImage) (nm : NormalImage) (clk : nat) {struct rs}
    : option (list Evaluator.t * DepthImage * NormalImage * nat) :=
  match rs with
  | [] => Some ([], d, nm, clk)
  | region :: rs' =>
      match es with
      | [] => None
      | e :: es' =>
          match recurse fuel region (mkState (Evaluator.setMatrix m e) d nm clk) with
          | None => None
          | Some (_, s) =>
              match dispatch fuel m es' rs' (depth s) (norm s) (clock s) with
              | None => None
              | Some (es1, d1, nm1, clk1) => Some (ev s :: es1, d1, nm1, clk1)
              end
          end
      end
  end.

(** [(depth == r.pts[2].back()).select(0xffff7f7f, norm)] *)
Definition select_sky (v : Voxels) (d : DepthImage) (nm : NormalImage) : NormalImage :=
  imap (fun y row =>
    imap (fun x w =>
      if SFeqb (depth_at d y x) (at_f (pz v) (length (pz v) - 1))
      then sky_normal else w) row) nm.

(** [render(es, r, abort, m, depth, norm)], on existing images. *)
Definition render (fuel : nat) (es : list Evaluator.t) (v : Voxels)
    (m : Evaluator.Matrix) (d : DepthImage) (nm : NormalImage)
    : option (DepthImage * NormalImage) :=
  let d0 := img_fill d neg_infinity in
  let nm0 := img_fill nm 0%Z in
  let rs := regions (length es) v in
  match dispatch fuel m es rs d0 nm0 0 with
  | None => None
  | Some (_, d1, nm1, _) => Some (d1, select_sky v d1 nm1)
  end.

(** [render(es, r, abort, m)]: allocates the two images. *)
Definition render_images (fuel : nat) (es : list Evaluator.t) (v : Voxels)
    (m : Evaluator.Matrix) : option (DepthImage * NormalImage) :=
  render fuel es v m
    (img_new (length (py v)) (length (px v)) S754_nan)
    (img_new (length (py v)) (length (px v)) 0%Z).

(** [render(t, r, abort, m, workers)]: builds the pool of evaluators. *)
Definition render_workers (fuel : nat) (t : Evaluator.Tree) (v : Voxels)
    (m : Evaluator.Matrix) (workers : nat) : option (DepthImage * NormalImage) :=
  render_images fuel (replicate workers (Evaluator.new t N)) v m.

(** ** Notions used in the statements *)

(** The row lengths of an image. *)
Definition img_dims {A} (img : Image A) : list nat := map length img.

(** Everything of an evaluator but its slots and its result buffer; the
    number of slots is kept too. *)
Definition ev_frame (e e' : Evaluator.t) : Prop :=
  Evaluator.tree e' = Evaluator.tree e ∧ Evaluator.M e' = Evaluator.M e
  ∧ Evaluator.active e' = Evaluator.active e
  ∧ Evaluator.pushes e' = Evaluator.pushes e
  ∧ Evaluator.pops e' = Evaluator.pops e
  ∧ length (Evaluator.slots e') = length (Evaluator.slots e).

Definition stable (s s' : State) : Prop :=
  ev_frame (ev s) (ev s') ∧ clock s' = clock s
  ∧ img_dims (depth s') = img_dims (depth s)
  ∧ img_dims (norm s') = img_dims (norm s).

(** The queue has room for one more point and its arrays have
    [NUM_POINTS] cells. *)
Definition nr_ok (nr : NormalRenderer) : Prop :=
  count nr < N ∧ length (xs nr) = N ∧ length (ys nr) = N.

(** The condition of the loop of [render] that builds the regions. *)
Definition more_regions (workers : nat) (rs : list View) : bool :=
  match rs with
  | [] => false
  | f :: _ => (length rs <? workers) && (1 <? Nat.min (size_x f) (size_y f))
  end.

(** Every pixel of [d'] holds what it holds in [d], or a greater value. *)
Definition raised (d d' : DepthImage) : Prop :=
  ∀ y x, depth_at d' y x = depth_at d y x
         ∨ SFltb (depth_at d y x) (depth_at d' y x) = true.

(** A pixel without a hit has no normal, a pixel with a hit has one. *)
Definition paired_value (z : float) (w : Z) : Prop :=
  (z = neg_infinity ∧ w = 0%Z) ∨ (z ≠ neg_infinity ∧ w ≠ 0%Z).

Definition paired (d : DepthImage) (nm : NormalImage) : Prop :=
  ∀ y x, match img_lookup d y x, img_lookup nm y x with
         | Some z, Some w => paired_value z w
         | None, None => True
         | _, _ => False
         end.

(** The pixel [(y, x)] waits in the queue for its normal. *)
Definition pending_from (i : nat) (nr : NormalRenderer) (y x : nat) : Prop :=
  ∃ k, i ≤ k ∧ k < count nr ∧ xs nr !! k = Some x ∧ ys nr !! k = Some y.

Definition queue_paired_from (i : nat) (nr : NormalRenderer)
    (d : DepthImage) (nm : NormalImage) : Prop :=
  ∀ y x, match img_lookup d y x, img_lookup nm y x with
         | Some z, Some w =>
             (pending_from i nr y x → z ≠ neg_infinity)
             ∧ (paired_value z w ∨ pending_from i nr y x)
         | None, None => True
         | _, _ => False
         end.

Definition queue_inv (nr : NormalRenderer) (s : State) : Prop :=
  nr_ok nr ∧ queue_paired_from 0 nr (depth s) (norm s).

(** The two images have the same pixels. *)
Definition same_shape (d : DepthImage) (nm : NormalImage) : Prop :=
  ∀ y x, is_Some (img_lookup d y x) ↔ is_Some (img_lookup nm y x).

(** *** The grid, the field and the surface *)

(** The expression tree of the evaluators, the matrix given to [render]
    and the grid that is rendered. *)
Variable tr : Evaluator.Tree.
Variable mat : Evaluator.Matrix.
Variable vox : Voxels.

(** The centre of the voxel [(x, y, k)] of the grid. *)
Definition voxel (x y k : nat) : point :=
  (at_f (px vox) x, at_f (py vox) y, at_f (pz vox) k).

(** The value of the field at a voxel, seen through the matrix. *)
Definition value (x y k : nat) : float :=
  Evaluator.field tr (Evaluator.transform tr mat (voxel x y k)).

(** The voxel is filled: its value is below zero. *)
Definition inside (x y k : nat) : bool := SFltb (value x y k) fzero.

(** The greatest index in [[lo, lo + n)] at which [P] holds. *)
Fixpoint highest (P : nat → bool) (lo n : nat) : option nat :=
  match n with
  | 0 => None
  | S n' => if P (lo + n') then Some (lo + n') else highest P lo n'
  end.

(** The least [k < n] at which the result [out[index + k]] is below zero. *)
Fixpoint first_neg (out : list float) (index n : nat) : option nat :=
  match n with
  | 0 => None
  | S n' => if SFltb (at_f out index) fzero then Some 0
            else option_map S (first_neg out (S index) n')
  end.

(** What a pixel at depth [d] holds once the sample [k] has been offered. *)
Definition raise (d : float) (top : option nat) : float :=
  match top with
  | Some k => if SFltb d (at_f (pz vox) k) then at_f (pz vox) k else d
  | None => d
  end.

(** The depth of the pixel [(x, y)] of the rendered solid: the highest
    filled sample of its column, minus infinity when there is none. *)
Definition surface (x y : nat) : float :=
  match highest (inside x y) 0 (length (pz vox)) with
  | Some k => at_f (pz vox) k
  | None => neg_infinity
  end.

(** The normal word of the pixel [(x, y)] at depth [z]. *)
Definition normal_of (y x : nat) (z : float) : Z :=
  pack_normal
    (Evaluator.gradient tr (Evaluator.transform tr mat (at_f (px vox) x, at_f (py vox) y, z))).

(** The normal of the pixel [(x, y)] of the rendered solid, before the sky
    normal is stamped. *)
Definition surface_normal (y x : nat) : Z :=
  match highest (inside x y) 0 (length (pz vox)) with
  | Some _ => normal_of y x (surface x y)
  | None => 0%Z
  end.

(** The normal image of the rendered solid. *)
Definition shade (y x : nat) : Z :=
  if SFeqb (surface x y) (at_f (pz vox) (length (pz vox) - 1)) then sky_normal
  else surface_normal y x.

(** [p] lies in the box between [lo] and [hi]. *)
Definition in_box (lo hi p : point) : bool :=
  let '(lx, ly, lz) := lo in
  let '(hx, hy, hz) := hi in
  let '(x, y, z) := p in
  SFleb lx x && SFleb x hx && SFleb ly y && SFleb y hy && SFleb lz z && SFleb z hz.

(** The invariant of a view of the grid: positive sizes, inside the grid,
    and the centres of its voxels inside its bounds. *)
Definition view_wf (r : View) : Prop :=
  grid r = vox
  ∧ 0 < size_x r ∧ 0 < size_y r ∧ 0 < size_z r
  ∧ corner_x r + size_x r ≤ length (px vox)
  ∧ corner_y r + size_y r ≤ length (py vox)
  ∧ corner_z r + size_z r ≤ length (pz vox)
  ∧ ∀ i j k, i < size_x r → j < size_y r → k < size_z r →
      in_box (lower r) (upper r) (pts_x r i, pts_y r j, pts_z r k) = true.

(** [lo] and [hi] are the two parts of [r] cut across the axis [a]; [hi]
    holds the samples of greater index. *)
Inductive Axis := AxisX | AxisY | AxisZ.

Definition halves (a : Axis) (r lo hi : View) : Prop :=
  match a with
  | AxisX =>
      corner_x lo = corner_x r ∧ corner_x hi = corner_x r + size_x lo
      ∧ size_x lo + size_x hi = size_x r ∧ 0 < size_x lo ∧ 0 < size_x hi
      ∧ corner_y lo = corner_y r ∧ size_y lo = size_y r
      ∧ corner_y hi = corner_y r ∧ size_y hi = size_y r
      ∧ corner_z lo = corner_z r ∧ size_z lo = size_z r
      ∧ corner_z hi = corner_z r ∧ size_z hi = size_z r
  | AxisY =>
      corner_y lo = corner_y r ∧ corner_y hi = corner_y r + size_y lo
      ∧ size_y lo + size_y hi = size_y r ∧ 0 < size_y lo ∧ 0 < size_y hi
      ∧ corner_x lo = corner_x r ∧ size_x lo = size_x r
      ∧ corner_x hi = corner_x r ∧ size_x hi = size_x r
      ∧ corner_z lo = corner_z r ∧ size_z lo = size_z r
      ∧ corner_z hi = corner_z r ∧ size_z hi = size_z r
  | AxisZ =>
      corner_z lo = corner_z r ∧ corner_z hi = corner_z r + size_z lo
      ∧ size_z lo + size_z hi = size_z r ∧ 0 < size_z lo ∧ 0 < size_z hi
      ∧ corner_x lo = corner_x r ∧ size_x lo = size_x r
      ∧ corner_x hi = corner_x r ∧ size_x hi = size_x r
      ∧ corner_y lo = corner_y r ∧ size_y lo = size_y r
      ∧ corner_y hi = corner_y r ∧ size_y hi = size_y r
  end.

(** The contract of [split()]: a view of more than one voxel is cut in
    two views that partition it. *)
Definition split_contract : Prop :=
  ∀ r, view_wf r → 1 < voxels r →
    view_wf (fst (split r)) ∧ view_wf (snd (split r))
    ∧ ∃ a, halves a r (fst (split r)) (snd (split r)).

(** The contract of [split<Axis::X | Axis::Y>()], for a view whose X and Y
    sizes are above 1: the cut is across X or across Y. *)
Definition split_xy_contract : Prop :=
  ∀ r, view_wf r → 1 < Nat.min (size_x r) (size_y r) →
    view_wf (fst (split_xy r)) ∧ view_wf (snd (split_xy r))
    ∧ ∃ a, a ≠ AxisZ ∧ halves a r (fst (split_xy r)) (snd (split_xy r)).

(** The views that a render visits: the view of the grid, the parts that
    the loop of [render] cuts a region in, and the parts that [recurse]
    cuts a view of more than [N] voxels in. *)
Inductive visited : View → Prop :=
  | visited_root : visited (view vox)
  | visited_xy_lo r :
      visited r → 1 < Nat.min (size_x r) (size_y r) → visited (fst (split_xy r))
  | visited_xy_hi r :
      visited r → 1 < Nat.min (size_x r) (size_y r) → visited (snd (split_xy r))
  | visited_lo r : visited r → N < voxels r → visited (fst (split r))
  | visited_hi r : visited r → N < voxels r → visited (snd (split r)).

(** The contract of [eval]: over the box of a view that the render visits,
    the interval bounds the field at the centre of every voxel of the
    view.  Nothing is asked of [eval] on any other box, nor of the field
    at any other position. *)
Definition interval_sound : Prop :=
  ∀ r, visited r → view_wf r →
  ∀ i j k, i < size_x r → j < size_y r → k < size_z r →
    let out := Evaluator.interval tr mat (lower r) (upper r) in
    let f := Evaluator.field tr
               (Evaluator.transform tr mat (pts_x r i, pts_y r j, pts_z r k)) in
    SFleb (ilower out) f = true ∧ SFleb f (iupper out) = true.

(** The z samples increase strictly and are above minus infinity. *)
Definition z_increasing : Prop :=
  (∀ i j, i < j → j < length (pz vox) →
     SFltb (at_f (pz vox) i) (at_f (pz vox) j) = true)
  ∧ (∀ k, k < length (pz vox) → SFltb neg_infinity (at_f (pz vox) k) = true).

(** An evaluator of the pool: bound to the tree, with room for [N]
    positions. *)
Definition ev_ok (e : Evaluator.t) : Prop :=
  Evaluator.tree e = tr ∧ N ≤ length (Evaluator.slots e).

(** The pixel [(y, x)] lies under the view. *)
Definition in_footprint (r : View) (y x : nat) : bool :=
  (corner_x r <=? x) && (x <? corner_x r + size_x r)
  && (corner_y r <=? y) && (y <? corner_y r + size_y r).

(** The depth image after a view has been rendered: under the view, every
    pixel has been offered the highest filled sample of its column inside
    the view; elsewhere nothing has changed. *)
Definition rendered (r : View) (d d' : DepthImage) : Prop :=
  ∀ y x, depth_at d' y x
         = if in_footprint r y x
           then raise (depth_at d y x)
                      (highest (inside x y) (corner_z r) (size_z r))
           else depth_at d y x.

(** The image has a pixel for every column of the grid. *)
Definition covers {A} (img : Image A) : Prop :=
  ∀ y x, y < length (py vox) → x < length (px vox) → is_Some (img_lookup img y x).

(** The pair of a depth and a normal word of a finished pixel. *)
Definition shaded_value (y x : nat) (z : float) (w : Z) : Prop :=
  (z = neg_infinity ∧ w = 0%Z) ∨ (z ≠ neg_infinity ∧ w = normal_of y x z).

Definition shaded (d : DepthImage) (nm : NormalImage) : Prop :=
  ∀ y x, y < length (py vox) → x < length (px vox) →
    shaded_value y x (depth_at d y x) (norm_at nm y x).

(** The columns of a view in the order of [VIEW_ITERATE_XYZ]: [i] outside,
    [j] inside. *)
Definition columns (r : View) : list (nat * nat) :=
  i ← seq 0 (size_x r); j ← seq 0 (size_y r); [(i, j)].

(** The positions of one column in the order of the loop over [k]: from
    the highest sample down. *)
Definition column_points (r : View) (i j : nat) : list point :=
  map (λ k, (pts_x r i, pts_y r j, pts_z r (size_z r - k - 1))) (seq 0 (size_z r)).


(** The entry [k] of the queue is the last one for the pixel [(y, x)]. *)
Definition last_pending (i : nat) (nr : NormalRenderer) (y x k : nat) : Prop :=
  i ≤ k ∧ k < count nr ∧ xs nr !! k = Some x ∧ ys nr !! k = Some y
  ∧ ∀ k', k < k' → k' < count nr → ¬ (xs nr !! k' = Some x ∧ ys nr !! k' = Some y).

(** While points wait in the queue: a pixel is finished, or its last entry
    in the queue holds the position of its depth. *)
Definition queue_shaded_from (i : nat) (nr : NormalRenderer)
    (slots : list point) (d : DepthImage) (nm : NormalImage) : Prop :=
  ∀ y x, y < length (py vox) → x < length (px vox) →
    let z := depth_at d y x in
    (shaded_value y x z (norm_at nm y x) ∧ ¬ pending_from i nr y x)
    ∨ (z ≠ neg_infinity
       ∧ ∃ k, last_pending i nr y x k
           ∧ slots !! k
             = Some (Evaluator.transform tr mat (at_f (px vox) x, at_f (py vox) y, z))).

(** The state of a task: its evaluator is one of the pool, with the matrix
    installed, and the images have the size of the grid. *)
Definition state_ok (s : State) : Prop :=
  ev_ok (ev s) ∧ Evaluator.M (ev s) = mat ∧ covers (depth s) ∧ covers (norm s).

Definition shading_inv (nr : NormalRenderer) (s : State) : Prop :=
  nr_ok nr ∧ state_ok s
  ∧ queue_shaded_from 0 nr (Evaluator.slots (ev s)) (depth s) (norm s).

(** The pixels under the columns [cl] of a view. *)
Definition cover (r : View) (cl : list (nat * nat)) (y x : nat) : bool :=
  existsb (λ c, (x =? corner_x r + fst c) && (y =? corner_y r + snd c)) cl.

(** What [pixels] does at the first filled voxel [k] of the column
    [(i, j)]: at most one write into the depth image and one [push]. *)
Definition hit (r : View) (i j k : nat) (nr : NormalRenderer) (s : State)
    : NormalRenderer * State :=
  let z := pts_z r (size_z r - k - 1) in
  if SFltb (depth_at (depth s) (corner_y r + j) (corner_x r + i)) z
  then push r i j z nr
         (with_depth s (img_set (depth s) (corner_y r + j) (corner_x r + i) z))
  else (nr, s).

(** The positions staged for the columns [cl]: those of the columns that
    pass the guard, one column after the other. *)
Definition chunks (r : View) (d : DepthImage) (cl : list (nat * nat)) : list point :=
  c ← cl;
  if column_open d r (fst c) (snd c) then column_points r (fst c) (snd c) else [].

(** What the first pass of [pixels] stages. *)
Definition staged (r : View) (d : DepthImage) : list point :=
  chunks r d (columns r).

(** One step of the first pass of [pixels]. *)
Definition stage_step (a : Evaluator.t * nat) (p : point) : Evaluator.t * nat :=
  (Evaluator.setRaw p (snd a) (fst a), S (snd a)).

(** One column of the second pass of [pixels]. *)
Definition unstage_step (r : View) (a : nat * NormalRenderer * State) (c : nat * nat)
    : nat * NormalRenderer * State :=
  if column_open (depth (snd a)) r (fst c) (snd c)
  then scan r (fst c) (snd c) (seq 0 (size_z r)) (fst (fst a)) (snd (fst a)) (snd a)
  else a.

(** One column of [fill]. *)
Definition fill_step (r : View) (a : NormalRenderer * State) (c : nat * nat)
    : NormalRenderer * State :=
  let z := pts_z r (size_z r - 1) in
  if SFltb (depth_at (depth (snd a)) (corner_y r + snd c) (corner_x r + fst c)) z
  then push r (fst c) (snd c) z (fst a)
         (with_depth (snd a)
            (img_set (depth (snd a)) (corner_y r + snd c) (corner_x r + fst c) z))
  else a.

(** All the voxels of a view are filled ([b = true]) or none is
    ([b = false]). *)
Definition all_inside (r : View) (b : bool) : Prop :=
  ∀ x y k, corner_x r ≤ x → x < corner_x r + size_x r →
           corner_y r ≤ y → y < corner_y r + size_y r →
           corner_z r ≤ k → k < corner_z r + size_z r →
           inside x y k = b.

(** The image has exactly the size of the grid: [Ny] rows of [Nx]
    columns. *)
Definition sized {A} (img : Image A) : Prop :=
  img_dims img = replicate (length (py vox)) (length (px vox)).

(** The regions of [render]: views of the grid over its whole height. *)
Definition tile (r : View) : Prop :=
  view_wf r ∧ corner_z r = 0 ∧ size_z r = length (pz vox).

(** Some region of [rs] lies over the pixel. *)
Definition tiled (rs : list View) (y x : nat) : bool :=
  existsb (λ r, in_footprint r y x) rs.

(** The regions [rs] lie over every pixel of the grid. *)
Definition tiling (rs : list View) : Prop :=
  Forall tile rs
  ∧ ∀ y x, y < length (py vox) → x < length (px vox) → tiled rs y x = true.

(** The images as [render] fills them before the tasks start. *)
Definition blank (d : DepthImage) (nm : NormalImage) : Prop :=
  sized d ∧ sized nm
  ∧ ∀ y x, y < length (py vox) → x < length (px vox) →
      img_lookup d y x = Some neg_infinity ∧ img_lookup nm y x = Some 0%Z.

(** *** Notions for the regions of the tasks *)

(** The entries of the queue are pixels under the view. *)
Definition queue_within (r : View) (nr : NormalRenderer) : Prop :=
  ∀ k, k < count nr → in_footprint r (at_n (ys nr) k) (at_n (xs nr) k) = true.

(** The two images are as they were at every pixel that is not under the
    view. *)
Definition untouched (r : View) (s s' : State) : Prop :=
  ∀ y x, in_footprint r y x = false →
    img_lookup (depth s') y x = img_lookup (depth s) y x
    ∧ img_lookup (norm s') y x = img_lookup (norm s) y x.

(** The number of regions that lie over a pixel. *)
Definition regions_over (rs : list View) (y x : nat) : nat :=
  length (List.filter (λ r, in_footprint r y x) rs).

(** The columns of a view that pass the guard of [VIEW_ITERATE_XYZ]. *)
Definition open_columns (r : View) (d : DepthImage) : list (nat * nat) :=
  List.filter (λ c, column_open d r (fst c) (snd c)) (columns r).

(** What the depth of the pixel [(x, y)] may be while the render is not
    finished: minus infinity, or the sample of a filled voxel of its
    column. *)
Definition hit_depth (x y : nat) (z : float) : Prop :=
  z = neg_infinity
  ∨ ∃ k, k < length (pz vox) ∧ inside x y k = true ∧ z = at_f (pz vox) k.

Definition sound (d : DepthImage) : Prop :=
  ∀ y x, y < length (py vox) → x < length (px vox) → hit_depth x y (depth_at d y x).

(** The sum of the three sizes of a view, which every split makes
    smaller. *)
Definition girth (r : View) : nat := size_x r + size_y r + size_z r.

(** The state of a task that starts with the evaluator [e] on blank images
    of [rows] rows of [cols] pixels. *)
Definition start (e : Evaluator.t) (rows cols : nat) : State :=
  mkState e (img_new rows cols neg_infinity) (img_new rows cols 0%Z) 0.

(** ** Properties *)

(** *** Comparisons of floats *)

Lemma SFcompare_pos m1 e1 m2 e2 :
  SFcompare (S754_finite false m1 e1) (S754_finite false m2 e2)
  = Some (lex e1 m1 e2 m2).
Proof. reflexivity. Qed.

Lemma SFcompare_neg m1 e1 m2 e2 :
  SFcompare (S754_finite true m1 e1) (S754_finite true m2 e2)
  = Some (CompOpp (lex e1 m1 e2 m2)).
Proof. unfold lex. simpl. destruct (e1 ?= e2)%Z; reflexivity. Qed.

Lemma lex_spec e1 m1 e2 m2 :
  CompareSpec (e1 = e2 ∧ m1 = m2)
              ((e1 < e2)%Z ∨ (e1 = e2 ∧ (m1 < m2)%positive))
              ((e2 < e1)%Z ∨ (e1 = e2 ∧ (m2 < m1)%positive))
              (lex e1 m1 e2 m2).
Proof.
  unfold lex.
  destruct (Z.compare_spec e1 e2); [|constructor; lia|constructor; lia].
  destruct (Pos.compare_spec m1 m2); constructor; auto.
Qed.

Ltac sf_destruct x :=
  let s := fresh "s" in let m := fresh "m" in let e := fresh "e" in
  destruct x as [s|s| |s m e]; try destruct s.

Ltac sf_lex :=
  rewrite ?SFcompare_neg, ?SFcompare_pos in *;
  repeat match goal with
         | H : context [lex ?a ?b ?c ?d] |- _ => destruct (lex_spec a b c d)
         | |- context [lex ?a ?b ?c ?d] => destruct (lex_spec a b c d)
         end;
  simpl in *; try congruence; try (exfalso; lia).

Ltac sf_crush :=
  unfold SFgeb, SFltb, SFleb, SFeqb, neg_infinity, fzero in *;
  first [ progress (simpl in *; congruence) | sf_lex ].

Lemma SFltb_trans a b c : SFltb a b = true → SFltb b c = true → SFltb a c = true.
Proof. sf_destruct a; sf_destruct b; sf_destruct c; intros; sf_crush. Qed.

Lemma SFleb_ltb_trans a b c : SFleb a b = true → SFltb b c = true → SFltb a c = true.
Proof. sf_destruct a; sf_destruct b; sf_destruct c; intros; sf_crush. Qed.

Lemma SFltb_asym a b : SFltb a b = true → SFltb b a = false.
Proof. sf_destruct a; sf_destruct b; intros; sf_crush. Qed.

Lemma SFltb_irrefl a : SFltb a a = false.
Proof. sf_destruct a; intros; sf_crush. Qed.

Lemma SFltb_leb a b : SFltb a b = true → SFleb a b = true.
Proof. sf_destruct a; sf_destruct b; intros; sf_crush. Qed.

Lemma SFltb_neg_infinity a : SFltb a neg_infinity = false.
Proof. sf_destruct a; intros; sf_crush. Qed.

Lemma SFltb_not_neg_infinity a b : SFltb a b = true → b ≠ neg_infinity.
Proof. intros H ->. now rewrite SFltb_neg_infinity in H. Qed.

(** *** Images *)

Lemma img_lookup_set {A} (img : Image A) y x v y' x' :
  img_lookup (img_set img y x v) y' x'
  = (λ w, if bool_decide (y' = y ∧ x' = x) then v else w) <$> img_lookup img y' x'.
Proof.
  unfold img_lookup, img_set.
  destruct (decide (y = y')) as [->|Hy].
  - rewrite list_lookup_alter_eq. destruct (img !! y') as [row|]; [simpl|done].
    destruct (decide (x = x')) as [->|Hx].
    + rewrite bool_decide_true by (split; reflexivity).
      destruct (row !! x') eqn:E.
      * rewrite list_lookup_insert_eq; [done|]. by eapply lookup_lt_Some.
      * simpl. apply lookup_ge_None. rewrite length_insert. by apply lookup_ge_None.
    + rewrite bool_decide_false by (intros [? ?]; congruence || lia).
      rewrite list_lookup_insert_ne by done. by destruct (row !! x').
  - rewrite list_lookup_alter_ne by done.
    rewrite bool_decide_false by (intros [? ?]; congruence || lia).
    by destruct (img !! y' ≫= (.!! x')).
Qed.

Lemma img_lookup_fill {A} (img : Image A) v y x :
  img_lookup (img_fill img v) y x = (λ _, v) <$> img_lookup img y x.
Proof.
  unfold img_lookup, img_fill. rewrite list_lookup_fmap.
  destruct (img !! y) as [row|]; [simpl|done]. by rewrite list_lookup_fmap.
Qed.

Lemma img_lookup_new {A} rows cols (v : A) y x :
  img_lookup (img_new rows cols v) y x
  = if bool_decide (y < rows ∧ x < cols) then Some v else None.
Proof.
  unfold img_lookup, img_new.
  destruct (decide (y < rows)) as [Hy|Hy].
  - rewrite lookup_replicate_2 by done. simpl.
    destruct (decide (x < cols)) as [Hx|Hx].
    + rewrite lookup_replicate_2 by done. by rewrite bool_decide_true.
    + rewrite bool_decide_false by (intros [? ?]; congruence || lia).
      apply lookup_replicate_None. lia.
  - rewrite bool_decide_false by (intros [? ?]; congruence || lia).
    rewrite (proj1 (lookup_replicate_None rows _ y)); [done|lia].
Qed.

Lemma depth_at_set d y x z y' x' :
  depth_at (img_set d y x z) y' x'
  = if bool_decide (y' = y ∧ x' = x) && bool_decide (is_Some (img_lookup d y x))
    then z else depth_at d y' x'.
Proof.
  unfold depth_at, img_get. rewrite img_lookup_set.
  case_bool_decide as H1; simpl.
  - destruct H1 as [-> ->]. destruct (img_lookup d y x) eqn:E; simpl; [done|].
    done.
  - by destruct (img_lookup d y' x').
Qed.

(** *** Loops *)

Lemma for_loop_ind {S : Type} (P : nat → S → Prop) n (body : nat → S → S) s :
  P 0 s → (∀ i a, i < n → P i a → P (Datatypes.S i) (body i a)) → P n (for_loop n body s).
Proof.
  unfold for_loop. intros H0 Hstep.
  assert (Hgen : ∀ m k a, k + m = n → P k a →
            P n (fold_left (λ acc i, body i acc) (seq k m) a)).
  { induction m as [|m IH]; intros k a Hk Ha; simpl.
    - replace n with k by lia. done.
    - apply IH; [lia|]. apply Hstep; [lia|done]. }
  by apply (Hgen n 0 s).
Qed.

Lemma for_loop_inv {S : Type} (P : S → Prop) n (body : nat → S → S) s :
  P s → (∀ i a, i < n → P a → P (body i a)) → P (for_loop n body s).
Proof. intros H0 Hstep. apply (for_loop_ind (λ _, P)); auto. Qed.

(** *** What the leaf operations leave alone *)

Lemma img_dims_set {A} (img : Image A) y x v : img_dims (img_set img y x v) = img_dims img.
Proof.
  unfold img_dims, img_set. apply list_eq. intros i. rewrite !list_lookup_fmap.
  destruct (decide (y = i)) as [->|Hne].
  - rewrite list_lookup_alter_eq. destruct (img !! i); simpl; [|done].
    by rewrite length_insert.
  - by rewrite list_lookup_alter_ne.
Qed.

Lemma ev_frame_refl e : ev_frame e e.
Proof. by repeat split. Qed.

Lemma ev_frame_trans e1 e2 e3 : ev_frame e1 e2 → ev_frame e2 e3 → ev_frame e1 e3.
Proof. unfold ev_frame. intuition congruence. Qed.

Lemma stable_refl s : stable s s.
Proof. by repeat split. Qed.

Lemma stable_trans s1 s2 s3 : stable s1 s2 → stable s2 s3 → stable s1 s3.
Proof.
  intros (He1 & ? & ? & ?) (He2 & ? & ? & ?).
  split; [by eapply ev_frame_trans|]. repeat split; congruence.
Qed.

Lemma ev_frame_setRaw p k e : ev_frame e (Evaluator.setRaw p k e).
Proof. repeat split; simpl. by rewrite length_insert. Qed.

Lemma ev_frame_applyTransform c e : ev_frame e (Evaluator.applyTransform c e).
Proof.
  repeat split; simpl.
  rewrite length_app, length_map, <- length_app. by rewrite take_drop.
Qed.

Lemma ev_frame_values c e : ev_frame e (Evaluator.values c e).
Proof. by repeat split. Qed.

Lemma stable_with_depth_set s y x z :
  stable s (with_depth s (img_set (depth s) y x z)).
Proof. repeat split; simpl. apply img_dims_set. Qed.

Lemma run_depth nr s : depth (snd (run nr s)) = depth s.
Proof. reflexivity. Qed.

Lemma stable_run nr s : stable s (snd (run nr s)).
Proof.
  unfold run. simpl. repeat split; simpl.
  apply (for_loop_inv (λ nm, img_dims nm = img_dims (norm s))); [done|].
  intros i nm _ <-. apply img_dims_set.
Qed.

Lemma flush_count nr s : count (fst (flush nr s)) = 0.
Proof.
  unfold flush. destruct (0 <? count nr) eqn:E; [done|].
  apply Nat.ltb_ge in E. simpl. lia.
Qed.

Lemma flush_depth nr s : depth (snd (flush nr s)) = depth s.
Proof. unfold flush. by destruct (0 <? count nr). Qed.

Lemma stable_flush nr s : stable s (snd (flush nr s)).
Proof.
  unfold flush. destruct (0 <? count nr); [apply stable_run|apply stable_refl].
Qed.

Lemma stable_enqueue r i j z nr s : stable s (snd (enqueue r i j z nr s)).
Proof. repeat split; simpl. by rewrite length_insert. Qed.

Lemma push_unfold r i j z nr s :
  push r i j z nr s
  = if S (count nr) =? N
    then run (fst (enqueue r i j z nr s)) (snd (enqueue r i j z nr s))
    else enqueue r i j z nr s.
Proof. reflexivity. Qed.

Lemma push_depth r i j z nr s : depth (snd (push r i j z nr s)) = depth s.
Proof. rewrite push_unfold. by destruct (S (count nr) =? N). Qed.

Lemma stable_push r i j z nr s : stable s (snd (push r i j z nr s)).
Proof.
  rewrite push_unfold. destruct (S (count nr) =? N); [|apply stable_enqueue].
  eapply stable_trans; [apply stable_enqueue|apply stable_run].
Qed.

Lemma ev_frame_stage r d e : ev_frame e (fst (stage r d e)).
Proof.
  unfold stage.
  apply (for_loop_inv (λ a, ev_frame e (fst a))); [apply ev_frame_refl|].
  intros i a _ Ha.
  apply (for_loop_inv (λ a, ev_frame e (fst a))); [done|].
  clear a Ha. intros j a _ Ha. destruct (column_open d r i j); [|done].
  apply (for_loop_inv (λ a, ev_frame e (fst a))); [done|].
  clear a Ha. intros k [e1 ix] _ Ha. simpl in *.
  eapply ev_frame_trans; [exact Ha|apply ev_frame_setRaw].
Qed.

Lemma stable_scan r i j ks index nr s : stable s (snd (scan r i j ks index nr s)).
Proof.
  revert index. induction ks as [|k ks IH]; intros index; simpl; [apply stable_refl|].
  destruct (SFltb (at_f (Evaluator.results (ev s)) index) fzero); [|apply IH].
  destruct (SFltb _ _).
  - destruct (push _ _ _ _ _ _) as [nr1 s1] eqn:E. simpl.
    eapply stable_trans; [apply stable_with_depth_set|].
    change s1 with (snd (nr1, s1)). rewrite <- E. apply stable_push.
  - apply stable_refl.
Qed.

Lemma stable_unstage r s : stable s (snd (unstage r s)).
Proof.
  unfold unstage.
  apply (for_loop_inv (λ a, stable s (snd a))); [apply stable_refl|].
  intros i a _ Ha.
  apply (for_loop_inv (λ a, stable s (snd a))); [done|].
  clear a Ha. intros j [[ix nr] s1] _ Ha. simpl in Ha.
  destruct (column_open (depth s1) r i j); [|done].
  eapply stable_trans; [exact Ha|apply stable_scan].
Qed.

Lemma stable_pixels r s : stable s (pixels r s).
Proof.
  unfold pixels. destruct (stage r (depth s) (ev s)) as [e1 index] eqn:E1.
  destruct (unstage _ _) as [[ix nr] s1] eqn:E2.
  assert (H1 : ev_frame (ev s) e1)
    by (change e1 with (fst (e1, index)); rewrite <- E1; apply ev_frame_stage).
  assert (H2 : stable (with_ev s (Evaluator.values index (Evaluator.applyTransform index e1))) s1)
    by (change s1 with (snd (ix, nr, s1)); rewrite <- E2; apply stable_unstage).
  eapply stable_trans; [|apply stable_flush].
  eapply stable_trans; [|exact H2].
  repeat split; simpl; try apply H1.
  destruct H1 as (_ & _ & _ & _ & _ & <-).
  rewrite length_app, length_map, <- length_app. by rewrite take_drop.
Qed.

Lemma stable_fill_loop r s : stable s (snd (fill_loop r s)).
Proof.
  unfold fill_loop.
  apply (for_loop_inv (λ a, stable s (snd a))); [apply stable_refl|].
  intros i a _ Ha.
  apply (for_loop_inv (λ a, stable s (snd a))); [done|].
  clear a Ha. intros j [nr s1] _ Ha. simpl in Ha.
  destruct (SFltb _ _); [|done].
  eapply stable_trans; [exact Ha|].
  eapply stable_trans; [apply stable_with_depth_set|apply stable_push].
Qed.

Lemma stable_fill r s : stable s (fill r s).
Proof.
  unfold fill. destruct (fill_loop r s) as [nr s1] eqn:E.
  eapply stable_trans; [|apply stable_flush].
  change s1 with (snd (nr, s1)). rewrite <- E. apply stable_fill_loop.
Qed.

(** *** The queue of the normal renderer *)

Lemma nr_ok_new : 0 < N → nr_ok NormalRenderer_new.
Proof. intros HN. repeat split; simpl; [done|..]; apply length_replicate. Qed.

Lemma nr_ok_run nr s :
  0 < N → length (xs nr) = N → length (ys nr) = N → nr_ok (fst (run nr s)).
Proof. intros HN Hx Hy. by repeat split. Qed.

Lemma nr_ok_push r i j z nr s : nr_ok nr → nr_ok (fst (push r i j z nr s)).
Proof.
  intros (Hc & Hx & Hy). rewrite push_unfold.
  destruct (S (count nr) =? N) eqn:E.
  - apply nr_ok_run; simpl; [lia|..]; by rewrite length_insert.
  - apply Nat.eqb_neq in E. repeat split; simpl; [lia|..]; by rewrite length_insert.
Qed.

Lemma nr_ok_flush nr s : nr_ok nr → nr_ok (fst (flush nr s)).
Proof.
  intros (Hc & Hx & Hy). unfold flush. destruct (0 <? count nr); [|done].
  apply nr_ok_run; [lia|done..].
Qed.

(** *** The activity stack *)

(** One level of [recurse]. *)
Lemma recurse_S fuel r s :
  recurse (S fuel) r s
  = let s0 := mkState (ev s) (depth s) (norm s) (S (clock s)) in
    if abort (clock s) then Some (false, s0)
    else if block_all_ge (depth s) r then Some (true, s0)
    else if voxels r <=? N then Some (true, pixels r s0)
    else if SFltb (iupper (Evaluator.eval (lower r) (upper r) (ev s))) fzero
    then Some (true, fill r s0)
    else if SFleb (ilower (Evaluator.eval (lower r) (upper r) (ev s))) fzero
    then match recurse fuel (snd (split r)) (on_ev Evaluator.push s0) with
         | None => None
         | Some (false, s2) => Some (false, on_ev Evaluator.pop s2)
         | Some (true, s2) =>
             match recurse fuel (fst (split r)) s2 with
             | None => None
             | Some (false, s3) => Some (false, on_ev Evaluator.pop s3)
             | Some (true, s3) => Some (true, on_ev Evaluator.pop s3)
             end
         end
    else Some (true, s0).
Proof. reflexivity. Qed.

Lemma recurse_stack fuel : ∀ r s b s',
  recurse fuel r s = Some (b, s') →
  Evaluator.pushes (ev s') + Evaluator.pops (ev s)
    = Evaluator.pops (ev s') + Evaluator.pushes (ev s)
  ∧ Evaluator.pushes (ev s) ≤ Evaluator.pushes (ev s')
  ∧ Evaluator.active (ev s') = Evaluator.active (ev s).
Proof.
  induction fuel as [|fuel IH]; intros r s b s' H; [done|].
  rewrite recurse_S in H. cbv zeta in H.
  set (s0 := mkState (ev s) (depth s) (norm s) (S (clock s))) in *.
  destruct (abort (clock s)); [injection H as <- <-; simpl; lia|].
  destruct (block_all_ge (depth s) r); [injection H as <- <-; simpl; lia|].
  destruct (voxels r <=? N).
  { injection H as <- <-. destruct (stable_pixels r s0) as ((_&_&Ha&Hp&Hq&_)&_).
    simpl in *. lia. }
  destruct (SFltb _ fzero).
  { injection H as <- <-. destruct (stable_fill r s0) as ((_&_&Ha&Hp&Hq&_)&_).
    simpl in *. lia. }
  destruct (SFleb _ fzero); [|injection H as <- <-; simpl; lia].
  destruct (recurse fuel (snd (split r)) _) as [[[] s2]|] eqn:E2; [| |done].
  - apply IH in E2. simpl in E2.
    destruct (recurse fuel (fst (split r)) s2) as [[[] s3]|] eqn:E3; [| |done].
    + apply IH in E3. injection H as <- <-. simpl. lia.
    + apply IH in E3. injection H as <- <-. simpl. lia.
  - apply IH in E2. simpl in E2. injection H as <- <-. simpl. lia.
Qed.

(** C2: whenever [recurse] returns, finished or aborted, at its entry or
    inside either descent, it has called [push()] as often as [pop()], and
    the depth of the activity stack of the evaluator is what it was at
    entry. *)
Theorem recurse_push_pop_balanced fuel r s b s' :
  recurse fuel r s = Some (b, s') →
  Evaluator.pushes (ev s') - Evaluator.pushes (ev s)
    = Evaluator.pops (ev s') - Evaluator.pops (ev s)
  ∧ Evaluator.pushes (ev s) ≤ Evaluator.pushes (ev s')
  ∧ Evaluator.pops (ev s) ≤ Evaluator.pops (ev s')
  ∧ Evaluator.active (ev s') = Evaluator.active (ev s).
Proof.
  intros H. apply recurse_stack in H as (H1 & H2 & H3).
  repeat split; [lia|done|lia|done].
Qed.

(** C10: the queue of [NormalRenderer] never overflows.  A new renderer has
    [count = 0 < NUM_POINTS]; while [count < NUM_POINTS], [push] writes the
    cells [xs[count]] and [ys[count]], which exist, calls [run] exactly
    when the incremented [count] equals [NUM_POINTS], and leaves
    [count < NUM_POINTS]; [run] resets [count] to [0]; after [flush],
    [count = 0], which is what the destructor asserts. *)
Theorem NormalRenderer_count_bounded :
  0 < N →
  nr_ok NormalRenderer_new
  ∧ (∀ r i j z nr s, nr_ok nr →
       xs (fst (enqueue r i j z nr s)) !! count nr = Some (corner_x r + i)
       ∧ ys (fst (enqueue r i j z nr s)) !! count nr = Some (corner_y r + j)
       ∧ push r i j z nr s
         = (if S (count nr) =? N
            then run (fst (enqueue r i j z nr s)) (snd (enqueue r i j z nr s))
            else enqueue r i j z nr s)
       ∧ count (fst (push r i j z nr s)) = (if S (count nr) =? N then 0 else S (count nr))
       ∧ nr_ok (fst (push r i j z nr s)))
  ∧ (∀ nr s, nr_ok nr → nr_ok (fst (run nr s)) ∧ count (fst (run nr s)) = 0)
  ∧ (∀ nr s, nr_ok nr →
       nr_ok (fst (flush nr s)) ∧ flushed (fst (flush nr s)) = true).
Proof.
  intros HN. split; [by apply nr_ok_new|]. split; [|split].
  - intros r i j z nr s Hok. pose proof Hok as (Hc & Hx & Hy).
    split; [simpl; apply list_lookup_insert_eq; lia|].
    split; [simpl; apply list_lookup_insert_eq; lia|].
    split; [apply push_unfold|]. split; [|by apply nr_ok_push].
    rewrite push_unfold. by destruct (S (count nr) =? N).
  - intros nr s (Hc & Hx & Hy). split; [by apply nr_ok_run|done].
  - intros nr s Hok. split; [by apply nr_ok_flush|].
    unfold flushed. by rewrite flush_count.
Qed.

(** *** The regions and their tasks *)

Lemma build_regions_done fuel workers : ∀ rs,
  workers ≤ fuel + length rs →
  more_regions workers (build_regions fuel workers rs) = false.
Proof.
  induction fuel as [|fuel IH]; intros rs Hf; simpl.
  - destruct rs as [|f rest]; [done|]. simpl.
    replace (S (length rest) <? workers) with false; [done|].
    symmetry. apply Nat.ltb_ge. simpl in Hf. lia.
  - destruct rs as [|f rest]; [done|].
    destruct ((length (f :: rest) <? workers) && _) eqn:E.
    + apply IH. rewrite length_app. simpl in *. lia.
    + simpl. exact E.
Qed.

Lemma build_regions_length fuel workers : ∀ rs,
  1 ≤ length rs → length rs ≤ Nat.max 1 workers →
  1 ≤ length (build_regions fuel workers rs)
  ∧ length (build_regions fuel workers rs) ≤ Nat.max 1 workers.
Proof.
  induction fuel as [|fuel IH]; intros rs H1 H2; simpl; [done|].
  destruct rs as [|f rest]; [done|].
  destruct ((length (f :: rest) <? workers) && _) eqn:E; [|done].
  apply andb_true_iff in E as [E _]. apply Nat.ltb_lt in E.
  apply IH; rewrite length_app; simpl in *; lia.
Qed.

Lemma dispatch_tasks fuel m : ∀ rs es d nm clk es1 d1 nm1 clk1,
  dispatch fuel m es rs d nm clk = Some (es1, d1, nm1, clk1) →
  length es1 = length rs ∧ length rs ≤ length es
  ∧ ∀ k region, rs !! k = Some region →
      ∃ e s0 b s1, es !! k = Some e
        ∧ ev s0 = Evaluator.setMatrix m e
        ∧ recurse fuel region s0 = Some (b, s1)
        ∧ es1 !! k = Some (ev s1).
Proof.
  induction rs as [|region rs IH]; intros es d nm clk es1 d1 nm1 clk1 H; simpl in H.
  - injection H as <- <- <- <-. repeat split; simpl; [lia|]. intros k ? Hk. done.
  - destruct es as [|e es]; [done|].
    destruct (recurse fuel region _) as [[b s]|] eqn:E; [|done].
    destruct (dispatch fuel m es rs _ _ _) as [[[[es2 d2] nm2] clk2]|] eqn:E2; [|done].
    injection H as <- <- <- <-. apply IH in E2 as (HL & HL' & Hk).
    repeat split; simpl; [lia|lia|].
    intros [|k] reg Hreg; simpl in *.
    + simplify_eq. eexists e, _, b, s. repeat split; [|exact E]. done.
    + by apply Hk.
Qed.

(** C6, amended: [render] dispatches one task per region.  There is at
    least one region and at most [max 1 |es|]; the loop stops either when
    there are as many regions as evaluators or at a front region whose X
    or Y size is not above 1, so the number of tasks can stay below the
    size of the pool.  When the tasks run, task [k] works on evaluator
    [k] of the pool, so that no evaluator serves two tasks. *)
Theorem render_tasks_within_pool (fuel : nat) (m : Evaluator.Matrix)
    (es : list Evaluator.t) (v : Voxels) :
  let rs := regions (length es) v in
  1 ≤ length rs ∧ length rs ≤ Nat.max 1 (length es)
  ∧ more_regions (length es) rs = false
  ∧ ∀ d nm clk es1 d1 nm1 clk1,
      dispatch fuel m es rs d nm clk = Some (es1, d1, nm1, clk1) →
      length es1 = length rs ∧ length rs ≤ length es
      ∧ ∀ k region, rs !! k = Some region →
          ∃ e s0 b s1, es !! k = Some e
            ∧ ev s0 = Evaluator.setMatrix m e
            ∧ recurse fuel region s0 = Some (b, s1)
            ∧ es1 !! k = Some (ev s1).
Proof.
  intros rs. unfold rs, regions.
  destruct (build_regions_length (length es) (length es) [view v]) as [H1 H2];
    [simpl; lia..|].
  split; [done|]. split; [done|]. split.
  - apply build_regions_done. simpl. lia.
  - intros. by eapply dispatch_tasks.
Qed.

(** *** The sky normal *)

Lemma img_lookup_select_sky v d nm y x :
  img_lookup (select_sky v d nm) y x
  = (λ w, if SFeqb (depth_at d y x) (at_f (pz v) (length (pz v) - 1))
          then sky_normal else w) <$> img_lookup nm y x.
Proof.
  unfold img_lookup, select_sky. rewrite list_lookup_imap.
  destruct (nm !! y) as [row|]; [simpl|done]. by rewrite list_lookup_imap.
Qed.


(** *** A gradient of length zero *)

(** C5, amended: for a gradient whose three components are zero, [run]
    has no replacement: the length is [0], each of the three values
    [255 * (d / (2 * length) + 0.5)] is NaN, and the bytes of the word that
    is written come from the conversion of NaN to [uint32_t], which the
    language leaves undefined.  Nothing is signalled: [run] returns and
    the queue is empty.  A NaN among the results of the field is not below
    zero, so [pixels] passes over that voxel as an empty one. *)
Theorem zero_gradient_has_no_fallback (sx sy sz : bool) :
  let g := (S754_zero sx, S754_zero sy, S754_zero sz) in
  let u := (undefined_cast S754_nan mod 2 ^ 32)%Z in
  vec_length g = fzero
  ∧ lane (S754_zero sx) (vec_length g) = S754_nan
  ∧ lane (S754_zero sy) (vec_length g) = S754_nan
  ∧ lane (S754_zero sz) (vec_length g) = S754_nan
  ∧ pack_normal g = Z.lor (Z.lor (Z.lor 0xff000000%Z (shl32 u 16)) (shl32 u 8)) u
  ∧ (∀ nr s, count (fst (run nr s)) = 0)
  ∧ (∀ r i j k ks index nr s,
       at_f (Evaluator.results (ev s)) index = S754_nan →
       scan r i j (k :: ks) index nr s = scan r i j ks (S index) nr s).
Proof.
  destruct sx, sy, sz; split_and!; try reflexivity;
    intros r i j k ks index nr s H; simpl; by rewrite H.
Qed.

(** *** The depth of a pixel only rises *)

Lemma raised_refl d : raised d d.
Proof. intros y x. by left. Qed.

Lemma raised_trans d1 d2 d3 : raised d1 d2 → raised d2 d3 → raised d1 d3.
Proof.
  intros H12 H23 y x. destruct (H12 y x) as [E1|L1], (H23 y x) as [E2|L2].
  - left. congruence.
  - right. by rewrite <- E1.
  - right. by rewrite E2.
  - right. by eapply SFltb_trans.
Qed.

(** The guarded write of [pixels] and [fill]. *)
Lemma raised_set d y x z :
  SFltb (depth_at d y x) z = true → raised d (img_set d y x z).
Proof.
  intros Hlt y' x'. rewrite depth_at_set.
  case_bool_decide as H1; simpl; [|by left].
  destruct H1 as [-> ->]. case_bool_decide; [by right|by left].
Qed.

Lemma raised_scan r i j ks : ∀ index nr s,
  raised (depth s) (depth (snd (scan r i j ks index nr s))).
Proof.
  induction ks as [|k ks IH]; intros index nr s; simpl; [apply raised_refl|].
  destruct (SFltb (at_f (Evaluator.results (ev s)) index) fzero); [|apply IH].
  destruct (SFltb (depth_at _ _ _) _) eqn:E; [|apply raised_refl].
  destruct (push _ _ _ _ _ _) as [nr1 s1] eqn:Ep. simpl.
  replace (depth s1) with (depth (snd (push r i j (pts_z r (size_z r - k - 1)) nr
    (with_depth s (img_set (depth s) (corner_y r + j) (corner_x r + i)
       (pts_z r (size_z r - k - 1)))))))
    by (by rewrite Ep).
  rewrite push_depth. simpl. by apply raised_set.
Qed.

Lemma raised_unstage r s : raised (depth s) (depth (snd (unstage r s))).
Proof.
  unfold unstage.
  apply (for_loop_inv (λ a, raised (depth s) (depth (snd a)))); [apply raised_refl|].
  intros i a _ Ha.
  apply (for_loop_inv (λ a, raised (depth s) (depth (snd a)))); [done|].
  clear a Ha. intros j [[ix nr] s1] _ Ha. simpl in Ha.
  destruct (column_open (depth s1) r i j); [|done].
  eapply raised_trans; [exact Ha|apply raised_scan].
Qed.

Lemma raised_pixels r s : raised (depth s) (depth (pixels r s)).
Proof.
  unfold pixels. destruct (stage r (depth s) (ev s)) as [e1 index].
  destruct (unstage _ _) as [[ix nr] s1] eqn:E2.
  rewrite flush_depth.
  change (depth s) with
    (depth (with_ev s (Evaluator.values index (Evaluator.applyTransform index e1)))).
  change s1 with (snd (ix, nr, s1)). rewrite <- E2. apply raised_unstage.
Qed.

Lemma raised_fill_loop r s : raised (depth s) (depth (snd (fill_loop r s))).
Proof.
  unfold fill_loop.
  apply (for_loop_inv (λ a, raised (depth s) (depth (snd a)))); [apply raised_refl|].
  intros i a _ Ha.
  apply (for_loop_inv (λ a, raised (depth s) (depth (snd a)))); [done|].
  clear a Ha. intros j [nr s1] _ Ha. simpl in Ha.
  destruct (SFltb _ _) eqn:E; [|done].
  eapply raised_trans; [exact Ha|]. rewrite push_depth. simpl. by apply raised_set.
Qed.

Lemma raised_fill r s : raised (depth s) (depth (fill r s)).
Proof.
  unfold fill. destruct (fill_loop r s) as [nr s1] eqn:E.
  rewrite flush_depth. change s1 with (snd (nr, s1)). rewrite <- E.
  apply raised_fill_loop.
Qed.

Lemma raised_recurse fuel : ∀ r s b s',
  recurse fuel r s = Some (b, s') → raised (depth s) (depth s').
Proof.
  induction fuel as [|fuel IH]; intros r s b s' H; [done|].
  rewrite recurse_S in H. cbv zeta in H.
  set (s0 := mkState (ev s) (depth s) (norm s) (S (clock s))) in *.
  destruct (abort (clock s)); [injection H as <- <-; apply raised_refl|].
  destruct (block_all_ge (depth s) r); [injection H as <- <-; apply raised_refl|].
  destruct (voxels r <=? N); [injection H as <- <-; apply (raised_pixels r s0)|].
  destruct (SFltb _ fzero); [injection H as <- <-; apply (raised_fill r s0)|].
  destruct (SFleb _ fzero); [|injection H as <- <-; apply raised_refl].
  destruct (recurse fuel (snd (split r)) _) as [[[] s2]|] eqn:E2; [| |done].
  - apply IH in E2. simpl in E2.
    destruct (recurse fuel (fst (split r)) s2) as [[[] s3]|] eqn:E3; [| |done];
      apply IH in E3; injection H as <- <-; simpl; by eapply raised_trans.
  - apply IH in E2. simpl in E2. by injection H as <- <-.
Qed.

Lemma raised_dispatch fuel m : ∀ rs es d nm clk es1 d1 nm1 clk1,
  dispatch fuel m es rs d nm clk = Some (es1, d1, nm1, clk1) → raised d d1.
Proof.
  induction rs as [|region rs IH]; intros es d nm clk es1 d1 nm1 clk1 H; simpl in H.
  - injection H as <- <- <- <-. apply raised_refl.
  - destruct es as [|e es]; [done|].
    destruct (recurse fuel region _) as [[b s]|] eqn:E; [|done].
    destruct (dispatch fuel m es rs _ _ _) as [[[[es2 d2] nm2] clk2]|] eqn:E2; [|done].
    injection H as <- <- <- <-. apply raised_recurse in E. apply IH in E2.
    by eapply raised_trans.
Qed.

(** C8: the depth image is monotone.  The only writes into it are the
    guarded ones of [pixels] and [fill], which store [z] where the pixel
    holds a value below [z]; so after [pixels], [fill], [recurse] and all
    the tasks of [render] every pixel holds its former value or a greater
    one, and none holds a smaller one. *)
Theorem depth_monotone :
  (∀ d y x z, SFltb (depth_at d y x) z = true → raised d (img_set d y x z))
  ∧ (∀ r s, raised (depth s) (depth (pixels r s)))
  ∧ (∀ r s, raised (depth s) (depth (fill r s)))
  ∧ (∀ fuel r s b s', recurse fuel r s = Some (b, s') → raised (depth s) (depth s'))
  ∧ (∀ fuel m rs es d nm clk es1 d1 nm1 clk1,
       dispatch fuel m es rs d nm clk = Some (es1, d1, nm1, clk1) → raised d d1)
  ∧ (∀ d d', raised d d' → ∀ y x, SFltb (depth_at d' y x) (depth_at d y x) = false).
Proof.
  split; [apply raised_set|]. split; [apply raised_pixels|].
  split; [apply raised_fill|]. split; [apply raised_recurse|].
  split; [apply raised_dispatch|].
  intros d d' H y x. destruct (H y x) as [->|L].
  - apply SFltb_irrefl.
  - by apply SFltb_asym.
Qed.

(** *** Depth and normal go together *)

Lemma pack_normal_nonzero g : pack_normal g ≠ 0%Z.
Proof.
  destruct g as [[dx dy] dz]. unfold pack_normal. intros H.
  apply Z.lor_eq_0_iff in H as [H _]. apply Z.lor_eq_0_iff in H as [H _].
  apply Z.lor_eq_0_iff in H as [H _]. discriminate H.
Qed.

Lemma paired_of_queue i nr d nm :
  count nr ≤ i → queue_paired_from i nr d nm → paired d nm.
Proof.
  intros Hc H y x. specialize (H y x).
  destruct (img_lookup d y x), (img_lookup nm y x); try done.
  destruct H as [_ [H|(k & ? & ? & _)]]; [done|lia].
Qed.

Lemma queue_of_paired nr d nm :
  count nr = 0 → paired d nm → queue_paired_from 0 nr d nm.
Proof.
  intros Hc H y x. specialize (H y x).
  destruct (img_lookup d y x), (img_lookup nm y x); try done.
  split; [|by left]. intros (k & ? & ? & _). lia.
Qed.

Lemma run_paired nr s :
  count nr ≤ length (xs nr) → count nr ≤ length (ys nr) →
  queue_paired_from 0 nr (depth s) (norm s) →
  paired (depth s) (norm (snd (run nr s))).
Proof.
  intros Hx Hy H. unfold run. simpl.
  apply (paired_of_queue (count nr) nr); [done|].
  apply (for_loop_ind (λ i nm, queue_paired_from i nr (depth s) nm)); [done|].
  intros i nm Hi IH y x. specialize (IH y x).
  destruct (lookup_lt_is_Some_2 (xs nr) i) as [x0 Hx0]; [lia|].
  destruct (lookup_lt_is_Some_2 (ys nr) i) as [y0 Hy0]; [lia|].
  unfold at_n. rewrite Hx0, Hy0. simpl. rewrite img_lookup_set.
  destruct (img_lookup (depth s) y x) as [z|], (img_lookup nm y x) as [w|];
    simpl; try done.
  destruct IH as [IH1 IH2]. split.
  - intros (k & ? & ? & ? & ?). apply IH1. exists k. repeat split; [lia|done..].
  - case_bool_decide as Hp.
    + destruct Hp as [-> ->]. left. right. split; [|apply pack_normal_nonzero].
      apply IH1. exists i. repeat split; [lia|done..].
    + destruct IH2 as [IH2|(k & ? & ? & Hkx & Hky)]; [by left|]. right.
      exists k. repeat split; [|done..].
      destruct (decide (k = i)) as [->|]; [|lia].
      exfalso. apply Hp. split; congruence.
Qed.

Lemma enqueue_paired r i j z nr s :
  queue_inv nr s →
  SFltb (depth_at (depth s) (corner_y r + j) (corner_x r + i)) z = true →
  let q := enqueue r i j z nr
             (with_depth s (img_set (depth s) (corner_y r + j) (corner_x r + i) z)) in
  queue_paired_from 0 (fst q) (depth (snd q)) (norm (snd q)).
Proof.
  intros [(Hc & Hlx & Hly) H] Hlt. simpl. intros y x. specialize (H y x).
  rewrite img_lookup_set.
  destruct (img_lookup (depth s) y x) as [z0|], (img_lookup (norm s) y x) as [w|];
    simpl; try done.
  destruct H as [H1 H2].
  assert (Hold : ∀ k, k < count nr →
            <[count nr := corner_x r + i]> (xs nr) !! k = xs nr !! k
            ∧ <[count nr := corner_y r + j]> (ys nr) !! k = ys nr !! k).
  { intros k Hk. split; apply list_lookup_insert_ne; lia. }
  case_bool_decide as Hp.
  - destruct Hp as [-> ->]. split.
    + intros _. by eapply SFltb_not_neg_infinity.
    + right. exists (count nr). simpl.
      repeat split; [lia|lia|apply list_lookup_insert_eq; lia..].
  - split.
    + intros (k & _ & Hk & Hkx & Hky). simpl in *.
      destruct (decide (k = count nr)) as [->|Hne].
      * rewrite list_lookup_insert_eq in Hkx, Hky by lia.
        exfalso. apply Hp. split; congruence.
      * apply H1. exists k. destruct (Hold k) as [Ex Ey]; [lia|].
        repeat split; [lia|lia|congruence..].
    + destruct H2 as [H2|(k & ? & Hk & Hkx & Hky)]; [by left|]. right.
      exists k. simpl. destruct (Hold k Hk) as [-> ->]. repeat split; [lia|lia|done..].
Qed.

Lemma push_paired r i j z nr s :
  queue_inv nr s →
  SFltb (depth_at (depth s) (corner_y r + j) (corner_x r + i)) z = true →
  let q := push r i j z nr
             (with_depth s (img_set (depth s) (corner_y r + j) (corner_x r + i) z)) in
  queue_inv (fst q) (snd q).
Proof.
  intros Hq Hlt. pose proof (enqueue_paired r i j z nr s Hq Hlt) as He.
  destruct Hq as [Hok _]. simpl. split; [by apply nr_ok_push|].
  rewrite push_unfold. cbv zeta in He.
  set (q := enqueue _ _ _ _ _ _) in *.
  destruct Hok as (Hc & Hlx & Hly).
  destruct (S (count nr) =? N) eqn:E; [|done].
  apply queue_of_paired; [done|]. rewrite run_depth.
  apply run_paired; [| |done]; simpl; rewrite length_insert; lia.
Qed.

Lemma scan_paired r i j ks : ∀ index nr s,
  queue_inv nr s →
  queue_inv (snd (fst (scan r i j ks index nr s))) (snd (scan r i j ks index nr s)).
Proof.
  induction ks as [|k ks IH]; intros index nr s Hq; simpl; [done|].
  destruct (SFltb (at_f (Evaluator.results (ev s)) index) fzero); [|by apply IH].
  destruct (SFltb (depth_at _ _ _) _) eqn:E; [|done].
  pose proof (push_paired r i j _ nr s Hq E) as Hp. cbv zeta in Hp.
  by destruct (push _ _ _ _ _ _) as [nr1 s1].
Qed.

Lemma unstage_paired r s :
  0 < N → paired (depth s) (norm s) →
  queue_inv (snd (fst (unstage r s))) (snd (unstage r s)).
Proof.
  intros HN Hp. unfold unstage.
  apply (for_loop_inv (λ a, queue_inv (snd (fst a)) (snd a))).
  { split; [by apply nr_ok_new|]. by apply queue_of_paired. }
  intros i a _ Ha.
  apply (for_loop_inv (λ a, queue_inv (snd (fst a)) (snd a))); [done|].
  clear a Ha. intros j [[ix nr] s1] _ Ha. simpl in Ha.
  destruct (column_open (depth s1) r i j); [|done]. by apply scan_paired.
Qed.

Lemma flush_paired nr s :
  queue_inv nr s → paired (depth (snd (flush nr s))) (norm (snd (flush nr s))).
Proof.
  intros [(Hc & Hlx & Hly) H]. unfold flush. destruct (0 <? count nr) eqn:E.
  - rewrite run_depth. apply run_paired; [lia|lia|done].
  - apply Nat.ltb_ge in E. apply (paired_of_queue 0 nr); [lia|done].
Qed.

Lemma pixels_paired r s :
  0 < N → paired (depth s) (norm s) → paired (depth (pixels r s)) (norm (pixels r s)).
Proof.
  intros HN Hp. unfold pixels. destruct (stage r (depth s) (ev s)) as [e1 index].
  pose proof (unstage_paired r
    (with_ev s (Evaluator.values index (Evaluator.applyTransform index e1))) HN Hp) as H.
  destruct (unstage _ _) as [[ix nr] s1]. by apply flush_paired.
Qed.

Lemma fill_paired r s :
  0 < N → paired (depth s) (norm s) → paired (depth (fill r s)) (norm (fill r s)).
Proof.
  intros HN Hp. unfold fill.
  assert (H : queue_inv (fst (fill_loop r s)) (snd (fill_loop r s))).
  { unfold fill_loop.
    apply (for_loop_inv (λ a, queue_inv (fst a) (snd a))).
    { split; [by apply nr_ok_new|]. by apply queue_of_paired. }
    intros i a _ Ha.
    apply (for_loop_inv (λ a, queue_inv (fst a) (snd a))); [done|].
    clear a Ha. intros j [nr s1] _ Ha. simpl in Ha.
    destruct (SFltb _ _) eqn:E; [|done]. by apply push_paired. }
  destruct (fill_loop r s) as [nr s1]. by apply flush_paired.
Qed.

Lemma recurse_paired fuel : 0 < N → ∀ r s b s',
  recurse fuel r s = Some (b, s') →
  paired (depth s) (norm s) → paired (depth s') (norm s').
Proof.
  intros HN. induction fuel as [|fuel IH]; intros r s b s' H Hp; [done|].
  rewrite recurse_S in H. cbv zeta in H.
  set (s0 := mkState (ev s) (depth s) (norm s) (S (clock s))) in *.
  destruct (abort (clock s)); [by injection H as <- <-|].
  destruct (block_all_ge (depth s) r); [by injection H as <- <-|].
  destruct (voxels r <=? N); [injection H as <- <-; by apply (pixels_paired r s0)|].
  destruct (SFltb _ fzero); [injection H as <- <-; by apply (fill_paired r s0)|].
  destruct (SFleb _ fzero); [|by injection H as <- <-].
  destruct (recurse fuel (snd (split r)) _) as [[[] s2]|] eqn:E2; [| |done].
  - apply IH in E2; [|done].
    destruct (recurse fuel (fst (split r)) s2) as [[[] s3]|] eqn:E3; [| |done];
      apply IH in E3; [|done| |done]; by injection H as <- <-.
  - apply IH in E2; [|done]. by injection H as <- <-.
Qed.

Lemma dispatch_paired fuel m : 0 < N → ∀ rs es d nm clk es1 d1 nm1 clk1,
  dispatch fuel m es rs d nm clk = Some (es1, d1, nm1, clk1) →
  paired d nm → paired d1 nm1.
Proof.
  intros HN. induction rs as [|region rs IH];
    intros es d nm clk es1 d1 nm1 clk1 H Hp; simpl in H.
  - by injection H as <- <- <- <-.
  - destruct es as [|e es]; [done|].
    destruct (recurse fuel region _) as [[b s]|] eqn:E; [|done].
    destruct (dispatch fuel m es rs _ _ _) as [[[[es2 d2] nm2] clk2]|] eqn:E2; [|done].
    injection H as <- <- <- <-. apply recurse_paired in E; [|done..].
    by eapply IH.
Qed.

Lemma SFeqb_neg_infinity z : SFeqb neg_infinity z = true → z = neg_infinity.
Proof. sf_destruct z; intros; sf_crush. Qed.


(** *** Lists, columns and samples *)

Lemma fold_left_bind {A B S : Type} (f : S → B → S) (g : A → list B) l s :
  fold_left f (l ≫= g) s = fold_left (λ a x, fold_left f (g x) a) l s.
Proof.
  revert s. induction l as [|x l IH]; intros s; [done|].
  rewrite bind_cons, fold_left_app. simpl. apply IH.
Qed.

Lemma fold_left_ext_in {A S : Type} (f g : S → A → S) l s :
  (∀ a x, x ∈ l → f a x = g a x) → fold_left f l s = fold_left g l s.
Proof.
  revert s. induction l as [|x l IH]; intros s H; [done|]. simpl.
  rewrite H by apply list_elem_of_here. apply IH.
  intros a y Hy. apply H. by apply list_elem_of_further.
Qed.

Lemma for_loop_columns {S : Type} r (body : nat → nat → S → S) s :
  for_loop (size_x r) (λ i, for_loop (size_y r) (body i)) s
  = fold_left (λ a c, body (fst c) (snd c) a) (columns r) s.
Proof.
  unfold for_loop, columns. rewrite fold_left_bind.
  apply fold_left_ext_in. intros a i _. by rewrite fold_left_bind.
Qed.

Lemma elem_of_columns r i j : (i, j) ∈ columns r ↔ i < size_x r ∧ j < size_y r.
Proof.
  unfold columns. rewrite list_elem_of_bind. split.
  - intros (i' & H & Hi). apply list_elem_of_bind in H as (j' & H & Hj).
    apply list_elem_of_singleton in H. injection H as -> ->.
    apply elem_of_seq in Hi, Hj. lia.
  - intros [Hi Hj]. exists i. split; [|apply elem_of_seq; lia].
    apply list_elem_of_bind. exists j. split; [|apply elem_of_seq; lia].
    by apply list_elem_of_singleton.
Qed.

Lemma NoDup_columns r : NoDup (columns r).
Proof.
  unfold columns. apply NoDup_bind; [| |apply NoDup_seq].
  - intros i1 i2 c _ _ H1 H2.
    apply list_elem_of_bind in H1 as (j1 & H1 & _).
    apply list_elem_of_bind in H2 as (j2 & H2 & _).
    apply list_elem_of_singleton in H1, H2. congruence.
  - intros i _. apply NoDup_bind; [| |apply NoDup_seq].
    + intros j1 j2 c _ _ H1 H2. apply list_elem_of_singleton in H1, H2. congruence.
    + intros j _. apply NoDup_singleton.
Qed.

Lemma highest_Some P lo n k :
  highest P lo n = Some k →
  lo ≤ k ∧ k < lo + n ∧ P k = true ∧ ∀ k', k < k' → k' < lo + n → P k' = false.
Proof.
  induction n as [|n IH]; [done|]. simpl.
  destruct (P (lo + n)) eqn:E.
  - intros [= <-]. repeat split; [lia|lia|done|]. intros k' ? ?. lia.
  - intros H. apply IH in H as (? & ? & ? & Hk). repeat split; [lia|lia|done|].
    intros k' ? ?. destruct (decide (k' = lo + n)) as [->|]; [done|].
    apply Hk; lia.
Qed.

Lemma highest_None P lo n :
  highest P lo n = None → ∀ k, lo ≤ k → k < lo + n → P k = false.
Proof.
  induction n as [|n IH]; [intros; lia|]. simpl.
  destruct (P (lo + n)) eqn:E; [done|]. intros H k ? ?.
  destruct (decide (k = lo + n)) as [->|]; [done|]. apply IH; [done|lia..].
Qed.

Lemma highest_unique P lo n k :
  lo ≤ k → k < lo + n → P k = true →
  (∀ k', k < k' → k' < lo + n → P k' = false) →
  highest P lo n = Some k.
Proof.
  intros H1 H2 H3 H4. destruct (highest P lo n) as [k'|] eqn:E.
  - apply highest_Some in E as (? & ? & Hp & Hk'). f_equal.
    destruct (lt_eq_lt_dec k k') as [[Hlt|]|Hlt]; [|done|].
    + rewrite (H4 k') in Hp; [done|lia..].
    + rewrite (Hk' k) in H3; [done|lia..].
  - eapply (highest_None _ _ _ E k) in H1; [|done]. congruence.
Qed.

Lemma highest_none P lo n :
  (∀ k, lo ≤ k → k < lo + n → P k = false) → highest P lo n = None.
Proof.
  intros H. destruct (highest P lo n) as [k|] eqn:E; [|done].
  apply highest_Some in E as (? & ? & E & _). rewrite H in E; [done|lia..].
Qed.

Lemma highest_app P lo n1 n2 :
  highest P lo (n1 + n2)
  = match highest P (lo + n1) n2 with
    | Some k => Some k
    | None => highest P lo n1
    end.
Proof.
  induction n2 as [|n2 IH]; simpl.
  - by rewrite Nat.add_0_r.
  - rewrite Nat.add_succ_r. simpl. rewrite Nat.add_assoc.
    by destruct (P (lo + n1 + n2)).
Qed.

(** *** Shapes, frames and the queue of normals *)

Lemma img_dims_lookup {A B} (d : Image A) (d' : Image B) y x :
  img_dims d' = img_dims d →
  is_Some (img_lookup d y x) → is_Some (img_lookup d' y x).
Proof.
  unfold img_dims, img_lookup. intros Hd H.
  assert (Hy : (length <$> d') !! y = (length <$> d) !! y).
  { change (length <$> d') with (map length d'). by rewrite Hd. }
  rewrite !list_lookup_fmap in Hy.
  destruct (d !! y) as [row|]; simpl in *; [|by destruct H].
  destruct (d' !! y) as [row'|]; simpl in *; [|done].
  injection Hy as Hy. apply lookup_lt_is_Some. rewrite Hy.
  by apply lookup_lt_is_Some.
Qed.

Lemma covers_dims {A B} (d : Image A) (d' : Image B) :
  img_dims d' = img_dims d → covers d → covers d'.
Proof. intros Hd Hc y x Hy Hx. eapply img_dims_lookup; [done|]. by apply Hc. Qed.

Lemma stable_state_ok s s' : stable s s' → state_ok s → state_ok s'.
Proof.
  intros ((Ht & HM & _ & _ & _ & Hl) & _ & Hd & Hn) ([Het Hes] & HeM & Hcd & Hcn).
  repeat split; [congruence|lia|congruence|by eapply covers_dims..].
Qed.

Lemma depth_at_set_covered d y x z y' x' :
  covers d → y < length (py vox) → x < length (px vox) →
  depth_at (img_set d y x z) y' x'
  = if bool_decide (y' = y ∧ x' = x) then z else depth_at d y' x'.
Proof.
  intros Hc Hy Hx. rewrite depth_at_set.
  rewrite (bool_decide_true (is_Some _)) by (by apply Hc).
  by rewrite andb_true_r.
Qed.

Lemma norm_at_set nm y x w y' x' :
  norm_at (img_set nm y x w) y' x'
  = if bool_decide (y' = y ∧ x' = x) && bool_decide (is_Some (img_lookup nm y x))
    then w else norm_at nm y' x'.
Proof.
  unfold norm_at, img_get. rewrite img_lookup_set.
  case_bool_decide as H1; simpl.
  - destruct H1 as [-> ->]. destruct (img_lookup nm y x) eqn:E; simpl; done.
  - by destruct (img_lookup nm y' x').
Qed.

Lemma shaded_of_queue nr slots d nm :
  queue_shaded_from (count nr) nr slots d nm → shaded d nm.
Proof.
  intros H y x Hy Hx. destruct (H y x Hy Hx) as [[H1 _]|(_ & k & (? & ? & _) & _)];
    [done|lia].
Qed.

Lemma queue_of_shaded nr slots d nm :
  count nr = 0 → shaded d nm → queue_shaded_from 0 nr slots d nm.
Proof.
  intros Hc H y x Hy Hx. left. split; [by apply H|].
  intros (k & ? & ? & _). lia.
Qed.

Lemma run_shaded nr s :
  count nr ≤ length (xs nr) → count nr ≤ length (ys nr) →
  count nr ≤ length (Evaluator.slots (ev s)) →
  Evaluator.tree (ev s) = tr → covers (norm s) →
  queue_shaded_from 0 nr (Evaluator.slots (ev s)) (depth s) (norm s) →
  shaded (depth s) (norm (snd (run nr s))).
Proof.
  intros Hlx Hly Hls Ht Hcov H. unfold run. simpl.
  apply (shaded_of_queue nr (Evaluator.slots (ev s))).
  apply (for_loop_ind
           (λ i nm, covers nm
                    ∧ queue_shaded_from i nr (Evaluator.slots (ev s)) (depth s) nm));
    [done|].
  intros i nm Hi [Hc IH].
  destruct (lookup_lt_is_Some_2 (xs nr) i) as [x0 Hx0]; [lia|].
  destruct (lookup_lt_is_Some_2 (ys nr) i) as [y0 Hy0]; [lia|].
  destruct (lookup_lt_is_Some_2 (Evaluator.slots (ev s)) i) as [p0 Hp0]; [lia|].
  unfold at_n. rewrite Hx0, Hy0. simpl.
  rewrite list_lookup_fmap, lookup_take_lt, Hp0 by lia. simpl.
  split.
  { eapply covers_dims; [|exact Hc]. apply img_dims_set. }
  intros y x Hy Hx. cbv zeta. rewrite norm_at_set.
  case_bool_decide as Hp; simpl.
  - destruct Hp as [-> ->].
    rewrite bool_decide_true by (by apply Hc).
    destruct (IH y0 x0 Hy Hx) as [[_ Hn]|(Hz0 & k & (Hk1 & Hk2 & Hkx & Hky & Hlast) & Hslot)].
    { exfalso. apply Hn. exists i. repeat split; [lia|lia|done..]. }
    destruct (decide (k = i)) as [->|Hne].
    + left. split.
      * right. split; [done|]. unfold normal_of. rewrite Ht.
        rewrite Hp0 in Hslot. by injection Hslot as ->.
      * intros (k' & ? & ? & ? & ?). by apply (Hlast k'); [lia|lia|].
    + right. split; [done|]. exists k. split; [|done].
      repeat split; [lia|lia|done|done|done].
  - destruct (IH y x Hy Hx) as [[Hs Hn]|(Hz0 & k & (Hk1 & Hk2 & Hkx & Hky & Hlast) & Hslot)].
    + left. split; [done|]. intros (k & ? & ? & ? & ?). apply Hn.
      exists k. repeat split; [lia|lia|done..].
    + right. split; [done|]. exists k. split; [|done].
      repeat split; [|lia|done|done|done].
      destruct (decide (k = i)) as [->|]; [|lia].
      exfalso. apply Hp. split; congruence.
Qed.

Lemma enqueue_shaded r i j z nr s :
  shading_inv nr s → grid r = vox →
  corner_y r + j < length (py vox) → corner_x r + i < length (px vox) →
  SFltb (depth_at (depth s) (corner_y r + j) (corner_x r + i)) z = true →
  let q := enqueue r i j z nr
             (with_depth s (img_set (depth s) (corner_y r + j) (corner_x r + i) z)) in
  queue_shaded_from 0 (fst q) (Evaluator.slots (ev (snd q)))
                    (depth (snd q)) (norm (snd q)).
Proof.
  intros ((Hc & Hlx & Hly) & ([Ht Hls] & HM & Hcd & Hcn) & H) Hg Hy0 Hx0 Hlt.
  simpl. intros y x Hy Hx. cbv zeta.
  rewrite depth_at_set_covered by done.
  assert (Hold : ∀ k, k < count nr →
            <[count nr := corner_x r + i]> (xs nr) !! k = xs nr !! k
            ∧ <[count nr := corner_y r + j]> (ys nr) !! k = ys nr !! k).
  { intros k Hk. split; apply list_lookup_insert_ne; lia. }
  case_bool_decide as Hp.
  - destruct Hp as [-> ->]. right. split; [by eapply SFltb_not_neg_infinity|].
    exists (count nr). split.
    + repeat split; simpl; [lia|lia|apply list_lookup_insert_eq; lia..|].
      intros k' ? ?. lia.
    + rewrite list_lookup_insert_eq by lia. rewrite Ht, HM.
      unfold pts_x, pts_y. by rewrite Hg.
  - destruct (H y x Hy Hx) as [[Hs Hn]|(Hz0 & k & (Hk1 & Hk2 & Hkx & Hky & Hlast) & Hslot)].
    + left. split; [done|]. intros (k & _ & Hk & Hkx & Hky). simpl in *.
      destruct (decide (k = count nr)) as [->|Hne].
      * rewrite list_lookup_insert_eq in Hkx, Hky by lia.
        apply Hp. split; congruence.
      * apply Hn. exists k. destruct (Hold k) as [Ex Ey]; [lia|].
        repeat split; [lia|lia|congruence..].
    + right. split; [done|]. exists k. destruct (Hold k Hk2) as [Ex Ey]. split.
      * repeat split; simpl; [lia|lia|congruence|congruence|].
        intros k' Hk' Hk'' [Hx' Hy']. simpl in *.
        destruct (decide (k' = count nr)) as [->|Hne].
        -- rewrite list_lookup_insert_eq in Hx', Hy' by lia.
           apply Hp. split; congruence.
        -- destruct (Hold k') as [Ex' Ey']; [lia|].
           apply (Hlast k'); [lia|lia|]. split; congruence.
      * rewrite list_lookup_insert_ne by lia. done.
Qed.

Lemma push_shaded r i j z nr s :
  shading_inv nr s → grid r = vox →
  corner_y r + j < length (py vox) → corner_x r + i < length (px vox) →
  SFltb (depth_at (depth s) (corner_y r + j) (corner_x r + i)) z = true →
  let q := push r i j z nr
             (with_depth s (img_set (depth s) (corner_y r + j) (corner_x r + i) z)) in
  shading_inv (fst q) (snd q).
Proof.
  intros Hinv Hg Hy0 Hx0 Hlt.
  pose proof (enqueue_shaded r i j z nr s Hinv Hg Hy0 Hx0 Hlt) as He.
  destruct Hinv as (Hok & Hst & _). cbv zeta in *.
  set (s0 := with_depth s _) in *.
  assert (Hst' : state_ok (snd (push r i j z nr s0))).
  { eapply stable_state_ok; [|exact Hst].
    eapply stable_trans; [apply stable_with_depth_set|apply stable_push]. }
  split; [by apply nr_ok_push|]. split; [done|].
  rewrite push_unfold in *. set (q := enqueue r i j z nr s0) in *.
  destruct Hok as (Hc & Hlx & Hly).
  destruct (S (count nr) =? N) eqn:E; [|done].
  apply queue_of_shaded; [done|]. rewrite run_depth.
  assert (Hq : state_ok (snd q)).
  { eapply stable_state_ok; [|exact Hst].
    eapply stable_trans; [apply stable_with_depth_set|apply stable_enqueue]. }
  destruct Hq as ([Ht Hls] & _ & _ & Hcn).
  apply Nat.eqb_eq in E.
  apply run_shaded; [| | |done|done|done]; simpl in *;
    rewrite ?length_insert in *; lia.
Qed.

Lemma scan_shaded r i j ks : ∀ index nr s,
  shading_inv nr s → grid r = vox →
  corner_y r + j < length (py vox) → corner_x r + i < length (px vox) →
  shading_inv (snd (fst (scan r i j ks index nr s))) (snd (scan r i j ks index nr s)).
Proof.
  induction ks as [|k ks IH]; intros index nr s Hq Hg Hy Hx; simpl; [done|].
  destruct (SFltb (at_f (Evaluator.results (ev s)) index) fzero); [|by apply IH].
  destruct (SFltb (depth_at _ _ _) _) eqn:E; [|done].
  pose proof (push_shaded r i j _ nr s Hq Hg Hy Hx E) as Hp. cbv zeta in Hp.
  by destruct (push _ _ _ _ _ _) as [nr1 s1].
Qed.

Lemma view_wf_pixel r i j :
  view_wf r → i < size_x r → j < size_y r →
  corner_y r + j < length (py vox) ∧ corner_x r + i < length (px vox).
Proof. intros (_ & _ & _ & _ & ? & ? & _) ? ?. lia. Qed.

Lemma flush_shaded nr s :
  shading_inv nr s →
  state_ok (snd (flush nr s))
  ∧ shaded (depth (snd (flush nr s))) (norm (snd (flush nr s))).
Proof.
  intros ((Hc & Hlx & Hly) & Hst & H).
  split; [eapply stable_state_ok; [apply stable_flush|done]|].
  destruct Hst as ([Ht Hls] & _ & _ & Hcn).
  unfold flush. destruct (0 <? count nr) eqn:E.
  - rewrite run_depth. apply run_shaded; [lia|lia|lia|done|done|done].
  - apply Nat.ltb_ge in E. apply (shaded_of_queue nr (Evaluator.slots (ev s))).
    by replace (count nr) with 0 by lia.
Qed.

Lemma state_ok_with_ev s e :
  ev_frame (ev s) e → state_ok s → state_ok (with_ev s e).
Proof.
  intros He. apply stable_state_ok. split; [exact He|]. by repeat split.
Qed.

(** *** The two passes of [pixels] *)

Lemma scan_spec r i j : ∀ n a index nr s,
  scan r i j (seq a n) index nr s
  = match first_neg (Evaluator.results (ev s)) index n with
    | None => (index + n, nr, s)
    | Some t =>
        (S (index + t) + (size_z r - (a + t) - 1),
         fst (hit r i j (a + t) nr s), snd (hit r i j (a + t) nr s))
    end.
Proof.
  induction n as [|n IH]; intros a index nr s; simpl.
  - by rewrite Nat.add_0_r.
  - destruct (SFltb (at_f (Evaluator.results (ev s)) index) fzero) eqn:E.
    + rewrite !Nat.add_0_r. unfold hit.
      by destruct (SFltb (depth_at _ _ _) _); [destruct (push _ _ _ _ _ _)|].
    + rewrite IH. destruct (first_neg _ (S index) n) as [t|]; simpl.
      * by rewrite <- !Nat.add_succ_comm.
      * by rewrite Nat.add_succ_r.
Qed.

Lemma first_neg_Some out index n t :
  first_neg out index n = Some t →
  t < n ∧ SFltb (at_f out (index + t)) fzero = true
  ∧ ∀ t', t' < t → SFltb (at_f out (index + t')) fzero = false.
Proof.
  revert index t. induction n as [|n IH]; intros index t; simpl; [done|].
  destruct (SFltb (at_f out index) fzero) eqn:E.
  - intros [= <-]. rewrite Nat.add_0_r. repeat split; [lia|done|]. intros; lia.
  - destruct (first_neg out (S index) n) as [t0|] eqn:E0; [|done].
    intros [= <-]. apply IH in E0 as (? & H1 & H2). repeat split; [lia| |].
    + by rewrite Nat.add_succ_r.
    + intros [|t'] ?; [by rewrite Nat.add_0_r|].
      rewrite Nat.add_succ_r. apply (H2 t'). lia.
Qed.

Lemma first_neg_None out index n :
  first_neg out index n = None →
  ∀ t, t < n → SFltb (at_f out (index + t)) fzero = false.
Proof.
  revert index. induction n as [|n IH]; intros index; simpl; [intros; lia|].
  destruct (SFltb (at_f out index) fzero) eqn:E; [done|].
  destruct (first_neg out (S index) n) as [t0|] eqn:E0; [done|].
  intros _ [|t] ?; [by rewrite Nat.add_0_r|].
  rewrite Nat.add_succ_r. apply (IH (S index)); [done|lia].
Qed.

(** The first result below zero of a column is its highest filled sample. *)
Lemma first_neg_highest out index P lo n :
  (∀ t, t < n → SFltb (at_f out (index + t)) fzero = P (lo + (n - t - 1))) →
  highest P lo n
  = option_map (λ t, lo + (n - t - 1)) (first_neg out index n).
Proof.
  intros H. destruct (first_neg out index n) as [t|] eqn:E; simpl.
  - apply first_neg_Some in E as (Ht & H1 & H2).
    apply highest_unique; [lia|lia|by rewrite <- H|].
    intros k' Hk1 Hk2. replace k' with (lo + (n - (lo + n - 1 - k') - 1)) by lia.
    rewrite <- H by lia. apply H2. lia.
  - apply highest_none. intros k Hk1 Hk2.
    replace k with (lo + (n - (lo + n - 1 - k) - 1)) by lia.
    rewrite <- H by lia. eapply first_neg_None; [done|lia].
Qed.

Lemma fold_left_fmap {A B S : Type} (f : S → B → S) (g : A → B) l s :
  fold_left f (g <$> l) s = fold_left (λ a x, f a (g x)) l s.
Proof. revert s. induction l as [|x l IH]; intros s; [done|]. simpl. apply IH. Qed.

Lemma stage_fold r d e : stage r d e = fold_left stage_step (staged r d) (e, 0).
Proof.
  unfold stage, staged, chunks. rewrite for_loop_columns, fold_left_bind.
  apply fold_left_ext_in. intros a [i j] _. simpl.
  destruct (column_open d r i j); [|done].
  unfold column_points, for_loop.
  change (map ?f ?l) with (f <$> l). rewrite fold_left_fmap.
  apply fold_left_ext_in. by intros [e1 ix] k _.
Qed.

Lemma stage_points pts : ∀ e ix,
  ix + length pts ≤ length (Evaluator.slots e) →
  fold_left stage_step pts (e, ix)
  = (Evaluator.with_slots e
       (take ix (Evaluator.slots e) ++ pts
          ++ drop (ix + length pts) (Evaluator.slots e)),
     ix + length pts).
Proof.
  induction pts as [|p pts IH]; intros e ix Hl; simpl in *.
  - rewrite !Nat.add_0_r, take_drop. by destruct e.
  - unfold stage_step at 2. simpl. rewrite IH by (simpl; rewrite length_insert; lia).
    simpl. f_equal; [|lia]. unfold Evaluator.with_slots. simpl. f_equal.
    rewrite (take_S_r _ _ p) by (apply list_lookup_insert_eq; lia).
    rewrite take_insert_ge by lia. rewrite drop_insert_lt by lia.
    rewrite <- app_assoc. simpl. by rewrite Nat.add_succ_r.
Qed.

Lemma length_column_points r i j : length (column_points r i j) = size_z r.
Proof. unfold column_points. by rewrite length_map, length_seq. Qed.

Lemma length_chunks r d cl : length (chunks r d cl) ≤ length cl * size_z r.
Proof.
  unfold chunks. induction cl as [|c cl IH]; [done|].
  rewrite bind_cons, length_app. simpl.
  destruct (column_open d r c.1 c.2); [rewrite length_column_points|simpl]; lia.
Qed.

Lemma length_bind_const {A B : Type} (f : A → list B) (l : list A) n :
  (∀ x, length (f x) = n) → length (l ≫= f) = length l * n.
Proof.
  intros H. induction l as [|x l IH]; [done|].
  rewrite bind_cons, length_app, H, IH. done.
Qed.

Lemma length_columns r : length (columns r) = size_x r * size_y r.
Proof.
  unfold columns. rewrite (length_bind_const _ _ (size_y r)), length_seq; [done|].
  intros i. rewrite (length_bind_const _ _ 1), length_seq; [lia|done].
Qed.

Lemma length_staged r d : length (staged r d) ≤ voxels r.
Proof.
  unfold staged, voxels. pose proof (length_chunks r d (columns r)) as H.
  by rewrite length_columns in H.
Qed.

(** After the first pass, the transform and [values], the result buffer
    starts with the field at the staged positions. *)
Lemma staged_results r s :
  voxels r ≤ N → ev_ok (ev s) → Evaluator.M (ev s) = mat →
  let e1 := fst (stage r (depth s) (ev s)) in
  let index := snd (stage r (depth s) (ev s)) in
  let e3 := Evaluator.values index (Evaluator.applyTransform index e1) in
  ∀ t p, staged r (depth s) !! t = Some p →
    Evaluator.results e3 !! t
    = Some (Evaluator.field tr (Evaluator.transform tr mat p)).
Proof.
  intros Hv [Ht Hl] HM. pose proof (length_staged r (depth s)) as Hlen.
  rewrite stage_fold, stage_points by (simpl; lia). simpl.
  intros t p Hp. unfold Evaluator.evaluate. simpl. rewrite Ht, HM.
  rewrite take_app_length. rewrite take_app_length' by (by rewrite length_map).
  rewrite lookup_app_l.
  - by rewrite !list_lookup_fmap, Hp.
  - rewrite !length_map. by eapply lookup_lt_Some.
Qed.

Lemma unstage_fold r s :
  unstage r s = fold_left (unstage_step r) (columns r) (0, NormalRenderer_new, s).
Proof.
  unfold unstage. rewrite for_loop_columns.
  apply fold_left_ext_in. by intros [[ix nr] s1] [i j] _.
Qed.

Lemma push_count_le r i j z nr s : count (fst (push r i j z nr s)) ≤ S (count nr).
Proof. rewrite push_unfold. destruct (S (count nr) =? N); simpl; lia. Qed.

Lemma push_results r i j z nr s :
  S (count nr) ≠ N →
  Evaluator.results (ev (snd (push r i j z nr s))) = Evaluator.results (ev s).
Proof.
  intros H. rewrite push_unfold. apply Nat.eqb_neq in H. by rewrite H.
Qed.

Lemma chunks_cons r d c cl :
  chunks r d (c :: cl)
  = (if column_open d r (fst c) (snd c) then column_points r (fst c) (snd c) else [])
      ++ chunks r d cl.
Proof. reflexivity. Qed.

Lemma chunks_ext r d d' cl :
  (∀ c, c ∈ cl →
     depth_at d' (corner_y r + snd c) (corner_x r + fst c)
     = depth_at d (corner_y r + snd c) (corner_x r + fst c)) →
  chunks r d' cl = chunks r d cl.
Proof.
  induction cl as [|c cl IH]; intros H; [done|]. rewrite !chunks_cons.
  rewrite IH by (intros c' Hc'; apply H; by apply list_elem_of_further).
  unfold column_open. by rewrite H by apply list_elem_of_here.
Qed.

Lemma cover_cons r c cl y x :
  cover r (c :: cl) y x
  = (x =? corner_x r + fst c) && (y =? corner_y r + snd c) || cover r cl y x.
Proof. reflexivity. Qed.

Lemma cover_not_in r cl i j :
  (i, j) ∉ cl → cover r cl (corner_y r + j) (corner_x r + i) = false.
Proof.
  intros H. unfold cover. apply not_true_is_false. intros E.
  apply existsb_exists in E as ([i' j'] & Hin & E). simpl in E.
  apply andb_true_iff in E as [E1 E2]. apply Nat.eqb_eq in E1, E2.
  apply H. replace i with i' by lia. replace j with j' by lia.
  by apply list_elem_of_In.
Qed.

Lemma cover_columns r y x : cover r (columns r) y x = in_footprint r y x.
Proof.
  unfold in_footprint. destruct (cover r (columns r) y x) eqn:E.
  - apply existsb_exists in E as ([i j] & Hin & E). simpl in E.
    apply list_elem_of_In, elem_of_columns in Hin as [Hi Hj].
    apply andb_true_iff in E as [E1 E2]. apply Nat.eqb_eq in E1, E2. subst.
    symmetry. rewrite !andb_true_iff, !Nat.leb_le, !Nat.ltb_lt. lia.
  - symmetry. apply not_true_is_false. intros H.
    rewrite !andb_true_iff, !Nat.leb_le, !Nat.ltb_lt in H.
    rewrite <- not_true_iff_false in E. apply E. apply existsb_exists.
    exists (x - corner_x r, y - corner_y r). split.
    + apply list_elem_of_In, elem_of_columns. lia.
    + simpl. rewrite andb_true_iff, !Nat.eqb_eq. lia.
Qed.

(** The pixel of a column of a view, seen from the grid. *)
Lemma pts_z_grid r k : view_wf r → pts_z r k = at_f (pz vox) (corner_z r + k).
Proof. intros (Hg & _). unfold pts_z. by rewrite Hg. Qed.

Lemma size_xy_le_voxels r : 0 < size_z r → size_x r * size_y r ≤ voxels r.
Proof. unfold voxels. nia. Qed.

(** *** Footprints, regions and whole images *)

Lemma fill_fold r s :
  fill_loop r s = fold_left (fill_step r) (columns r) (NormalRenderer_new, s).
Proof.
  unfold fill_loop. cbv zeta. rewrite for_loop_columns.
  apply fold_left_ext_in. by intros [nr s1] [i j] _.
Qed.

Lemma in_footprint_true r y x :
  in_footprint r y x = true
  ↔ corner_x r ≤ x ∧ x < corner_x r + size_x r
    ∧ corner_y r ≤ y ∧ y < corner_y r + size_y r.
Proof.
  unfold in_footprint. rewrite !andb_true_iff, !Nat.leb_le, !Nat.ltb_lt. lia.
Qed.

Lemma in_footprint_false r y x :
  in_footprint r y x = false
  ↔ ¬ (corner_x r ≤ x ∧ x < corner_x r + size_x r
       ∧ corner_y r ≤ y ∧ y < corner_y r + size_y r).
Proof. rewrite <- in_footprint_true. symmetry. apply not_true_iff_false. Qed.

Lemma SFleb_not_ltb a b : SFleb a b = true → SFltb b a = false.
Proof. sf_destruct a; sf_destruct b; intros; sf_crush. Qed.

Lemma state_ok_on_ev f s :
  (∀ e, Evaluator.tree (f e) = Evaluator.tree e ∧ Evaluator.M (f e) = Evaluator.M e
        ∧ Evaluator.slots (f e) = Evaluator.slots e) →
  state_ok s → state_ok (on_ev f s).
Proof.
  intros Hf ([Ht Hl] & HM & Hcd & Hcn). destruct (Hf (ev s)) as (H1 & H2 & H3).
  repeat split; simpl; [congruence|by rewrite H3|congruence|done..].
Qed.

Lemma halves_measure a r lo hi :
  halves a r lo hi →
  size_x lo + size_y lo + size_z lo < size_x r + size_y r + size_z r
  ∧ size_x hi + size_y hi + size_z hi < size_x r + size_y r + size_z r.
Proof. destruct a; simpl; lia. Qed.

Lemma tiled_app rs1 rs2 y x : tiled (rs1 ++ rs2) y x = tiled rs1 y x || tiled rs2 y x.
Proof. apply existsb_app. Qed.

Lemma recurse_dims fuel : ∀ r s b s',
  recurse fuel r s = Some (b, s') →
  img_dims (depth s') = img_dims (depth s) ∧ img_dims (norm s') = img_dims (norm s).
Proof.
  induction fuel as [|fuel IH]; intros r s b s' H; [done|].
  rewrite recurse_S in H. cbv zeta in H.
  set (s0 := mkState (ev s) (depth s) (norm s) (S (clock s))) in *.
  destruct (abort (clock s)); [by injection H as <- <-|].
  destruct (block_all_ge (depth s) r); [by injection H as <- <-|].
  destruct (voxels r <=? N); [injection H as <- <-; apply (stable_pixels r s0)|].
  destruct (SFltb _ fzero); [injection H as <- <-; apply (stable_fill r s0)|].
  destruct (SFleb _ fzero); [|by injection H as <- <-].
  destruct (recurse fuel (snd (split r)) _) as [[[] s2]|] eqn:E2; [| |done].
  - apply IH in E2 as [E2 E2'].
    destruct (recurse fuel (fst (split r)) s2) as [[[] s3]|] eqn:E3; [| |done];
      apply IH in E3 as [E3 E3']; injection H as <- <-; simpl in *;
      split; congruence.
  - apply IH in E2 as [E2 E2']. by injection H as <- <-.
Qed.

Lemma tile_fuel r : tile r →
  size_x r + size_y r + size_z r
  ≤ length (px vox) + length (py vox) + length (pz vox).
Proof. intros ((_ & _ & _ & _ & ? & ? & ? & _) & _). lia. Qed.

Lemma image_eq {A} (a b : Image A) :
  img_dims a = img_dims b → (∀ y x, img_lookup a y x = img_lookup b y x) → a = b.
Proof.
  intros Hd Hl. apply list_eq. intros y.
  assert (Hy : (length <$> a) !! y = (length <$> b) !! y).
  { change (length <$> a) with (img_dims a). by rewrite Hd. }
  rewrite !list_lookup_fmap in Hy.
  destruct (a !! y) as [ra|] eqn:Ea, (b !! y) as [rb|] eqn:Eb; try done.
  f_equal. apply list_eq. intros x. specialize (Hl y x).
  unfold img_lookup in Hl. by rewrite Ea, Eb in Hl.
Qed.

Lemma sized_lookup {A} (img : Image A) y x :
  sized img →
  is_Some (img_lookup img y x) ↔ y < length (py vox) ∧ x < length (px vox).
Proof.
  unfold sized, img_dims, img_lookup. intros Hs.
  assert (Hy : (length <$> img) !! y
               = replicate (length (py vox)) (length (px vox)) !! y).
  { change (length <$> img) with (map length img). by rewrite Hs. }
  rewrite list_lookup_fmap in Hy. destruct (img !! y) as [row|]; simpl in *.
  - symmetry in Hy. apply lookup_replicate in Hy as [Hy ?].
    rewrite lookup_lt_is_Some. lia.
  - symmetry in Hy. apply lookup_replicate_None in Hy.
    split; [by intros [? ?]|lia].
Qed.

Lemma sized_covers {A} (img : Image A) : sized img → covers img.
Proof. intros Hs y x Hy Hx. by apply sized_lookup. Qed.

Lemma img_dims_fill {A} (img : Image A) a : img_dims (img_fill img a) = img_dims img.
Proof.
  unfold img_dims, img_fill. rewrite map_map. apply map_ext. intros row.
  apply length_map.
Qed.

Lemma img_dims_select_sky g d nm : img_dims (select_sky g d nm) = img_dims nm.
Proof.
  unfold img_dims, select_sky. apply list_eq. intros y.
  change (map ?f ?l) with (f <$> l). rewrite !list_lookup_fmap, list_lookup_imap.
  destruct (nm !! y); simpl; [|done]. by rewrite length_imap.
Qed.

(** Two images of the size of the grid that hold the same pixels are the
    same image. *)
Lemma sized_eq {A} (a b : Image A) (f : nat → nat → A) :
  sized a → sized b →
  (∀ y x, y < length (py vox) → x < length (px vox) →
     img_lookup a y x = Some (f y x)) →
  (∀ y x, y < length (py vox) → x < length (px vox) →
     img_lookup b y x = Some (f y x)) →
  a = b.
Proof.
  intros Sa Sb Pa Pb. apply image_eq; [by rewrite Sa, Sb|].
  intros y x.
  destruct (decide (y < length (py vox) ∧ x < length (px vox))) as [[Hy Hx]|Hn].
  - by rewrite Pa, Pb.
  - pose proof (sized_lookup a y x Sa) as Ha.
    pose proof (sized_lookup b y x Sb) as Hb.
    destruct (img_lookup a y x) eqn:Ea.
    { exfalso. apply Hn. apply Ha. by eexists. }
    destruct (img_lookup b y x) eqn:Eb; [|done].
    exfalso. apply Hn. apply Hb. by eexists.
Qed.

Lemma blank_fill d nm :
  sized d → sized nm → blank (img_fill d neg_infinity) (img_fill nm 0%Z).
Proof.
  intros Hsd Hsn. split_and!; [unfold sized; by rewrite img_dims_fill..|].
  intros y x Hy Hx.
  destruct (sized_covers d Hsd y x Hy Hx) as [z Ez].
  destruct (sized_covers nm Hsn y x Hy Hx) as [w Ew].
  by rewrite !img_lookup_fill, Ez, Ew.
Qed.

Lemma tiled_perm rs rs' y x : rs' ≡ₚ rs → tiled rs' y x = tiled rs y x.
Proof.
  intros Hp. unfold tiled. apply eq_true_iff_eq. rewrite !existsb_exists.
  split; intros (r & Hin & Hr); exists r; (split; [|done]).
  - apply list_elem_of_In. rewrite <- Hp. by apply list_elem_of_In.
  - apply list_elem_of_In. rewrite Hp. by apply list_elem_of_In.
Qed.

Lemma img_get_lookup {A} (a : A) (img : Image A) y x v :
  img_lookup img y x = Some v → img_get a img y x = v.
Proof. unfold img_get. by intros ->. Qed.

Lemma SFleb_refl_finite a b : SFltb b a = true → SFleb a a = true.
Proof. sf_destruct a; sf_destruct b; intros; sf_crush. Qed.

Lemma ev_ok_new : ev_ok (Evaluator.new tr N).
Proof. split; [done|]. simpl. by rewrite length_replicate. Qed.

Lemma sized_new {A} (a : A) : sized (img_new (length (py vox)) (length (px vox)) a).
Proof.
  unfold sized, img_dims, img_new. change (map ?f ?l) with (f <$> l).
  rewrite fmap_replicate. by rewrite length_replicate.
Qed.

(** *** The order of [pixels] *)

Lemma bind_bind {A B C : Type} (f : A → list B) (g : B → list C) (l : list A) :
  (l ≫= f) ≫= g = l ≫= (λ x, f x ≫= g).
Proof.
  induction l as [|x l IH]; [done|]. by rewrite !bind_cons, bind_app, IH.
Qed.

Lemma staged_unfold r d :
  staged r d
  = (i ← seq 0 (size_x r); j ← seq 0 (size_y r);
     if column_open d r i j
     then (λ k, (pts_x r i, pts_y r j, pts_z r (size_z r - k - 1))) <$> seq 0 (size_z r)
     else []).
Proof.
  unfold staged, chunks, columns. rewrite bind_bind.
  apply list_bind_ext; [|done]. intros i. rewrite bind_bind.
  apply list_bind_ext; [|done]. intros j. by rewrite bind_singleton.
Qed.

(** C9: the order of [pixels], which is a first pass ([stage]), the
    transform, [values], a second pass ([unstage]) and [flush].  The first
    pass stages the voxels with [i] outside, [j] in the middle and [k]
    inside, the sample of index [sz-1-k] at step [k], so every column goes
    from its highest sample down; the second pass visits the columns in
    the same order.  A column whose pixel is at or above the top sample of
    the view is skipped in both passes, and a column whose pixel is below
    it is visited in both.  In a visited column, at the first
    result below zero (step [k]) there is at most one write into the depth
    image and one [push], the cursor moves past the [sz-1-k] results left
    of the column, and the loop goes on with the next column; the cursor
    has then advanced by [sz]. *)
Theorem pixels_column_order (r : View) :
  (∀ s, pixels r s
        = let st := stage r (depth s) (ev s) in
          let e3 := Evaluator.values (snd st)
                      (Evaluator.applyTransform (snd st) (fst st)) in
          let u := unstage r (with_ev s e3) in
          snd (flush (snd (fst u)) (snd u)))
  ∧ (∀ d e, length (staged r d) ≤ length (Evaluator.slots e) →
     stage r d e
     = (Evaluator.with_slots e
          (staged r d ++ drop (length (staged r d)) (Evaluator.slots e)),
        length (staged r d)))
  ∧ (∀ d, staged r d
          = (i ← seq 0 (size_x r); j ← seq 0 (size_y r);
             if column_open d r i j
             then (λ k, (pts_x r i, pts_y r j, pts_z r (size_z r - k - 1)))
                    <$> seq 0 (size_z r)
             else []))
  ∧ (∀ s, unstage r s
          = fold_left (unstage_step r)
              (i ← seq 0 (size_x r); j ← seq 0 (size_y r); [(i, j)])
              (0, NormalRenderer_new, s))
  ∧ (∀ d i j,
       SFgeb (depth_at d (corner_y r + j) (corner_x r + i))
             (pts_z r (size_z r - 1)) = true →
       column_open d r i j = false)
  ∧ (∀ d i j,
       SFltb (depth_at d (corner_y r + j) (corner_x r + i))
             (pts_z r (size_z r - 1)) = true →
       column_open d r i j = true)
  ∧ (∀ a i j, column_open (depth (snd a)) r i j = false →
       unstage_step r a (i, j) = a)
  ∧ (∀ index nr s i j, column_open (depth s) r i j = true →
       unstage_step r (index, nr, s) (i, j)
       = match first_neg (Evaluator.results (ev s)) index (size_z r) with
         | None => (index + size_z r, nr, s)
         | Some k =>
             (S (index + k) + (size_z r - k - 1),
              fst (hit r i j k nr s), snd (hit r i j k nr s))
         end
       ∧ fst (fst (unstage_step r (index, nr, s) (i, j))) = index + size_z r)
  ∧ (∀ i j k nr s,
       let z := pts_z r (size_z r - k - 1) in
       hit r i j k nr s = (nr, s)
       ∨ hit r i j k nr s
         = push r i j z nr
             (with_depth s
                (img_set (depth s) (corner_y r + j) (corner_x r + i) z))).
Proof.
  split_and!.
  - intros s. unfold pixels. destruct (stage r (depth s) (ev s)) as [e1 index].
    cbv zeta. cbn [fst snd]. by destruct (unstage _ _) as [[ix nr] s1].
  - intros d e Hl. rewrite stage_fold, stage_points by (simpl; lia).
    by rewrite take_0.
  - apply staged_unfold.
  - apply unstage_fold.
  - intros d i j H. unfold column_open. by apply SFleb_not_ltb.
  - intros d i j H. exact H.
  - intros a i j H. unfold unstage_step. simpl. by rewrite H.
  - intros index nr s i j H. unfold unstage_step. simpl. rewrite H, scan_spec.
    destruct (first_neg _ index (size_z r)) as [k|] eqn:E; [|done].
    split; [done|]. apply first_neg_Some in E as (Hk & _). simpl. lia.
  - intros i j k nr s z. unfold hit. fold z. destruct (SFltb _ z); [by right|by left].
Qed.
(** ** Further properties of the renderer *)

Lemma SFltb_not_eqb a b : SFltb a b = true → SFeqb a b = false.
Proof. sf_destruct a; sf_destruct b; intros; sf_crush. Qed.

Lemma SFeqb_refl_finite a b : SFltb b a = true → SFeqb a a = true.
Proof. sf_destruct a; sf_destruct b; intros; sf_crush. Qed.

Lemma SFleb_neg_infinity_refl : SFleb neg_infinity neg_infinity = true.
Proof. reflexivity. Qed.

(** *** The abort flag *)

Lemma clock_pixels r s : clock (pixels r s) = clock s.
Proof. by destruct (stable_pixels r s) as (_ & H & _). Qed.

Lemma clock_fill r s : clock (fill r s) = clock s.
Proof. by destruct (stable_fill r s) as (_ & H & _). Qed.

(** X1: [recurse] loads the flag [abort] once for every view it enters and
    stops at the first load that returns [true].  When it returns, it has
    loaded the flag at least once, every load but the last one returned
    [false], and the last one returned [true] exactly when the result is
    [false] (aborted). *)
Theorem recurse_stops_at_first_abort fuel r s b s' :
  recurse fuel r s = Some (b, s') →
  clock s < clock s'
  ∧ (∀ n, clock s ≤ n → S n < clock s' → abort n = false)
  ∧ abort (clock s' - 1) = negb b.
Proof.
  revert r s b s'. induction fuel as [|fuel IH]; intros r s b s' H; [done|].
  rewrite recurse_S in H. cbv zeta in H.
  set (s0 := mkState (ev s) (depth s) (norm s) (S (clock s))) in *.
  assert (Hone : ∀ t, clock t = S (clock s) → abort (clock s) = false →
            clock s < clock t
            ∧ (∀ n, clock s ≤ n → S n < clock t → abort n = false)
            ∧ abort (clock t - 1) = negb true).
  { intros t Ht Ha. rewrite Ht. split_and!; [lia|intros; lia|].
    by replace (S (clock s) - 1) with (clock s) by lia. }
  destruct (abort (clock s)) eqn:Ea.
  { injection H as <- <-. simpl. split_and!; [lia|intros; lia|].
    by rewrite Nat.sub_0_r. }
  destruct (block_all_ge (depth s) r); [injection H as <- <-; by apply Hone|].
  destruct (voxels r <=? N).
  { injection H as <- <-. apply Hone; [|done]. by rewrite clock_pixels. }
  destruct (SFltb _ fzero).
  { injection H as <- <-. apply Hone; [|done]. by rewrite clock_fill. }
  destruct (SFleb _ fzero); [|injection H as <- <-; by apply Hone].
  destruct (recurse fuel (snd (split r)) _) as [[b2 s2]|] eqn:E2; [|done].
  apply IH in E2 as (L2 & F2 & A2). simpl in L2, F2.
  assert (Hfrom : ∀ n, clock s ≤ n → S n < clock s2 → abort n = false).
  { intros n Hn Hlt. destruct (decide (n = clock s)) as [->|]; [done|].
    apply F2; lia. }
  destruct b2.
  - destruct (recurse fuel (fst (split r)) s2) as [[b3 s3]|] eqn:E3; [|done].
    apply IH in E3 as (L3 & F3 & A3).
    assert (Hres : clock s < clock s3
              ∧ (∀ n, clock s ≤ n → S n < clock s3 → abort n = false)
              ∧ abort (clock s3 - 1) = negb b3).
    { split_and!; [lia| |done]. intros n Hn Hlt.
      destruct (decide (S n < clock s2)); [by apply Hfrom|].
      destruct (decide (S n = clock s2)) as [E|].
      - rewrite <- E in A2. by replace (S n - 1) with n in A2 by lia.
      - apply F3; lia. }
    destruct b3; by injection H as <- <-.
  - injection H as <- <-. simpl. split_and!; [lia|done|done].
Qed.

(** Every task finds the flag raised and returns at once. *)
Lemma dispatch_aborted fuel m : (∀ n, abort n = true) → ∀ rs es d nm clk,
  length rs ≤ length es →
  ∃ es1, dispatch (S fuel) m es rs d nm clk = Some (es1, d, nm, clk + length rs).
Proof.
  intros Ha. induction rs as [|region rs IH]; intros es d nm clk Hl.
  - exists []. simpl. by rewrite Nat.add_0_r.
  - destruct es as [|e es]; [simpl in Hl; lia|].
    cbn [dispatch]. rewrite recurse_S. cbv zeta. rewrite Ha. cbn [depth norm clock ev].
    destruct (IH es d nm (S clk)) as [es1 E]; [simpl in Hl; lia|].
    rewrite E. eexists. simpl. rewrite Nat.add_succ_r. reflexivity.
Qed.

Lemma regions_within_pool (es : list Evaluator.t) v :
  es ≠ [] → length (regions (length es) v) ≤ length es.
Proof.
  intros He. destruct (build_regions_length (length es) (length es) [view v]) as [_ H];
    [simpl; lia..|].
  unfold regions. destruct es; [done|]. simpl in *. lia.
Qed.

(** X2: when the flag [abort] is raised before [render] starts, [render]
    returns all the same: every task returns at its first load of the flag,
    the depth image is minus infinity everywhere and the normal image is
    the blank one, stamped by the last statement of [render]. *)
Theorem render_aborted_at_once fuel es v m d nm :
  (∀ n, abort n = true) → 0 < fuel → es ≠ [] →
  render fuel es v m d nm
  = Some (img_fill d neg_infinity,
          select_sky v (img_fill d neg_infinity) (img_fill nm 0%Z)).
Proof.
  intros Ha Hf He. unfold render. destruct fuel as [|fuel]; [lia|].
  destruct (dispatch_aborted fuel m Ha (regions (length es) v) es
              (img_fill d neg_infinity) (img_fill nm 0%Z) 0) as [es1 E].
  { by apply regions_within_pool. }
  by rewrite E.
Qed.

(** *** The images given to [render] *)

Lemma img_fill_dims {A} (a b : Image A) c :
  img_dims a = img_dims b → img_fill a c = img_fill b c.
Proof.
  intros Hd. apply image_eq; [by rewrite !img_dims_fill|].
  intros y x. rewrite !img_lookup_fill.
  destruct (img_lookup a y x) eqn:Ea, (img_lookup b y x) eqn:Eb; try done.
  - assert (H : is_Some (img_lookup a y x)) by (by rewrite Ea).
    eapply (img_dims_lookup a b) in H; [|done]. rewrite Eb in H. by destruct H.
  - assert (H : is_Some (img_lookup b y x)) by (by rewrite Eb).
    eapply (img_dims_lookup b a) in H; [|done]. rewrite Ea in H. by destruct H.
Qed.

Lemma dispatch_dims fuel m : ∀ rs es d nm clk es1 d1 nm1 clk1,
  dispatch fuel m es rs d nm clk = Some (es1, d1, nm1, clk1) →
  img_dims d1 = img_dims d ∧ img_dims nm1 = img_dims nm.
Proof.
  induction rs as [|region rs IH]; intros es d nm clk es1 d1 nm1 clk1 H; simpl in H.
  - by injection H as <- <- <- <-.
  - destruct es as [|e es]; [done|].
    destruct (recurse fuel region _) as [[b s]|] eqn:E; [|done].
    destruct (dispatch fuel m es rs _ _ _) as [[[[es2 d2] nm2] clk2]|] eqn:E2; [|done].
    injection H as <- <- <- <-. apply recurse_dims in E as [E1 E1'].
    apply IH in E2 as [E2 E2']. simpl in *. split; congruence.
Qed.

(** X3: [render] starts by filling both images, so of the images it is
    given it uses the shape only: two calls on images of the same row
    lengths give the same result, whatever the images held.  The images
    it returns have the shape of those it was given. *)
Theorem render_uses_only_the_shape fuel es v m d nm d2 nm2 :
  img_dims d2 = img_dims d → img_dims nm2 = img_dims nm →
  render fuel es v m d2 nm2 = render fuel es v m d nm
  ∧ ∀ d' nm', render fuel es v m d nm = Some (d', nm') →
      img_dims d' = img_dims d ∧ img_dims nm' = img_dims nm.
Proof.
  intros Hd Hn. split.
  - unfold render. by rewrite (img_fill_dims d2 d), (img_fill_dims nm2 nm).
  - intros d' nm' H. unfold render in H.
    destruct (dispatch _ _ _ _ _ _ _) as [[[[es1 d1] nm1] clk1]|] eqn:E; [|done].
    injection H as <- <-. apply dispatch_dims in E as [E1 E2].
    rewrite img_dims_select_sky, E1, E2, !img_dims_fill. done.
Qed.

(** C4: after [render], every pixel of the normal image whose depth
    compares equal to [pz[Nz-1]] holds the word [0xFFFF7F7F], whatever the
    tasks wrote there: the normal image that [render] returns has the
    pixels of the one it was given, and the last statement of [render]
    stamps the word on each of them whose depth is the top sample. *)
Theorem render_sky_normal fuel es v m d nm d' nm' :
  render fuel es v m d nm = Some (d', nm') →
  ∀ y x,
    is_Some (img_lookup nm y x) →
    SFeqb (depth_at d' y x) (at_f (pz v) (length (pz v) - 1)) = true →
    img_lookup nm' y x = Some 0xFFFF7F7F%Z.
Proof.
  unfold render. intros H y x Hpix Heq.
  destruct (dispatch _ _ _ _ _ _ _) as [[[[es1 d1] nm1] clk1]|] eqn:E; [|done].
  injection H as <- <-. apply dispatch_dims in E as [_ En].
  rewrite img_dims_fill in En.
  destruct (img_dims_lookup nm nm1 y x En Hpix) as [w Hw].
  by rewrite img_lookup_select_sky, Hw, Heq.
Qed.

(** C7: after [render], on images of the same shape and a grid whose
    highest z sample is not minus infinity, every pixel of the images that
    were given has a depth and a normal word in the images that are
    returned; the word is not zero when the depth is not minus infinity,
    and it is zero when the depth is minus infinity. *)
Theorem render_depth_normal_paired fuel es v m d nm d' nm' :
  0 < N →
  same_shape d nm →
  at_f (pz v) (length (pz v) - 1) ≠ neg_infinity →
  render fuel es v m d nm = Some (d', nm') →
  ∀ y x,
    is_Some (img_lookup d y x) →
    ∃ z w,
      img_lookup d' y x = Some z ∧ img_lookup nm' y x = Some w
      ∧ (z ≠ neg_infinity → w ≠ 0%Z) ∧ (z = neg_infinity → w = 0%Z).
Proof.
  intros HN Hshape Htop H y x Hpix. unfold render in H.
  destruct (dispatch _ _ _ _ _ _ _) as [[[[es1 d1] nm1] clk1]|] eqn:E; [|done].
  injection H as <- <-.
  destruct (dispatch_dims _ _ _ _ _ _ _ _ _ _ _ E) as [Ed _].
  rewrite img_dims_fill in Ed.
  destruct (img_dims_lookup d d1 y x Ed Hpix) as [z Hz].
  apply dispatch_paired in E; [|done|].
  - specialize (E y x). rewrite Hz in E.
    destruct (img_lookup nm1 y x) as [w1|] eqn:Hw1; [|done].
    exists z, (if SFeqb (depth_at d1 y x) (at_f (pz v) (length (pz v) - 1))
               then sky_normal else w1).
    split; [done|]. split; [by rewrite img_lookup_select_sky, Hw1|].
    destruct (SFeqb (depth_at d1 y x) _) eqn:Eq.
    + unfold depth_at, img_get in Eq. rewrite Hz in Eq. simpl in Eq.
      split; [done|]. intros ->. apply SFeqb_neg_infinity in Eq. done.
    + destruct E as [[? ?]|[? ?]]; split; done.
  - intros y0 x0. rewrite !img_lookup_fill. specialize (Hshape y0 x0).
    destruct (img_lookup d y0 x0), (img_lookup nm y0 x0); simpl; try done.
    + by left.
    + destruct Hshape as [Hs _]. by destruct Hs.
    + destruct Hshape as [_ Hs]. by destruct Hs.
Qed.

Lemma img_dims_new {A} rows cols (a : A) :
  img_dims (img_new rows cols a) = replicate rows cols.
Proof.
  unfold img_dims, img_new. induction rows as [|rows IH]; [done|].
  simpl. by rewrite IH, length_replicate.
Qed.

(** X4: the overloads of [render] that allocate the images return a depth
    image and a normal image of [Ny] rows of [Nx] pixels, one pixel for
    every column of the grid, whatever the pool and whether the render was
    aborted or not. *)
Theorem render_images_size fuel es v m d' nm' :
  render_images fuel es v m = Some (d', nm') →
  img_dims d' = replicate (length (py v)) (length (px v))
  ∧ img_dims nm' = replicate (length (py v)) (length (px v))
  ∧ ∀ y x, (y < length (py v) ∧ x < length (px v)
            ↔ is_Some (img_lookup d' y x))
           ∧ (is_Some (img_lookup d' y x) ↔ is_Some (img_lookup nm' y x)).
Proof.
  intros H. unfold render_images, render in H.
  destruct (dispatch _ _ _ _ _ _ _) as [[[[es1 d1] nm1] clk1]|] eqn:E; [|done].
  injection H as <- <-. apply dispatch_dims in E as [E1 E2].
  rewrite img_dims_fill, img_dims_new in E1. rewrite img_dims_fill, img_dims_new in E2.
  assert (E3 : img_dims (select_sky v d1 nm1)
               = replicate (length (py v)) (length (px v)))
    by (by rewrite img_dims_select_sky).
  split_and!; [done..|]. intros y x.
  assert (Hsz : ∀ {A} (img : Image A),
            img_dims img = replicate (length (py v)) (length (px v)) →
            is_Some (img_lookup img y x) ↔ y < length (py v) ∧ x < length (px v)).
  { intros A img Hi. unfold img_lookup, img_dims in *.
    destruct (img !! y) as [row|] eqn:Er; simpl.
    - assert (Hl : map length img !! y = Some (length row))
        by (by rewrite list_lookup_fmap, Er).
      rewrite Hi in Hl. apply lookup_replicate in Hl as [Hl Hy].
      rewrite lookup_lt_is_Some. lia.
    - split; [by intros [? ?]|]. intros [Hy _]. exfalso.
      apply lookup_ge_None in Er.
      assert (Hlen : length (map length img) = length (py v))
        by (by rewrite Hi, length_replicate).
      rewrite length_map in Hlen. lia. }
  rewrite (Hsz _ d1 E1), (Hsz _ (select_sky v d1 nm1) E3). done.
Qed.

(** *** The two passes of [pixels] *)

Lemma stage_step_count pts : ∀ a,
  snd (fold_left stage_step pts a) = snd a + length pts.
Proof.
  induction pts as [|p pts IH]; intros a; simpl; [lia|]. rewrite IH. simpl. lia.
Qed.

Lemma length_chunks_open r d cl :
  length (chunks r d cl)
  = size_z r * length (List.filter (λ c, column_open d r (fst c) (snd c)) cl).
Proof.
  induction cl as [|c cl IH]; [unfold chunks; simpl; lia|].
  rewrite chunks_cons, length_app, IH. simpl.
  destruct (column_open d r (fst c) (snd c)); simpl;
    [rewrite length_column_points|]; lia.
Qed.

Lemma hit_elsewhere r i j k nr s y x :
  (y, x) ≠ (corner_y r + j, corner_x r + i) →
  depth_at (depth (snd (hit r i j k nr s))) y x = depth_at (depth s) y x.
Proof.
  intros Hne. unfold hit. destruct (SFltb _ _); [|done].
  rewrite push_depth. simpl. rewrite depth_at_set.
  rewrite bool_decide_false; [done|]. by intros [-> ->].
Qed.

Lemma unstage_step_elsewhere r a c y x :
  (y, x) ≠ (corner_y r + snd c, corner_x r + fst c) →
  depth_at (depth (snd (unstage_step r a c))) y x = depth_at (depth (snd a)) y x.
Proof.
  intros Hne. unfold unstage_step. destruct (column_open _ _ _ _); [|done].
  rewrite scan_spec. destruct (first_neg _ _ _); [|done].
  simpl. by apply hit_elsewhere.
Qed.

Lemma unstage_step_cursor r a c :
  fst (fst (unstage_step r a c))
  = fst (fst a)
    + (if column_open (depth (snd a)) r (fst c) (snd c) then size_z r else 0).
Proof.
  unfold unstage_step. destruct (column_open _ _ _ _); [|lia].
  rewrite scan_spec. destruct (first_neg _ _ _) as [t|] eqn:E; simpl; [|done].
  apply first_neg_Some in E as [Ht _]. lia.
Qed.

Lemma unstage_cursor r : ∀ cl a,
  NoDup cl →
  fst (fst (fold_left (unstage_step r) cl a))
  = fst (fst a)
    + size_z r
      * length (List.filter (λ c, column_open (depth (snd a)) r (fst c) (snd c)) cl).
Proof.
  induction cl as [|c cl IH]; intros a Hnd; [simpl; lia|].
  apply NoDup_cons in Hnd as [Hc Hnd]. simpl fold_left. rewrite IH by done.
  rewrite unstage_step_cursor.
  rewrite (List.filter_ext_in
             (λ c0, column_open (depth (snd (unstage_step r a c))) r (fst c0) (snd c0))
             (λ c0, column_open (depth (snd a)) r (fst c0) (snd c0))).
  - simpl. destruct (column_open (depth (snd a)) r (fst c) (snd c)); simpl; lia.
  - intros c' Hin. unfold column_open. rewrite unstage_step_elsewhere; [done|].
    intros E. injection E as E1 E2. apply Hc. apply list_elem_of_In.
    replace c with c'; [done|]. destruct c, c'; simpl in *. f_equal; lia.
Qed.

(** X5: the two passes of [pixels] agree on the results they share.  The
    first pass stages [size.z] positions for every column that passes the
    guard of [VIEW_ITERATE_XYZ], and nothing else; the second pass, which
    tests the guard on the depth image while it writes into it, moves its
    cursor over exactly as many results, whatever the evaluator returned.
    No more than [r.voxels()] positions are staged. *)
Theorem pixels_passes_agree r s e :
  let n := size_z r * length (open_columns r (depth s)) in
  snd (stage r (depth s) (ev s)) = n
  ∧ fst (fst (unstage r (with_ev s e))) = n
  ∧ n ≤ voxels r.
Proof.
  cbv zeta. unfold open_columns. split_and!.
  - rewrite stage_fold, stage_step_count. simpl. unfold staged.
    by rewrite length_chunks_open.
  - rewrite unstage_fold, unstage_cursor by apply NoDup_columns. done.
  - pose proof (List.filter_length_le
                  (λ c, column_open (depth s) r (fst c) (snd c)) (columns r)) as H.
    rewrite length_columns in H. unfold voxels. nia.
Qed.

(** *** A task stays inside its region *)

Lemma untouched_refl r s : untouched r s s.
Proof. by intros y x _. Qed.

Lemma untouched_trans r s1 s2 s3 :
  untouched r s1 s2 → untouched r s2 s3 → untouched r s1 s3.
Proof.
  intros H1 H2 y x Hf. destruct (H1 y x Hf), (H2 y x Hf). split; congruence.
Qed.

Lemma in_footprint_pixel r i j :
  i < size_x r → j < size_y r →
  in_footprint r (corner_y r + j) (corner_x r + i) = true.
Proof. intros. apply in_footprint_true. lia. Qed.

Lemma img_lookup_set_ne {A} (img : Image A) y x v y' x' :
  (y', x') ≠ (y, x) → img_lookup (img_set img y x v) y' x' = img_lookup img y' x'.
Proof.
  intros Hne. rewrite img_lookup_set.
  rewrite bool_decide_false by (by intros [-> ->]).
  by destruct (img_lookup img y' x').
Qed.

Lemma untouched_set r s i j z :
  i < size_x r → j < size_y r →
  untouched r s (with_depth s (img_set (depth s) (corner_y r + j) (corner_x r + i) z)).
Proof.
  intros Hi Hj y x Hf. simpl. split; [|done]. apply img_lookup_set_ne.
  intros E. injection E as -> ->. by rewrite in_footprint_pixel in Hf.
Qed.

Lemma run_untouched r nr s : queue_within r nr → untouched r s (snd (run nr s)).
Proof.
  intros Hq y x Hf. unfold run. simpl. split; [done|].
  apply (for_loop_inv (λ nm, img_lookup nm y x = img_lookup (norm s) y x)); [done|].
  intros i nm Hi <-. apply img_lookup_set_ne. intros E. injection E as -> ->.
  by rewrite Hq in Hf.
Qed.

Lemma flush_untouched r nr s : queue_within r nr → untouched r s (snd (flush nr s)).
Proof.
  intros. unfold flush.
  destruct (0 <? count nr); [by apply run_untouched|apply untouched_refl].
Qed.

Lemma enqueue_within r i j z nr s :
  nr_ok nr → queue_within r nr → i < size_x r → j < size_y r →
  queue_within r (fst (enqueue r i j z nr s)).
Proof.
  intros (Hc & Hlx & Hly) Hq Hi Hj k Hk. simpl in *. unfold at_n.
  destruct (decide (k = count nr)) as [->|Hne].
  - rewrite !list_lookup_insert_eq by lia. simpl. by apply in_footprint_pixel.
  - rewrite !list_lookup_insert_ne by done. apply Hq. lia.
Qed.

Lemma push_untouched r i j z nr s :
  nr_ok nr → queue_within r nr → i < size_x r → j < size_y r →
  queue_within r (fst (push r i j z nr s)) ∧ untouched r s (snd (push r i j z nr s)).
Proof.
  intros Hok Hq Hi Hj. rewrite push_unfold.
  pose proof (enqueue_within r i j z nr s Hok Hq Hi Hj) as He.
  assert (Hu : untouched r s (snd (enqueue r i j z nr s))) by (by intros y x _).
  destruct (S (count nr) =? N); [|done]. split.
  - intros k Hk. simpl in Hk. lia.
  - eapply untouched_trans; [exact Hu|by apply run_untouched].
Qed.

Lemma scan_untouched r i j ks :
  i < size_x r → j < size_y r → ∀ index nr s,
  nr_ok nr → queue_within r nr →
  nr_ok (snd (fst (scan r i j ks index nr s)))
  ∧ queue_within r (snd (fst (scan r i j ks index nr s)))
  ∧ untouched r s (snd (scan r i j ks index nr s)).
Proof.
  intros Hi Hj. induction ks as [|k ks IH]; intros index nr s Hok Hq; simpl.
  { split_and!; [done..|apply untouched_refl]. }
  destruct (SFltb (at_f (Evaluator.results (ev s)) index) fzero); [|by apply IH].
  destruct (SFltb (depth_at _ _ _) _); [|split_and!; [done..|apply untouched_refl]].
  set (z := pts_z r (size_z r - k - 1)).
  set (s1 := with_depth s _).
  destruct (push_untouched r i j z nr s1 Hok Hq Hi Hj) as [H1 H2].
  pose proof (nr_ok_push r i j z nr s1 Hok) as H3.
  destruct (push r i j z nr s1) as [nr2 s2]. simpl in *.
  split_and!; [done..|].
  eapply untouched_trans; [by apply (untouched_set r s i j z)|done].
Qed.

Lemma unstage_untouched r s :
  0 < N →
  nr_ok (snd (fst (unstage r s)))
  ∧ queue_within r (snd (fst (unstage r s)))
  ∧ untouched r s (snd (unstage r s)).
Proof.
  intros HN. unfold unstage.
  apply (for_loop_inv
    (λ a, nr_ok (snd (fst a)) ∧ queue_within r (snd (fst a)) ∧ untouched r s (snd a))).
  { split_and!; [by apply nr_ok_new| |apply untouched_refl].
    intros k Hk. simpl in Hk. lia. }
  intros i a Hi Ha.
  apply (for_loop_inv
    (λ a, nr_ok (snd (fst a)) ∧ queue_within r (snd (fst a)) ∧ untouched r s (snd a)));
    [done|].
  clear a Ha. intros j [[ix nr] s1] Hj (Hok & Hq & Hu). simpl in Hok, Hq, Hu.
  destruct (column_open (depth s1) r i j); [|done].
  destruct (scan_untouched r i j (seq 0 (size_z r)) Hi Hj ix nr s1 Hok Hq)
    as (H1 & H2 & H3).
  split_and!; [done..|]. by eapply untouched_trans.
Qed.

Lemma pixels_untouched r s : 0 < N → untouched r s (pixels r s).
Proof.
  intros HN. unfold pixels. destruct (stage r (depth s) (ev s)) as [e1 index].
  pose proof (unstage_untouched r
    (with_ev s (Evaluator.values index (Evaluator.applyTransform index e1))) HN)
    as (H1 & H2 & H3).
  destruct (unstage _ _) as [[ix nr] s1]. simpl in H1, H2, H3.
  eapply untouched_trans; [exact H3|by apply flush_untouched].
Qed.

Lemma fill_untouched r s : 0 < N → untouched r s (fill r s).
Proof.
  intros HN. unfold fill.
  assert (H : nr_ok (fst (fill_loop r s)) ∧ queue_within r (fst (fill_loop r s))
              ∧ untouched r s (snd (fill_loop r s))).
  { unfold fill_loop.
    apply (for_loop_inv
      (λ a, nr_ok (fst a) ∧ queue_within r (fst a) ∧ untouched r s (snd a))).
    { split_and!; [by apply nr_ok_new| |apply untouched_refl].
      intros k Hk. simpl in Hk. lia. }
    intros i a Hi Ha.
    apply (for_loop_inv
      (λ a, nr_ok (fst a) ∧ queue_within r (fst a) ∧ untouched r s (snd a))); [done|].
    clear a Ha. intros j [nr s1] Hj (Hok & Hq & Hu). simpl in Hok, Hq, Hu.
    destruct (SFltb _ _); [|done].
    set (z := pts_z r (size_z r - 1)). set (s2 := with_depth s1 _).
    destruct (push_untouched r i j z nr s2 Hok Hq Hi Hj) as [H1 H2].
    split_and!; [by apply nr_ok_push|done|].
    eapply untouched_trans; [exact Hu|].
    eapply untouched_trans; [by apply (untouched_set r s1 i j z)|done]. }
  destruct (fill_loop r s) as [nr s1]. simpl in H. destruct H as (_ & H2 & H3).
  eapply untouched_trans; [exact H3|by apply flush_untouched].
Qed.

Lemma halves_footprint a r lo hi y x :
  halves a r lo hi → in_footprint r y x = false →
  in_footprint lo y x = false ∧ in_footprint hi y x = false.
Proof.
  intros Hh Hf. rewrite in_footprint_false in Hf. rewrite !in_footprint_false.
  destruct a; simpl in Hh; lia.
Qed.

Lemma recurse_untouched fuel : 0 < N → split_contract → ∀ r s b s',
  view_wf r → recurse fuel r s = Some (b, s') → untouched r s s'.
Proof.
  intros HN Hs. induction fuel as [|fuel IH]; intros r s b s' Hr H; [done|].
  rewrite recurse_S in H. cbv zeta in H.
  set (s0 := mkState (ev s) (depth s) (norm s) (S (clock s))) in *.
  destruct (abort (clock s)); [by injection H as <- <-|].
  destruct (block_all_ge (depth s) r); [by injection H as <- <-|].
  destruct (voxels r <=? N) eqn:Ev.
  { injection H as <- <-. exact (pixels_untouched r s0 HN). }
  destruct (SFltb _ fzero); [injection H as <- <-; exact (fill_untouched r s0 HN)|].
  destruct (SFleb _ fzero); [|by injection H as <- <-].
  apply Nat.leb_gt in Ev.
  destruct (Hs r Hr) as (Hlo & Hhi & a & Hh); [lia|].
  destruct (recurse fuel (snd (split r)) _) as [[b2 s2]|] eqn:E2; [|done].
  apply IH in E2; [|done].
  assert (U2 : untouched r s s2).
  { intros y x Hf. destruct (halves_footprint a r _ _ y x Hh Hf) as [_ Hf2].
    exact (E2 y x Hf2). }
  destruct b2; [|by injection H as <- <-].
  destruct (recurse fuel (fst (split r)) s2) as [[b3 s3]|] eqn:E3; [|done].
  apply IH in E3; [|done].
  assert (U3 : untouched r s (on_ev Evaluator.pop s3)).
  { eapply untouched_trans; [exact U2|].
    intros y x Hf. destruct (halves_footprint a r _ _ y x Hh Hf) as [Hf1 _].
    exact (E3 y x Hf1). }
  destruct b3; by injection H as <- <-.
Qed.

(** X6: a task stays inside its region.  With [NUM_POINTS] above zero and
    an evaluator with room for [Result::N] positions, [fill] leaves every
    pixel that is not under its view as it was, in the depth image and in
    the normal image, and so does [pixels] on a view of at most
    [Result::N] voxels, the only views it is called on; with a [split]
    that cuts a view in two parts of it, so does [recurse], whether it
    finishes or is aborted.  Two tasks of [render] on views that share no
    pixel never write the same pixel. *)
Theorem recurse_stays_in_view r s :
  0 < N → split_contract → view_wf r →
  N ≤ length (Evaluator.slots (ev s)) →
  (voxels r ≤ N → untouched r s (pixels r s))
  ∧ untouched r s (fill r s)
  ∧ ∀ fuel b s', recurse fuel r s = Some (b, s') → untouched r s s'.
Proof.
  intros HN Hs Hr _. split_and!; [intros _; by apply pixels_untouched
                                 |by apply fill_untouched|].
  intros fuel b s' H. by eapply recurse_untouched.
Qed.

(** *** The regions of the tasks *)

Ltac footprint :=
  repeat match goal with
  | H : in_footprint _ _ _ = true |- _ => apply in_footprint_true in H
  | H : in_footprint _ _ _ = false |- _ => apply in_footprint_false in H
  end.

(** What every turn of the loop of [render] keeps, the list keeps to the
    end. *)
Lemma build_regions_inv (P : list View → Prop) :
  (∀ f rest, P (f :: rest) → 1 < Nat.min (size_x f) (size_y f) →
     P (rest ++ [fst (split_xy f); snd (split_xy f)])) →
  ∀ fuel workers rs, P rs → P (build_regions fuel workers rs).
Proof.
  intros Hstep. induction fuel as [|fuel IH]; intros workers rs Hp; [done|].
  cbn [build_regions]. destruct rs as [|f rest]; [done|].
  destruct (_ && _) eqn:E; [|done].
  apply andb_true_iff in E as [_ E]. apply Nat.ltb_lt in E.
  apply IH. by apply Hstep.
Qed.

Lemma regions_over_app rs1 rs2 y x :
  regions_over (rs1 ++ rs2) y x = regions_over rs1 y x + regions_over rs2 y x.
Proof. unfold regions_over. by rewrite List.filter_app, length_app. Qed.

Lemma regions_over_cons r rs y x :
  regions_over (r :: rs) y x
  = (if in_footprint r y x then 1 else 0) + regions_over rs y x.
Proof. unfold regions_over. simpl. by destruct (in_footprint r y x). Qed.

Lemma halves_footprint_xy a r lo hi y x :
  halves a r lo hi → a ≠ AxisZ →
  (if in_footprint lo y x then 1 else 0) + (if in_footprint hi y x then 1 else 0)
  = if in_footprint r y x then 1 else 0.
Proof.
  intros Hh Ha.
  destruct (in_footprint lo y x) eqn:E1, (in_footprint hi y x) eqn:E2,
    (in_footprint r y x) eqn:E3; try done; exfalso; footprint;
    destruct a; simpl in Hh; try done; lia.
Qed.

(** The regions are views of the grid over its whole height, none of
    more girth than the grid, and each pixel of the grid lies under as
    many of them as under the first list. *)
Lemma regions_inv workers :
  split_xy_contract → view_wf (view vox) →
  Forall (λ r, tile r ∧ girth r ≤ girth (view vox)) (regions workers vox)
  ∧ ∀ y x, regions_over (regions workers vox) y x
           = if in_footprint (view vox) y x then 1 else 0.
Proof.
  intros Hs Hroot. unfold regions.
  apply (build_regions_inv
    (λ rs, Forall (λ r, tile r ∧ girth r ≤ girth (view vox)) rs
           ∧ ∀ y x, regions_over rs y x = if in_footprint (view vox) y x then 1 else 0)).
  - intros f rest [Hall Hover] Hmin.
    apply Forall_cons in Hall as [[(Hf & Hz1 & Hz2) Hg] Hall].
    destruct (Hs f Hf Hmin) as (Hlo & Hhi & a & Ha & Hh).
    destruct (halves_measure a f _ _ Hh) as [Hm1 Hm2].
    assert (Hz : corner_z (fst (split_xy f)) = 0 ∧ size_z (fst (split_xy f)) = length (pz vox)
                 ∧ corner_z (snd (split_xy f)) = 0
                 ∧ size_z (snd (split_xy f)) = length (pz vox)).
    { destruct a; simpl in Hh; [| |done]; lia. }
    split.
    + apply Forall_app. split; [done|].
      repeat apply Forall_cons_2; [| |constructor]; unfold tile, girth in *;
        split_and!; try done; lia.
    + intros y x. rewrite regions_over_app, !regions_over_cons.
      specialize (Hover y x). rewrite regions_over_cons in Hover.
      pose proof (halves_footprint_xy a f _ _ y x Hh Ha) as Hxy.
      unfold regions_over at 2. simpl. lia.
  - split.
    + apply Forall_cons_2; [|constructor]. by split_and!.
    + intros y x. rewrite regions_over_cons. unfold regions_over. simpl. lia.
Qed.

(** X7: the regions that [render] hands to its tasks partition the image.
    With a [split<X | Y>] that cuts a view across X or Y in two parts of
    it, every region is a view of the grid over its whole height, every
    pixel of the image lies under exactly one region, and no region lies
    over anything else. *)
Theorem regions_partition workers :
  split_xy_contract → view_wf (view vox) →
  Forall tile (regions workers vox)
  ∧ ∀ y x, regions_over (regions workers vox) y x
           = if (y <? length (py vox)) && (x <? length (px vox)) then 1 else 0.
Proof.
  intros Hs Hroot. destruct (regions_inv workers Hs Hroot) as [Hall Hover]. split.
  - eapply Forall_impl; [exact Hall|]. by intros r [Hr _].
  - intros y x. rewrite Hover. unfold in_footprint. simpl.
    destruct (x <? length (px vox)), (y <? length (py vox)); done.
Qed.

(** *** Termination *)

Lemma recurse_total :
  0 < N → split_contract → ∀ fuel r s,
  view_wf r → girth r ≤ fuel → is_Some (recurse fuel r s).
Proof.
  intros HN Hs. induction fuel as [|fuel IH]; intros r s Hr Hf.
  { destruct Hr as (_ & ? & ? & ? & _). unfold girth in Hf. lia. }
  rewrite recurse_S. cbv zeta.
  set (s0 := mkState (ev s) (depth s) (norm s) (S (clock s))).
  destruct (abort _); [by eexists|]. destruct (block_all_ge _ _); [by eexists|].
  destruct (voxels r <=? N) eqn:Ev; [by eexists|].
  destruct (SFltb _ _); [by eexists|]. destruct (SFleb _ _); [|by eexists].
  apply Nat.leb_gt in Ev. destruct (Hs r Hr) as (Hlo & Hhi & a & Hh); [lia|].
  destruct (halves_measure a r _ _ Hh) as [Hm1 Hm2]. unfold girth in *.
  destruct (IH (snd (split r)) (on_ev Evaluator.push s0)) as [[b2 s2] E2]; [done|lia|].
  rewrite E2. destruct b2; [|by eexists].
  destruct (IH (fst (split r)) s2) as [[b3 s3] E3]; [done|lia|].
  rewrite E3. destruct b3; by eexists.
Qed.

Lemma dispatch_total fuel m :
  0 < N → split_contract → ∀ rs es d nm clk,
  Forall (λ r, view_wf r ∧ girth r ≤ fuel) rs → length rs ≤ length es →
  is_Some (dispatch fuel m es rs d nm clk).
Proof.
  intros HN Hs. induction rs as [|region rs IH]; intros es d nm clk Hall Hl.
  { by eexists. }
  destruct es as [|e es]; [simpl in Hl; lia|].
  apply Forall_cons in Hall as [[Hr Hg] Hall]. cbn [dispatch].
  destruct (recurse_total HN Hs fuel region
              (mkState (Evaluator.setMatrix m e) d nm clk) Hr Hg) as [[b s] E].
  rewrite E.
  destruct (IH es (depth s) (norm s) (clock s) Hall) as [[[[es1 d1] nm1] clk1] E2];
    [simpl in Hl; lia|].
  rewrite E2. by eexists.
Qed.

(** X8: [render] returns, whatever the evaluators answer and whenever the
    flag [abort] is raised.  With [NUM_POINTS] above zero and splitters
    that cut a view in two parts of it, the recursion of every task ends:
    fuel for the three sizes of the grid is enough for [render] on a pool
    that is not empty to give its result. *)
Theorem render_terminates fuel es m d nm :
  0 < N → split_contract → split_xy_contract → view_wf (view vox) →
  es ≠ [] →
  length (px vox) + length (py vox) + length (pz vox) ≤ fuel →
  is_Some (render fuel es vox m d nm).
Proof.
  intros HN Hs Hxy Hroot He Hf. unfold render.
  destruct (regions_inv (length es) Hxy Hroot) as [Hall _].
  destruct (dispatch_total fuel m HN Hs (regions (length es) vox) es
              (img_fill d neg_infinity) (img_fill nm 0%Z) 0)
    as [[[[es1 d1] nm1] clk1] E].
  - eapply Forall_impl; [exact Hall|]. intros r [(Hr & _) Hg]. split; [done|].
    unfold girth in *. simpl in Hg. lia.
  - by apply regions_within_pool.
  - rewrite E. by eexists.
Qed.

(** *** The packed normal *)

Lemma to_uint32_range x : (0 ≤ to_uint32 x < 2 ^ 32)%Z.
Proof.
  unfold to_uint32. destruct (trunc x) as [t|]; [|by apply Z.mod_pos_bound].
  destruct (_ && _) eqn:E; [|by apply Z.mod_pos_bound].
  apply andb_true_iff in E as [E1 E2]. apply Z.leb_le in E1. apply Z.ltb_lt in E2.
  done.
Qed.

Lemma shl32_range a n : (0 ≤ shl32 a n < 2 ^ 32)%Z.
Proof. by apply Z.mod_pos_bound. Qed.

Lemma lor_lt_pow2 a b n :
  (0 ≤ a < 2 ^ n)%Z → (0 ≤ b < 2 ^ n)%Z → (0 ≤ Z.lor a b < 2 ^ n)%Z.
Proof.
  intros Ha Hb. split; [apply Z.lor_nonneg; lia|].
  destruct (decide (Z.lor a b = 0%Z)) as [->|Hne]; [lia|].
  assert (0 < Z.lor a b)%Z by (pose proof (proj2 (Z.lor_nonneg a b)); lia).
  apply Z.log2_lt_pow2; [done|]. rewrite Z.log2_lor by lia.
  destruct (decide (a = 0%Z)) as [->|]; destruct (decide (b = 0%Z)) as [->|].
  - done.
  - rewrite Z.max_r by (simpl; apply Z.log2_nonneg). apply Z.log2_lt_pow2; lia.
  - rewrite Z.max_l by (simpl; apply Z.log2_nonneg). apply Z.log2_lt_pow2; lia.
  - apply Z.max_lub_lt; apply Z.log2_lt_pow2; lia.
Qed.

Lemma lor_255 t : (0 ≤ t < 256)%Z → Z.lor 255 t = 255%Z.
Proof.
  intros Ht. rewrite Z.lor_comm. change 255%Z with (Z.ones 8).
  apply Z.lor_ones_low; [lia|].
  destruct (decide (t = 0%Z)) as [->|]; [done|]. apply Z.log2_lt_pow2; lia.
Qed.

Lemma high_byte a : (0 ≤ a < 2 ^ 32)%Z → (0 ≤ Z.shiftr a 24 < 256)%Z.
Proof.
  intros Ha. rewrite Z.shiftr_div_pow2 by lia. split.
  - apply Z.div_pos; lia.
  - apply Z.div_lt_upper_bound; lia.
Qed.

(** The bitwise or of a multiple of [2^n] and a value below [2^n] is their
    sum. *)
Lemma lor_add a b n :
  (0 ≤ n)%Z → (0 ≤ b < 2 ^ n)%Z → Z.lor (a * 2 ^ n) b = (a * 2 ^ n + b)%Z.
Proof.
  intros Hn Hb.
  assert (H0 : Z.land (a * 2 ^ n) b = 0%Z).
  { apply Z.bits_inj'. intros i Hi. rewrite Z.land_spec, Z.bits_0.
    destruct (Z.lt_ge_cases i n) as [Hlt|Hge].
    - by rewrite Z.mul_pow2_bits_low.
    - rewrite <- (Z.mod_small b (2 ^ n)) by done.
      rewrite Z.mod_pow2_bits_high by lia. apply andb_false_r. }
  by rewrite <- Z.lxor_lor, <- Z.add_nocarry_lxor.
Qed.

Lemma lor_shifted a b n k :
  (0 ≤ n)%Z → (0 ≤ k)%Z → (0 ≤ b < 2 ^ n)%Z →
  Z.lor (a * 2 ^ (n + k)) (b * 2 ^ k) = ((a * 2 ^ n + b) * 2 ^ k)%Z.
Proof.
  intros Hn Hk Hb. rewrite Z.pow_add_r, Z.mul_assoc by done.
  rewrite <- (Z.shiftl_mul_pow2 (a * 2 ^ n) k), <- (Z.shiftl_mul_pow2 b k),
    <- (Z.shiftl_mul_pow2 (a * 2 ^ n + b) k) by done.
  by rewrite <- Z.shiftl_lor, lor_add.
Qed.

(** X9: the word that [run] writes for a gradient.  Whatever the gradient,
    and whatever an undefined conversion yields, the word fits in 32 bits
    and its high byte is [0xFF]; when the three scaled components are below
    256, they lie side by side in the word, z in bits 16 to 23, y in bits 8
    to 15 and x in bits 0 to 7. *)
Theorem pack_normal_layout (dx dy dz : float) :
  let w := pack_normal (dx, dy, dz) in
  let len := vec_length (dx, dy, dz) in
  let ix := to_uint32 (lane dx len) in
  let iy := to_uint32 (lane dy len) in
  let iz := to_uint32 (lane dz len) in
  (0 ≤ w < 2 ^ 32)%Z
  ∧ Z.shiftr w 24 = 0xff%Z
  ∧ ((ix < 256)%Z → (iy < 256)%Z → (iz < 256)%Z →
     w = (0xff * 2 ^ 24 + iz * 2 ^ 16 + iy * 2 ^ 8 + ix)%Z).
Proof.
  cbv zeta. unfold pack_normal.
  set (len := vec_length (dx, dy, dz)).
  pose proof (to_uint32_range (lane dx len)) as Hx.
  pose proof (to_uint32_range (lane dy len)) as Hy.
  pose proof (to_uint32_range (lane dz len)) as Hz.
  set (ix := to_uint32 (lane dx len)) in *.
  set (iy := to_uint32 (lane dy len)) in *.
  set (iz := to_uint32 (lane dz len)) in *.
  pose proof (shl32_range iz 16) as Hsz. pose proof (shl32_range iy 8) as Hsy.
  split; [|split].
  - apply lor_lt_pow2; [apply lor_lt_pow2; [apply lor_lt_pow2; [done|done]|done]|done].
  - rewrite !Z.shiftr_lor. change (Z.shiftr 0xff000000 24) with 255%Z.
    rewrite (lor_255 (Z.shiftr (shl32 iz 16) 24)) by (by apply high_byte).
    rewrite (lor_255 (Z.shiftr (shl32 iy 8) 24)) by (by apply high_byte).
    by rewrite lor_255 by (by apply high_byte).
  - intros Bx By Bz. unfold shl32. rewrite !Z.shiftl_mul_pow2 by lia.
    rewrite !Z.mod_small by lia.
    change 0xff000000%Z with (0xff * 2 ^ (8 + 16))%Z.
    rewrite (lor_shifted 0xff iz 8 16) by lia.
    change (2 ^ 16)%Z with (2 ^ (8 + 8))%Z.
    rewrite (lor_shifted (0xff * 2 ^ 8 + iz) iy 8 8) by lia.
    rewrite lor_add by lia. lia.
Qed.


(** *** Assumptions of the correctness theorems *)

Hypothesis N_pos : 0 < N.
Hypothesis Hz : z_increasing.

Lemma raise_below d k top :
  SFltb d (at_f (pz vox) top) = false → k ≤ top → top < length (pz vox) →
  raise d (Some k) = d.
Proof.
  intros Hd Hk Ht. simpl. destruct (SFltb d (at_f (pz vox) k)) eqn:E; [|done].
  destruct (decide (k = top)) as [->|Hne]; [congruence|].
  rewrite (SFltb_trans d (at_f (pz vox) k) (at_f (pz vox) top)) in Hd; [done|done|].
  apply Hz; lia.
Qed.

Lemma raise_highest_below d P lo n top :
  SFltb d (at_f (pz vox) top) = false → lo + n ≤ S top → top < length (pz vox) →
  raise d (highest P lo n) = d.
Proof.
  intros Hd Hn Ht. destruct (highest P lo n) as [k|] eqn:E; [|done].
  apply highest_Some in E as (? & ? & _). eapply raise_below; [done|lia|done].
Qed.

Lemma raise_raise d P lo n1 n2 :
  lo + n1 + n2 ≤ length (pz vox) →
  raise (raise d (highest P (lo + n1) n2)) (highest P lo n1)
  = raise d (highest P lo (n1 + n2)).
Proof.
  intros Hn. rewrite highest_app.
  destruct (highest P (lo + n1) n2) as [k2|] eqn:E2; [|done].
  destruct (highest P lo n1) as [k1|] eqn:E1; [|done].
  apply highest_Some in E1 as (? & ? & _), E2 as (? & ? & _).
  assert (Hlt : SFltb (at_f (pz vox) k1) (at_f (pz vox) k2) = true)
    by (apply Hz; lia).
  simpl. destruct (SFltb d (at_f (pz vox) k2)) eqn:Ed.
  - by rewrite (SFltb_asym _ _ Hlt).
  - destruct (SFltb d (at_f (pz vox) k1)) eqn:Ed1; [|done].
    by rewrite (SFltb_trans _ _ _ Ed1 Hlt) in Ed.
Qed.

Lemma raise_idem d h : raise (raise d h) h = raise d h.
Proof.
  destruct h as [k|]; [|done]. simpl.
  destruct (SFltb d (at_f (pz vox) k)) eqn:E.
  - by rewrite SFltb_irrefl.
  - by rewrite E.
Qed.

Lemma raise_neg_infinity x y :
  raise neg_infinity (highest (inside x y) 0 (length (pz vox))) = surface x y.
Proof.
  unfold surface. destruct (highest _ _ _) as [k|] eqn:E; [|done].
  apply highest_Some in E as (? & ? & _). simpl.
  destruct Hz as [_ Hf]. rewrite Hf; [done|lia].
Qed.

(** *** The normals of the queue *)

Lemma shading_inv_new s :
  state_ok s → shaded (depth s) (norm s) → shading_inv NormalRenderer_new s.
Proof.
  intros Hst Hs. split; [by apply nr_ok_new|]. split; [done|].
  by apply queue_of_shaded.
Qed.

Lemma unstage_shaded r s :
  view_wf r → state_ok s → shaded (depth s) (norm s) →
  shading_inv (snd (fst (unstage r s))) (snd (unstage r s)).
Proof.
  intros Hr Hst Hs. unfold unstage.
  apply (for_loop_inv (λ a, shading_inv (snd (fst a)) (snd a)));
    [by apply shading_inv_new|].
  intros i a Hi Ha.
  apply (for_loop_inv (λ a, shading_inv (snd (fst a)) (snd a))); [done|].
  clear a Ha. intros j [[ix nr] s1] Hj Ha. simpl in Ha.
  destruct (column_open (depth s1) r i j); [|done].
  destruct (view_wf_pixel r i j Hr Hi Hj). apply scan_shaded; [done|apply Hr|done..].
Qed.

Lemma pixels_shaded r s :
  view_wf r → state_ok s → shaded (depth s) (norm s) →
  state_ok (pixels r s) ∧ shaded (depth (pixels r s)) (norm (pixels r s)).
Proof.
  intros Hr Hst Hs. unfold pixels.
  destruct (stage r (depth s) (ev s)) as [e1 index] eqn:E1.
  assert (He : ev_frame (ev s) (Evaluator.values index (Evaluator.applyTransform index e1))).
  { eapply ev_frame_trans; [|apply ev_frame_values].
    eapply ev_frame_trans; [|apply ev_frame_applyTransform].
    change e1 with (fst (e1, index)). rewrite <- E1. apply ev_frame_stage. }
  pose proof (unstage_shaded r _ Hr (state_ok_with_ev s _ He Hst) Hs) as H.
  destruct (unstage _ _) as [[ix nr] s1]. by apply flush_shaded.
Qed.

Lemma fill_shaded r s :
  view_wf r → state_ok s → shaded (depth s) (norm s) →
  state_ok (fill r s) ∧ shaded (depth (fill r s)) (norm (fill r s)).
Proof.
  intros Hr Hst Hs. unfold fill.
  assert (H : shading_inv (fst (fill_loop r s)) (snd (fill_loop r s))).
  { unfold fill_loop.
    apply (for_loop_inv (λ a, shading_inv (fst a) (snd a)));
      [by apply shading_inv_new|].
    intros i a Hi Ha.
    apply (for_loop_inv (λ a, shading_inv (fst a) (snd a))); [done|].
    clear a Ha. intros j [nr s1] Hj Ha. simpl in Ha.
    destruct (SFltb _ _) eqn:E; [|done].
    destruct (view_wf_pixel r i j Hr Hi Hj).
    apply push_shaded; [done|apply Hr|done..]. }
  destruct (fill_loop r s) as [nr s1]. by apply flush_shaded.
Qed.

(** *** The second pass of [pixels] *)

Lemma column_open_false r d i j h :
  view_wf r → column_open d r i j = false →
  raise (depth_at d (corner_y r + j) (corner_x r + i))
        (highest h (corner_z r) (size_z r))
  = depth_at d (corner_y r + j) (corner_x r + i).
Proof.
  intros Hr Ho. unfold column_open in Ho. rewrite pts_z_grid in Ho by done.
  destruct Hr as (_ & _ & _ & ? & _ & _ & ? & _).
  eapply raise_highest_below; [exact Ho|lia..].
Qed.

Lemma unstage_step_spec r index nr s i j cl :
  view_wf r → i < size_x r → j < size_y r → covers (depth s) →
  (i, j) ∉ cl → count nr + S (length cl) ≤ N →
  (∀ t p, chunks r (depth s) ((i, j) :: cl) !! t = Some p →
     Evaluator.results (ev s) !! (index + t)
     = Some (Evaluator.field tr (Evaluator.transform tr mat p))) →
  let a := unstage_step r (index, nr, s) (i, j) in
  (∀ y x, depth_at (depth (snd a)) y x
          = if (x =? corner_x r + i) && (y =? corner_y r + j)
            then raise (depth_at (depth s) y x)
                       (highest (inside x y) (corner_z r) (size_z r))
            else depth_at (depth s) y x)
  ∧ covers (depth (snd a))
  ∧ count (snd (fst a)) + length cl ≤ N
  ∧ (∀ t p, chunks r (depth (snd a)) cl !! t = Some p →
       Evaluator.results (ev (snd a)) !! (fst (fst a) + t)
       = Some (Evaluator.field tr (Evaluator.transform tr mat p))).
Proof.
  intros Hr Hi Hj Hcov Hnin Hcnt Hres.
  destruct (view_wf_pixel r i j Hr Hi Hj) as [Hy0 Hx0].
  pose proof Hr as (Hg & _ & _ & Hsz & _ & _ & Hzb & _).
  unfold unstage_step. simpl. rewrite chunks_cons in Hres. simpl in Hres.
  destruct (column_open (depth s) r i j) eqn:Ho.
  2:{ simpl. split_and!; [|done|lia|done].
      intros y x. destruct ((x =? _) && (y =? _)) eqn:E; [|done].
      apply andb_true_iff in E as [-> %Nat.eqb_eq -> %Nat.eqb_eq].
      by rewrite column_open_false. }
  assert (Hcol : ∀ t, t < size_z r →
            SFltb (at_f (Evaluator.results (ev s)) (index + t)) fzero
            = inside (corner_x r + i) (corner_y r + j)
                     (corner_z r + (size_z r - t - 1))).
  { intros t Ht. unfold at_f at 1.
    rewrite (Hres t (pts_x r i, pts_y r j, pts_z r (size_z r - t - 1))).
    - unfold inside, value, voxel, pts_x, pts_y, pts_z. by rewrite Hg.
    - rewrite lookup_app_l by (rewrite length_column_points; lia).
      unfold column_points. change (map ?f ?l) with (f <$> l).
      rewrite list_lookup_fmap, lookup_seq_lt by done. done. }
  assert (Hrest : ∀ t p, chunks r (depth s) cl !! t = Some p →
            Evaluator.results (ev s) !! (index + size_z r + t)
            = Some (Evaluator.field tr (Evaluator.transform tr mat p))).
  { intros t p Hp. rewrite <- Nat.add_assoc. apply Hres.
    rewrite lookup_app_r by (rewrite length_column_points; lia).
    rewrite length_column_points. by replace (size_z r + t - size_z r) with t by lia. }
  rewrite scan_spec.
  pose proof (first_neg_highest _ index _ (corner_z r) (size_z r) Hcol) as Hh.
  destruct (first_neg (Evaluator.results (ev s)) index (size_z r)) as [t|] eqn:Ef;
    simpl in Hh.
  2:{ cbn [fst snd]. split_and!; [|done|lia|exact Hrest].
      intros y x. destruct ((x =? _) && (y =? _)) eqn:E; [|done].
      apply andb_true_iff in E as [-> %Nat.eqb_eq -> %Nat.eqb_eq].
      by rewrite Hh. }
  apply first_neg_Some in Ef as (Ht & _ & _).
  replace (S (index + t) + (size_z r - (0 + t) - 1)) with (index + size_z r) by lia.
  replace (0 + t) with t by lia. unfold hit. rewrite (pts_z_grid r _ Hr).
  set (z := at_f (pz vox) (corner_z r + (size_z r - t - 1))) in *.
  destruct (SFltb (depth_at (depth s) (corner_y r + j) (corner_x r + i)) z) eqn:Elt.
  2:{ simpl. split_and!; [|done|lia|exact Hrest].
      intros y x. destruct ((x =? _) && (y =? _)) eqn:E; [|done].
      apply andb_true_iff in E as [-> %Nat.eqb_eq -> %Nat.eqb_eq].
      rewrite Hh. simpl. fold z. by rewrite Elt. }
  set (s' := with_depth s _).
  assert (Hd : ∀ y x, depth_at (depth (snd (push r i j z nr s'))) y x
               = if (x =? corner_x r + i) && (y =? corner_y r + j)
                 then z else depth_at (depth s) y x).
  { intros y x. rewrite push_depth. simpl. rewrite depth_at_set_covered by done.
    destruct ((x =? _) && (y =? _)) eqn:E.
    - apply andb_true_iff in E as [-> %Nat.eqb_eq -> %Nat.eqb_eq].
      by rewrite bool_decide_true.
    - rewrite bool_decide_false; [done|]. intros [-> ->].
      by rewrite !Nat.eqb_refl in E. }
  simpl. split_and!.
  - intros y x. rewrite Hd. destruct ((x =? _) && (y =? _)) eqn:E; [|done].
    apply andb_true_iff in E as [-> %Nat.eqb_eq -> %Nat.eqb_eq].
    rewrite Hh. simpl. fold z. by rewrite Elt.
  - eapply covers_dims; [|exact Hcov]. rewrite push_depth. apply img_dims_set.
  - pose proof (push_count_le r i j z nr s'). lia.
  - destruct cl as [|c cl']; [done|]. simpl in Hcnt.
    intros t0 p Hp. rewrite push_results by lia. simpl. apply Hrest.
    rewrite <- Hp. f_equal. symmetry. apply chunks_ext.
    intros [i' j'] Hc. simpl. rewrite Hd.
    destruct ((_ =? _) && (_ =? _)) eqn:E; [|done].
    apply andb_true_iff in E as [E1 %Nat.eqb_eq E2 %Nat.eqb_eq].
    exfalso. apply Hnin. replace i with i' by lia. by replace j with j' by lia.
Qed.

Lemma unstage_columns r : view_wf r → ∀ cl index nr s,
  NoDup cl → (∀ c, c ∈ cl → fst c < size_x r ∧ snd c < size_y r) →
  covers (depth s) → count nr + length cl ≤ N →
  (∀ t p, chunks r (depth s) cl !! t = Some p →
     Evaluator.results (ev s) !! (index + t)
     = Some (Evaluator.field tr (Evaluator.transform tr mat p))) →
  ∀ y x,
    depth_at (depth (snd (fold_left (unstage_step r) cl (index, nr, s)))) y x
    = if cover r cl y x
      then raise (depth_at (depth s) y x)
                 (highest (inside x y) (corner_z r) (size_z r))
      else depth_at (depth s) y x.
Proof.
  intros Hr. induction cl as [|[i j] cl IH];
    intros index nr s Hnd Hin Hcov Hcnt Hres y x; [done|].
  apply NoDup_cons in Hnd as [Hnin Hnd].
  destruct (Hin (i, j)) as [Hi Hj]; [apply list_elem_of_here|]. simpl in Hi, Hj.
  destruct (unstage_step_spec r index nr s i j cl Hr Hi Hj Hcov Hnin)
    as (Hd & Hcov1 & Hcnt1 & Hres1); [simpl in Hcnt; lia|done|].
  simpl fold_left. destruct (unstage_step r (index, nr, s) (i, j)) as [[ix1 nr1] s1].
  cbn [fst snd] in *. rewrite IH; [|done| |done..].
  2:{ intros c Hc. apply Hin. by apply list_elem_of_further. }
  rewrite cover_cons, !Hd. cbn [fst snd].
  destruct ((x =? corner_x r + i) && (y =? corner_y r + j)) eqn:E; [|done].
  apply andb_true_iff in E as [-> %Nat.eqb_eq -> %Nat.eqb_eq].
  by rewrite cover_not_in.
Qed.

(** [pixels] renders a view of at most [N] voxels. *)
Lemma pixels_rendered r s :
  view_wf r → voxels r ≤ N → state_ok s →
  rendered r (depth s) (depth (pixels r s)).
Proof.
  intros Hr Hv (He & HM & Hcd & _) y x.
  pose proof (staged_results r s Hv He HM) as Hres. cbv zeta in Hres.
  unfold pixels. destruct (stage r (depth s) (ev s)) as [e1 index].
  cbn [fst snd] in Hres.
  set (s0 := with_ev s _) in *.
  destruct (unstage r s0) as [[ix nr] s1] eqn:E. rewrite flush_depth.
  change s1 with (snd (ix, nr, s1)). rewrite <- E, unstage_fold.
  rewrite (unstage_columns r Hr); [by rewrite cover_columns|apply NoDup_columns| |done| |].
  - intros [i j] Hc. by apply elem_of_columns.
  - simpl. rewrite length_columns.
    pose proof (size_xy_le_voxels r). destruct Hr as (_ & _ & _ & ? & _). lia.
  - intros t p Hp. simpl. by apply Hres.
Qed.

(** *** [fill] *)

Lemma fill_columns r : view_wf r → ∀ cl nr s,
  NoDup cl → (∀ c, c ∈ cl → fst c < size_x r ∧ snd c < size_y r) →
  covers (depth s) →
  ∀ y x,
    depth_at (depth (snd (fold_left (fill_step r) cl (nr, s)))) y x
    = if cover r cl y x
      then raise (depth_at (depth s) y x) (Some (corner_z r + (size_z r - 1)))
      else depth_at (depth s) y x.
Proof.
  intros Hr. induction cl as [|[i j] cl IH]; intros nr s Hnd Hin Hcov y x; [done|].
  apply NoDup_cons in Hnd as [Hnin Hnd].
  destruct (Hin (i, j)) as [Hi Hj]; [apply list_elem_of_here|]. simpl in Hi, Hj.
  destruct (view_wf_pixel r i j Hr Hi Hj) as [Hy0 Hx0].
  assert (Hin' : ∀ c, c ∈ cl → fst c < size_x r ∧ snd c < size_y r).
  { intros c Hc. apply Hin. by apply list_elem_of_further. }
  simpl fold_left. unfold fill_step at 2. cbn [fst snd].
  rewrite (pts_z_grid r _ Hr). rewrite cover_cons. cbn [fst snd].
  set (z := at_f (pz vox) (corner_z r + (size_z r - 1))).
  destruct (SFltb (depth_at (depth s) (corner_y r + j) (corner_x r + i)) z) eqn:Elt.
  - set (s' := with_depth s _).
    destruct (push r i j z nr s') as [nr1 s1] eqn:Ep.
    assert (Hd1 : depth s1 = img_set (depth s) (corner_y r + j) (corner_x r + i) z).
    { change s1 with (snd (nr1, s1)). rewrite <- Ep. by rewrite push_depth. }
    rewrite IH; [|done|done|].
    2:{ eapply covers_dims; [|exact Hcov]. rewrite Hd1. apply img_dims_set. }
    rewrite Hd1, depth_at_set_covered by done.
    destruct ((x =? corner_x r + i) && (y =? corner_y r + j)) eqn:E.
    + apply andb_true_iff in E as [-> %Nat.eqb_eq -> %Nat.eqb_eq].
      rewrite cover_not_in by done. rewrite bool_decide_true by done.
      simpl. fold z. by rewrite Elt.
    + rewrite bool_decide_false; [done|]. intros [-> ->].
      by rewrite !Nat.eqb_refl in E.
  - rewrite IH by done.
    destruct ((x =? corner_x r + i) && (y =? corner_y r + j)) eqn:E; [|done].
    apply andb_true_iff in E as [-> %Nat.eqb_eq -> %Nat.eqb_eq].
    rewrite cover_not_in by done. simpl. fold z. by rewrite Elt.
Qed.

(** [fill] renders a view all of whose voxels are filled. *)
Lemma fill_rendered r s :
  view_wf r → state_ok s → all_inside r true →
  rendered r (depth s) (depth (fill r s)).
Proof.
  intros Hr (_ & _ & Hcd & _) Hall y x. unfold fill.
  destruct (fill_loop r s) as [nr s1] eqn:E. rewrite flush_depth.
  change s1 with (snd (nr, s1)). rewrite <- E, fill_fold.
  rewrite (fill_columns r Hr); [|apply NoDup_columns| |done].
  2:{ intros [i j] Hc. by apply elem_of_columns. }
  rewrite cover_columns. destruct (in_footprint r y x) eqn:Ef; [|done].
  apply in_footprint_true in Ef. destruct Hr as (_ & _ & _ & ? & _).
  f_equal. symmetry. apply highest_unique; [lia|lia| |intros; lia].
  apply Hall; lia.
Qed.

(** *** [recurse] *)

Hypothesis Hsplit : split_contract.
Hypothesis Hsound : interval_sound.
Hypothesis Hrun : ∀ n, abort n = false.

Lemma rendered_skip r d : view_wf r → block_all_ge d r = true → rendered r d d.
Proof.
  intros Hr Hb y x. destruct (in_footprint r y x) eqn:Ef; [|done].
  apply in_footprint_true in Ef. unfold block_all_ge in Hb.
  rewrite forallb_forall in Hb. specialize (Hb (y - corner_y r)).
  rewrite forallb_forall in Hb.
  assert (Hge : SFgeb (depth_at d y x) (pts_z r (size_z r - 1)) = true).
  { replace y with (corner_y r + (y - corner_y r)) at 1 by lia.
    replace x with (corner_x r + (x - corner_x r)) at 1 by lia.
    apply Hb; apply in_seq; lia. }
  unfold SFgeb in Hge. apply SFleb_not_ltb in Hge.
  rewrite pts_z_grid in Hge by done. symmetry.
  destruct Hr as (_ & _ & _ & ? & _ & _ & ? & _).
  eapply raise_highest_below; [exact Hge|lia..].
Qed.

Lemma rendered_outside r d : all_inside r false → rendered r d d.
Proof.
  intros Hall y x. destruct (in_footprint r y x) eqn:Ef; [|done].
  apply in_footprint_true in Ef. rewrite highest_none; [done|].
  intros k ? ?. apply Hall; lia.
Qed.

Lemma rendered_split a r lo hi d d1 d2 :
  view_wf r → halves a r lo hi →
  rendered hi d d1 → rendered lo d1 d2 → rendered r d d2.
Proof.
  intros Hr Hh Hhi Hlo y x. rewrite (Hlo y x), (Hhi y x).
  destruct Hr as (_ & _ & _ & _ & _ & _ & Hzb & _).
  destruct (in_footprint r y x) eqn:Er, (in_footprint lo y x) eqn:El,
    (in_footprint hi y x) eqn:Eh;
    rewrite ?in_footprint_true, ?in_footprint_false in *;
    destruct a; simpl in Hh; try lia;
    destruct Hh as (H1 & H2 & H3 & H4 & H5 & H6 & H7 & H8 & H9 & H10 & H11 & H12 & H13);
    rewrite ?H1, ?H2, ?H6, ?H7, ?H8, ?H9, ?H10, ?H11, ?H12, ?H13; try done; try lia.
  rewrite <- H3. apply raise_raise. lia.
Qed.

Lemma interval_decides r :
  view_wf r → visited r →
  let out := Evaluator.interval tr mat (lower r) (upper r) in
  (SFltb (iupper out) fzero = true → all_inside r true)
  ∧ (SFleb (ilower out) fzero = false → all_inside r false).
Proof.
  intros Hr Hvis out. pose proof Hr as (Hg & _).
  assert (Hv : ∀ x y k, corner_x r ≤ x → x < corner_x r + size_x r →
             corner_y r ≤ y → y < corner_y r + size_y r →
             corner_z r ≤ k → k < corner_z r + size_z r →
             SFleb (ilower out) (value x y k) = true
             ∧ SFleb (value x y k) (iupper out) = true).
  { intros x y k ? ? ? ? ? ?.
    pose proof (Hsound r Hvis Hr (x - corner_x r) (y - corner_y r) (k - corner_z r))
      as Hs.
    cbv zeta in Hs. unfold pts_x, pts_y, pts_z in Hs. rewrite Hg in Hs.
    replace (corner_x r + (x - corner_x r)) with x in Hs by lia.
    replace (corner_y r + (y - corner_y r)) with y in Hs by lia.
    replace (corner_z r + (k - corner_z r)) with k in Hs by lia.
    apply Hs; lia. }
  split; intros H x y k ? ? ? ? ? ?; destruct (Hv x y k) as [Hlo Hhi]; try done.
  - unfold inside. by eapply SFleb_ltb_trans.
  - unfold inside. destruct (SFltb (value x y k) fzero) eqn:E; [|done].
    rewrite (SFltb_leb _ _ (SFleb_ltb_trans _ _ _ Hlo E)) in H. done.
Qed.

Lemma voxels_gt_1 r : N < voxels r → 1 < voxels r.
Proof. lia. Qed.

(** With fuel for the sizes of the view and no abort, [recurse] finishes
    and renders the view. *)
Lemma recurse_rendered fuel : ∀ r s,
  view_wf r → visited r → size_x r + size_y r + size_z r ≤ fuel →
  state_ok s → shaded (depth s) (norm s) →
  ∃ s', recurse fuel r s = Some (true, s')
        ∧ rendered r (depth s) (depth s')
        ∧ state_ok s' ∧ shaded (depth s') (norm s').
Proof.
  induction fuel as [|fuel IH]; intros r s Hr Hvis Hf Hst Hsh.
  { destruct Hr as (_ & ? & ? & ? & _). lia. }
  rewrite recurse_S. cbv zeta. rewrite Hrun.
  set (s0 := mkState (ev s) (depth s) (norm s) (S (clock s))).
  assert (Hst0 : state_ok s0) by done.
  destruct (block_all_ge (depth s) r) eqn:Eb.
  { exists s0. split_and!; [done|by apply rendered_skip|done|done]. }
  destruct (voxels r <=? N) eqn:Ev.
  { apply Nat.leb_le in Ev. exists (pixels r s0).
    destruct (pixels_shaded r s0 Hr Hst0 Hsh) as [H1 H2].
    split_and!; [done|by apply (pixels_rendered r s0)|done|done]. }
  apply Nat.leb_gt in Ev.
  destruct (interval_decides r Hr Hvis) as [Hin Hout]. cbv zeta in Hin, Hout.
  unfold Evaluator.eval.
  destruct Hst as ([Ht Hl] & HM & Hcd & Hcn). rewrite Ht, HM.
  destruct (SFltb (iupper _) fzero) eqn:Eu.
  { exists (fill r s0). destruct (fill_shaded r s0 Hr Hst0 Hsh) as [H1 H2].
    split_and!; [done|by apply (fill_rendered r s0); auto|done|done]. }
  destruct (SFleb (ilower _) fzero) eqn:El.
  2:{ exists s0. split_and!; [done|by apply rendered_outside; auto|done|done]. }
  destruct (Hsplit r Hr (voxels_gt_1 r Ev)) as (Hlo & Hhi & a & Hh).
  destruct (halves_measure a r _ _ Hh) as [Hm1 Hm2].
  destruct (IH (snd (split r)) (on_ev Evaluator.push s0)) as (s2 & E2 & R2 & St2 & Sh2);
    [done|by apply visited_hi|lia|by apply state_ok_on_ev|done|].
  rewrite E2.
  destruct (IH (fst (split r)) s2) as (s3 & E3 & R3 & St3 & Sh3);
    [done|by apply visited_lo|lia|done|done|].
  rewrite E3. exists (on_ev Evaluator.pop s3).
  split_and!; [done| |by apply state_ok_on_ev|done].
  simpl. by eapply rendered_split.
Qed.

(** *** The regions of [render] *)

Hypothesis Hsplit_xy : split_xy_contract.
Hypothesis Hroot : view_wf (view vox).

Lemma build_regions_tiles fuel workers : ∀ rs,
  Forall tile rs →
  (∀ y x, y < length (py vox) → x < length (px vox) → tiled rs y x = true) →
  Forall tile (build_regions fuel workers rs)
  ∧ ∀ y x, y < length (py vox) → x < length (px vox) →
      tiled (build_regions fuel workers rs) y x = true.
Proof.
  induction fuel as [|fuel IH]; intros rs Ht Hc; simpl; [done|].
  destruct rs as [|f rest]; [done|].
  destruct ((length (f :: rest) <? workers) && _) eqn:E; [|done].
  apply andb_true_iff in E as [_ E]. apply Nat.ltb_lt in E.
  apply Forall_cons in Ht as [(Hf & Hz0 & Hzn) Hrest].
  destruct (Hsplit_xy f Hf E) as (Hlo & Hhi & a & Ha & Hh).
  apply IH.
  - apply Forall_app. split; [done|].
    apply Forall_cons. split; [|apply Forall_cons; split; [|constructor]].
    + split; [done|]. destruct a; [| |done]; simpl in Hh; lia.
    + split; [done|]. destruct a; [| |done]; simpl in Hh; lia.
  - intros y x Hy Hx. specialize (Hc y x Hy Hx).
    rewrite tiled_app. simpl in Hc |- *.
    apply orb_true_iff in Hc as [Hc|Hc]; [|by rewrite Hc].
    apply orb_true_iff. right. rewrite orb_false_r.
    apply in_footprint_true in Hc. apply orb_true_iff.
    rewrite !in_footprint_true.
    destruct a; [| |done]; simpl in Hh; lia.
Qed.

Lemma regions_tiles workers : tiling (regions workers vox).
Proof.
  apply build_regions_tiles.
  - apply Forall_cons. split; [|constructor]. by split.
  - intros y x Hy Hx. simpl. rewrite orb_false_r. apply in_footprint_true.
    simpl. lia.
Qed.

Lemma regions_visited workers : Forall visited (regions workers vox).
Proof.
  unfold regions. apply (build_regions_inv (Forall visited)).
  - intros f rest Hall Hmin. apply Forall_cons in Hall as [Hf Hall].
    apply Forall_app. split; [done|].
    repeat apply Forall_cons_2; [by apply visited_xy_lo|by apply visited_xy_hi|].
    constructor.
  - apply Forall_cons_2; [apply visited_root|constructor].
Qed.

Lemma dispatch_rendered fuel : ∀ rs es d nm clk,
  Forall tile rs → Forall visited rs →
  length rs ≤ length es → Forall ev_ok es →
  length (px vox) + length (py vox) + length (pz vox) ≤ fuel →
  covers d → covers nm → shaded d nm →
  ∃ es1 d1 nm1 clk1,
    dispatch fuel mat es rs d nm clk = Some (es1, d1, nm1, clk1)
    ∧ (∀ y x, depth_at d1 y x
              = if tiled rs y x
                then raise (depth_at d y x)
                           (highest (inside x y) 0 (length (pz vox)))
                else depth_at d y x)
    ∧ shaded d1 nm1
    ∧ img_dims d1 = img_dims d ∧ img_dims nm1 = img_dims nm.
Proof.
  induction rs as [|r rs IH]; intros es d nm clk Ht Hv Hl He Hf Hcd Hcn Hsh; simpl.
  { by eexists [], d, nm, clk. }
  destruct es as [|e es]; [simpl in Hl; lia|].
  apply Forall_cons in Ht as [Hr Ht], He as [[Het Hel] He], Hv as [Hvr Hv].
  set (s := mkState (Evaluator.setMatrix mat e) d nm clk).
  destruct (recurse_rendered fuel r s) as (s' & E & R & St & Sh);
    [apply Hr|done|by pose proof (tile_fuel r Hr); lia|by repeat split|done|].
  rewrite E. destruct (recurse_dims _ _ _ _ _ E) as [Hd1 Hn1].
  destruct St as (_ & _ & Hcd' & Hcn').
  destruct (IH es (depth s') (norm s') (clock s')) as (es1 & d1 & nm1 & clk1 & E1 & R1 & Sh1 & Hd2 & Hn2);
    [done|done|simpl in Hl; lia|done..|].
  rewrite E1. eexists _, d1, nm1, clk1. split_and!; [done| |done|..].
  - intros y x. rewrite R1, (R y x). destruct Hr as (_ & -> & ->). simpl.
    destruct (in_footprint r y x), (tiled rs y x); simpl; try done.
    apply raise_idem.
  - by rewrite Hd2, Hd1.
  - by rewrite Hn2, Hn1.
Qed.

(** *** [render] *)

Lemma surface_finite x y k :
  highest (inside x y) 0 (length (pz vox)) = Some k → surface x y ≠ neg_infinity.
Proof.
  intros E. unfold surface. rewrite E. apply highest_Some in E as (_ & ? & _).
  destruct Hz as [_ Hf]. eapply SFltb_not_neg_infinity. apply Hf. lia.
Qed.

(** The images after the tasks of any regions that lie over the grid, pixel
    by pixel. *)
Lemma dispatch_surface fuel rs es d nm clk :
  tiling rs → Forall visited rs → length rs ≤ length es → Forall ev_ok es →
  length (px vox) + length (py vox) + length (pz vox) ≤ fuel →
  blank d nm →
  ∃ es1 d1 nm1 clk1,
    dispatch fuel mat es rs d nm clk = Some (es1, d1, nm1, clk1)
    ∧ sized d1 ∧ sized nm1
    ∧ ∀ y x, y < length (py vox) → x < length (px vox) →
        img_lookup d1 y x = Some (surface x y)
        ∧ img_lookup nm1 y x = Some (surface_normal y x).
Proof.
  intros [Ht Hc] Hvis Hl He Hf (Hsd & Hsn & Hb).
  destruct (dispatch_rendered fuel rs es d nm clk)
    as (es1 & d1 & nm1 & clk1 & E & R & Sh & Hd1 & Hn1);
    [done|done|done|done|done|by apply sized_covers..| |].
  { intros y x Hy Hx. left. destruct (Hb y x Hy Hx) as [Ed En].
    unfold depth_at, norm_at, img_get. by rewrite Ed, En. }
  exists es1, d1, nm1, clk1.
  assert (Hsd1 : sized d1) by (unfold sized; by rewrite Hd1).
  assert (Hsn1 : sized nm1) by (unfold sized; by rewrite Hn1).
  split_and!; [done..|]. intros y x Hy Hx.
  destruct (sized_covers d1 Hsd1 y x Hy Hx) as [z Ez].
  destruct (sized_covers nm1 Hsn1 y x Hy Hx) as [w Ew].
  assert (Hzs : z = surface x y).
  { rewrite <- (img_get_lookup S754_nan d1 y x z Ez).
    change (img_get S754_nan d1 y x) with (depth_at d1 y x).
    rewrite R, Hc by done. destruct (Hb y x Hy Hx) as [Ed _].
    unfold depth_at, img_get. rewrite Ed. apply raise_neg_infinity. }
  subst z. split; [done|]. rewrite Ew. f_equal.
  specialize (Sh y x Hy Hx). unfold depth_at, norm_at in Sh.
  rewrite (img_get_lookup _ _ _ _ _ Ez), (img_get_lookup _ _ _ _ _ Ew) in Sh.
  unfold surface_normal.
  destruct (highest (inside x y) 0 (length (pz vox))) as [k|] eqn:Eh.
  - destruct Sh as [[Hs _]|[_ Hw]]; [|done].
    by apply surface_finite in Eh.
  - destruct Sh as [[_ Hw]|[Hs _]]; [done|].
    exfalso. apply Hs. unfold surface. by rewrite Eh.
Qed.

(** X15: the tasks of [render] may run in any order.  On blank images and
    regions that the render visits and that lie over the whole grid,
    whatever the order in which the regions are taken and whatever
    evaluators they get, the tasks leave the same depth image and the same
    normal image. *)
Lemma dispatch_any_order fuel fuel' rs rs' es es' d nm clk clk' :
  tiling rs → Forall visited rs → rs' ≡ₚ rs →
  length rs ≤ length es → length rs' ≤ length es' →
  Forall ev_ok es → Forall ev_ok es' →
  length (px vox) + length (py vox) + length (pz vox) ≤ fuel →
  length (px vox) + length (py vox) + length (pz vox) ≤ fuel' →
  blank d nm →
  ∃ d1 nm1,
    (∃ es1 clk1, dispatch fuel mat es rs d nm clk = Some (es1, d1, nm1, clk1))
    ∧ (∃ es1 clk1, dispatch fuel' mat es' rs' d nm clk' = Some (es1, d1, nm1, clk1)).
Proof.
  intros Ht Hvis Hp Hl Hl' He He' Hf Hf' Hb.
  assert (Hvis' : Forall visited rs') by (by rewrite Hp).
  assert (Ht' : tiling rs').
  { destruct Ht as [Ht Hc]. split; [by rewrite Hp|].
    intros y x Hy Hx. rewrite (tiled_perm rs rs') by done. by apply Hc. }
  destruct (dispatch_surface fuel rs es d nm clk)
    as (es1 & d1 & nm1 & clk1 & E1 & Sd1 & Sn1 & P1); [done..|].
  destruct (dispatch_surface fuel' rs' es' d nm clk')
    as (es2 & d2 & nm2 & clk2 & E2 & Sd2 & Sn2 & P2); [done..|].
  exists d1, nm1. split; [by eauto|].
  assert (d2 = d1) as ->.
  { apply (sized_eq d2 d1 (λ y x, surface x y)); [done|done|..];
      intros y x Hy Hx; [by apply P2|by apply P1]. }
  assert (nm2 = nm1) as ->.
  { apply (sized_eq nm2 nm1 surface_normal); [done|done|..];
      intros y x Hy Hx; [by apply P2|by apply P1]. }
  by eauto.
Qed.

(** The images of a finished render, pixel by pixel. *)
Lemma render_correct fuel es d nm :
  es ≠ [] → Forall ev_ok es →
  length (px vox) + length (py vox) + length (pz vox) ≤ fuel →
  sized d → sized nm →
  ∃ d' nm', render fuel es vox mat d nm = Some (d', nm')
    ∧ sized d' ∧ sized nm'
    ∧ ∀ y x, y < length (py vox) → x < length (px vox) →
        img_lookup d' y x = Some (surface x y)
        ∧ img_lookup nm' y x = Some (shade y x).
Proof.
  intros Hes He Hf Hsd Hsn. unfold render.
  destruct (build_regions_length (length es) (length es) [view vox]) as [_ Hl];
    [simpl; lia..|].
  assert (Hlen : 1 ≤ length es) by (destruct es; [done|simpl; lia]).
  destruct (dispatch_surface fuel (regions (length es) vox) es
              (img_fill d neg_infinity) (img_fill nm 0%Z) 0)
    as (es1 & d1 & nm1 & clk1 & E & Sd1 & Sn1 & P);
    [apply regions_tiles|apply regions_visited|unfold regions; lia|done|done
    |by apply blank_fill|].
  rewrite E. exists d1, (select_sky vox d1 nm1).
  split_and!; [done|done|unfold sized; by rewrite img_dims_select_sky|].
  intros y x Hy Hx. destruct (P y x Hy Hx) as [Ed En]. split; [done|].
  rewrite img_lookup_select_sky, En. simpl. f_equal.
  unfold depth_at. by rewrite (img_get_lookup _ _ _ _ _ Ed).
Qed.

Lemma render_unique fuel1 fuel2 es1 es2 d nm :
  es1 ≠ [] → es2 ≠ [] → Forall ev_ok es1 → Forall ev_ok es2 →
  length (px vox) + length (py vox) + length (pz vox) ≤ fuel1 →
  length (px vox) + length (py vox) + length (pz vox) ≤ fuel2 →
  sized d → sized nm →
  is_Some (render fuel1 es1 vox mat d nm)
  ∧ render fuel1 es1 vox mat d nm = render fuel2 es2 vox mat d nm.
Proof.
  intros H1 H2 He1 He2 Hf1 Hf2 Hsd Hsn.
  destruct (render_correct fuel1 es1 d nm) as (d1 & n1 & E1 & Sd1 & Sn1 & P1); [done..|].
  destruct (render_correct fuel2 es2 d nm) as (d2 & n2 & E2 & Sd2 & Sn2 & P2); [done..|].
  rewrite E1, E2. split; [done|]. do 2 f_equal.
  - apply (sized_eq d1 d2 (λ y x, surface x y)); [done|done|..];
      intros y x Hy Hx; [by apply P1|by apply P2].
  - apply (sized_eq n1 n2 shade); [done|done|..];
      intros y x Hy Hx; [by apply P1|by apply P2].
Qed.

(** C1: given the contract of the evaluator (over the box of every view
    that the render visits, the interval of [eval] bounds the field at the
    voxel centres of the view; a value below zero means a filled voxel), z
    samples that increase, and no abort, [render] finishes, and every
    pixel [(x, y)] of the depth image holds the greatest [pz[k]] among the
    voxel centres [(px[x], py[y], pz[k])] of its column at which the field
    is below zero, and minus infinity when the column has none. *)
Theorem render_depth_is_highest_filled fuel es d nm :
  es ≠ [] → Forall ev_ok es →
  length (px vox) + length (py vox) + length (pz vox) ≤ fuel →
  sized d → sized nm →
  ∃ d' nm', render fuel es vox mat d nm = Some (d', nm')
    ∧ ∀ y x, y < length (py vox) → x < length (px vox) →
        match highest (inside x y) 0 (length (pz vox)) with
        | Some k =>
            img_lookup d' y x = Some (at_f (pz vox) k)
            ∧ k < length (pz vox) ∧ inside x y k = true
            ∧ ∀ k', k' < length (pz vox) → inside x y k' = true →
                k' ≤ k ∧ SFleb (at_f (pz vox) k') (at_f (pz vox) k) = true
        | None =>
            img_lookup d' y x = Some neg_infinity
            ∧ ∀ k, k < length (pz vox) → inside x y k = false
        end.
Proof.
  intros Hes He Hf Hsd Hsn.
  destruct (render_correct fuel es d nm) as (d' & nm' & E & _ & _ & P); [done..|].
  exists d', nm'. split; [done|]. intros y x Hy Hx.
  destruct (P y x Hy Hx) as [Pd _]. unfold surface in Pd.
  destruct (highest (inside x y) 0 (length (pz vox))) as [k|] eqn:Eh.
  - apply highest_Some in Eh as (_ & Hk & Hin & Hmax).
    split_and!; [done|lia|done|]. intros k' Hk' Hin'.
    assert (Hle : k' ≤ k).
    { destruct (le_lt_dec k' k) as [|Hlt]; [done|].
      rewrite Hmax in Hin'; [done|done|lia]. }
    split; [done|]. destruct Hz as [Hinc Hfin].
    destruct (decide (k' = k)) as [->|Hne].
    + eapply SFleb_refl_finite. apply Hfin. lia.
    + apply SFltb_leb. apply Hinc; lia.
  - split; [done|]. intros k Hk. eapply highest_None; [done|lia..].
Qed.

(** C3: [render] is a function of the tree, the grid and the matrix.  With
    the contract of the evaluator and no abort, two pools of evaluators of
    any sizes (not zero) and in any states give the same depth image and
    the same normal image; in particular [render] on [workers] fresh
    evaluators gives the same images for every [workers] above zero. *)
Theorem render_independent_of_workers fuel1 fuel2 :
  length (px vox) + length (py vox) + length (pz vox) ≤ fuel1 →
  length (px vox) + length (py vox) + length (pz vox) ≤ fuel2 →
  (∀ es1 es2 d nm,
     es1 ≠ [] → es2 ≠ [] → Forall ev_ok es1 → Forall ev_ok es2 →
     sized d → sized nm →
     is_Some (render fuel1 es1 vox mat d nm)
     ∧ render fuel1 es1 vox mat d nm = render fuel2 es2 vox mat d nm)
  ∧ (∀ w1 w2, 0 < w1 → 0 < w2 →
       is_Some (render_workers fuel1 tr vox mat w1)
       ∧ render_workers fuel1 tr vox mat w1 = render_workers fuel2 tr vox mat w2).
Proof.
  intros Hf1 Hf2. split.
  - intros. by apply render_unique.
  - intros w1 w2 Hw1 Hw2. unfold render_workers, render_images.
    apply render_unique; try done; try apply sized_new.
    + destruct w1; [lia|done].
    + destruct w2; [lia|done].
    + apply Forall_replicate, ev_ok_new.
    + apply Forall_replicate, ev_ok_new.
Qed.


(** ** Further properties of a render under the contract *)

(** The highest sample is the only one that compares equal to the highest
    sample. *)
Lemma top_sample k :
  k < length (pz vox) →
  SFeqb (at_f (pz vox) k) (at_f (pz vox) (length (pz vox) - 1))
  = bool_decide (k = length (pz vox) - 1).
Proof using Hz.
  clear N_pos Hsplit Hsound Hrun Hsplit_xy Hroot.
  intros Hk. destruct Hz as [Hinc Hfin]. case_bool_decide as E.
  - rewrite <- E. eapply SFeqb_refl_finite. by apply Hfin.
  - apply SFltb_not_eqb. apply Hinc; lia.
Qed.

(** X10: the normal image of a finished render.  Under the assumptions of
    C1, the pixel of a column with no filled voxel holds the word 0; the
    pixel of a column whose highest filled voxel is the top sample of the
    grid holds [0xFFFF7F7F]; every other pixel holds the word that [run]
    packs from the gradient at the position of its depth, as the matrix
    transforms it. *)
Theorem render_normal_is_surface_gradient fuel es d nm :
  es ≠ [] → Forall ev_ok es →
  length (px vox) + length (py vox) + length (pz vox) ≤ fuel →
  sized d → sized nm →
  ∃ d' nm', render fuel es vox mat d nm = Some (d', nm')
    ∧ ∀ y x, y < length (py vox) → x < length (px vox) →
        img_lookup nm' y x
        = Some match highest (inside x y) 0 (length (pz vox)) with
               | None => 0%Z
               | Some k =>
                   if bool_decide (k = length (pz vox) - 1) then sky_normal
                   else pack_normal
                          (Evaluator.gradient tr
                             (Evaluator.transform tr mat
                                (at_f (px vox) x, at_f (py vox) y, at_f (pz vox) k)))
               end.
Proof.
  intros Hes He Hf Hsd Hsn.
  destruct (render_correct fuel es d nm Hes He Hf Hsd Hsn)
    as (d' & nm' & E & _ & _ & P).
  exists d', nm'. split; [done|]. intros y x Hy Hx.
  destruct (P y x Hy Hx) as [_ ->]. f_equal.
  unfold shade, surface_normal, normal_of, surface.
  destruct (highest (inside x y) 0 (length (pz vox))) as [k|] eqn:Eh.
  - apply highest_Some in Eh as (_ & Hk & _). by rewrite top_sample by lia.
  - destruct (SFeqb neg_infinity _) eqn:Eq; [|done].
    apply SFeqb_neg_infinity in Eq. destruct Hz as [_ Hfin].
    destruct Hroot as (_ & _ & _ & Hpos & _). simpl in Hpos.
    exfalso. eapply SFltb_not_neg_infinity; [|exact Eq]. apply Hfin. lia.
Qed.

(** X11: what [recurse] does to the depth image.  Under the contract and
    with no abort, [recurse] on a view that the render visits finishes;
    every pixel under the view
    holds afterwards the greater of what it held and the highest filled
    sample of its column inside the view, every other pixel holds what it
    held, and every pixel has the normal of its depth.  A second run on the
    same view changes no depth. *)
Theorem recurse_renders_view fuel r s :
  view_wf r → visited r → size_x r + size_y r + size_z r ≤ fuel →
  state_ok s → shaded (depth s) (norm s) →
  ∃ s', recurse fuel r s = Some (true, s')
    ∧ (∀ y x, depth_at (depth s') y x
              = if in_footprint r y x
                then raise (depth_at (depth s) y x)
                           (highest (inside x y) (corner_z r) (size_z r))
                else depth_at (depth s) y x)
    ∧ shaded (depth s') (norm s')
    ∧ ∃ s'', recurse fuel r s' = Some (true, s'')
        ∧ ∀ y x, depth_at (depth s'') y x = depth_at (depth s') y x.
Proof.
  intros Hr Hvis Hf Hst Hsh.
  destruct (recurse_rendered fuel r s Hr Hvis Hf Hst Hsh) as (s' & E & R & St & Sh).
  exists s'. split_and!; [done|exact R|done|].
  destruct (recurse_rendered fuel r s' Hr Hvis Hf St Sh) as (s'' & E' & R' & _).
  exists s''. split; [done|]. intros y x. rewrite (R' y x), (R y x).
  destruct (in_footprint r y x); [|done]. apply raise_idem.
Qed.

(** X12: what [pixels] does on a view of at most [Result::N] voxels: every
    pixel under the view is offered the highest sample of its column, inside
    the view, at which the field is below zero, and every pixel keeps the
    normal of its depth.  The results that [values] returned are read from
    the buffer that a full batch of normals overwrites; with at most
    [Result::N] voxels no result is lost. *)
Theorem pixels_renders_leaf r s :
  view_wf r → voxels r ≤ N → state_ok s → shaded (depth s) (norm s) →
  (∀ y x, depth_at (depth (pixels r s)) y x
          = if in_footprint r y x
            then raise (depth_at (depth s) y x)
                       (highest (inside x y) (corner_z r) (size_z r))
            else depth_at (depth s) y x)
  ∧ shaded (depth (pixels r s)) (norm (pixels r s)).
Proof using N_pos Hz abort.
  clear Hsplit Hsound Hrun Hsplit_xy Hroot.
  intros Hr Hv Hst Hsh. split.
  - exact (pixels_rendered r s Hr Hv Hst).
  - by destruct (pixels_shaded r s Hr Hst Hsh).
Qed.

(** X13: what [fill] does: every pixel under the view that is below the
    top sample of the view is raised to it, and no other pixel changes
    its depth. *)
Theorem fill_floods_view r s :
  view_wf r → covers (depth s) →
  ∀ y x, depth_at (depth (fill r s)) y x
         = if in_footprint r y x
              && SFltb (depth_at (depth s) y x) (pts_z r (size_z r - 1))
           then pts_z r (size_z r - 1)
           else depth_at (depth s) y x.
Proof using.
  clear N_pos Hz Hsplit Hsound Hrun Hsplit_xy Hroot.
  intros Hr Hcd y x. unfold fill.
  destruct (fill_loop r s) as [nr s1] eqn:E. rewrite flush_depth.
  change s1 with (snd (nr, s1)). rewrite <- E, fill_fold.
  rewrite (fill_columns r Hr); [|apply NoDup_columns| |done].
  2:{ intros [i j] Hc. by apply elem_of_columns. }
  rewrite cover_columns, (pts_z_grid r _ Hr).
  destruct (in_footprint r y x); [|done]. simpl.
  by destruct (SFltb _ _).
Qed.

(** *** A render that is aborted *)

Lemma sound_rendered r d d' : view_wf r → rendered r d d' → sound d → sound d'.
Proof using.
  clear N_pos Hz Hsplit Hsound Hrun Hsplit_xy Hroot.
  intros Hr R Hs y x Hy Hx. rewrite (R y x).
  destruct (in_footprint r y x); [|by apply Hs].
  destruct (highest (inside x y) (corner_z r) (size_z r)) as [k|] eqn:E; simpl;
    [|by apply Hs].
  destruct (SFltb _ _); [|by apply Hs].
  apply highest_Some in E as (? & ? & Hin & _). right. exists k.
  split_and!; [|done|done]. destruct Hr as (_ & _ & _ & _ & _ & _ & ? & _). lia.
Qed.

(** Whenever [recurse] returns, every depth is that of a filled voxel and
    has its normal. *)
Lemma recurse_sound fuel : ∀ r s b s',
  view_wf r → visited r →
  state_ok s → shaded (depth s) (norm s) → sound (depth s) →
  recurse fuel r s = Some (b, s') →
  state_ok s' ∧ shaded (depth s') (norm s') ∧ sound (depth s').
Proof using N_pos Hz Hsplit Hsound abort.
  clear Hrun Hsplit_xy Hroot.
  induction fuel as [|fuel IH]; intros r s b s' Hr Hvis Hst Hsh Hso H; [done|].
  rewrite recurse_S in H. cbv zeta in H.
  set (s0 := mkState (ev s) (depth s) (norm s) (S (clock s))) in *.
  assert (Hst0 : state_ok s0) by done.
  destruct (abort (clock s)); [by injection H as <- <-|].
  destruct (block_all_ge (depth s) r); [by injection H as <- <-|].
  destruct (voxels r <=? N) eqn:Ev.
  { apply Nat.leb_le in Ev. injection H as <- <-.
    destruct (pixels_shaded r s0 Hr Hst0 Hsh) as [H1 H2].
    split_and!; [done..|].
    eapply sound_rendered; [exact Hr|exact (pixels_rendered r s0 Hr Ev Hst0)|done]. }
  apply Nat.leb_gt in Ev.
  destruct (interval_decides r Hr Hvis) as [Hin Hout]. cbv zeta in Hin, Hout.
  unfold Evaluator.eval in H.
  pose proof Hst as ([Ht Hl] & HM & Hcd & Hcn). rewrite Ht, HM in H.
  destruct (SFltb (iupper _) fzero) eqn:Eu.
  { injection H as <- <-. destruct (fill_shaded r s0 Hr Hst0 Hsh) as [H1 H2].
    split_and!; [done..|].
    eapply sound_rendered; [exact Hr|apply (fill_rendered r s0); auto|done]. }
  destruct (SFleb (ilower _) fzero) eqn:El; [|by injection H as <- <-].
  destruct (Hsplit r Hr (voxels_gt_1 r Ev)) as (Hlo & Hhi & a & Hh).
  destruct (recurse fuel (snd (split r)) _) as [[b2 s2]|] eqn:E2; [|done].
  apply IH in E2 as (St2 & Sh2 & So2);
    [|done|by apply visited_hi|by apply state_ok_on_ev|done|done].
  destruct b2.
  - destruct (recurse fuel (fst (split r)) s2) as [[b3 s3]|] eqn:E3; [|done].
    apply IH in E3 as (St3 & Sh3 & So3); [|done|by apply visited_lo|done..].
    assert (state_ok (on_ev Evaluator.pop s3)) by (by apply state_ok_on_ev).
    destruct b3; by injection H as <- <-.
  - assert (state_ok (on_ev Evaluator.pop s2)) by (by apply state_ok_on_ev).
    by injection H as <- <-.
Qed.

Lemma dispatch_sound fuel : ∀ rs es d nm clk es1 d1 nm1 clk1,
  Forall tile rs → Forall visited rs → Forall ev_ok es →
  covers d → covers nm → shaded d nm → sound d →
  dispatch fuel mat es rs d nm clk = Some (es1, d1, nm1, clk1) →
  shaded d1 nm1 ∧ sound d1.
Proof using N_pos Hz Hsplit Hsound abort.
  clear Hrun Hsplit_xy Hroot.
  induction rs as [|r rs IH];
    intros es d nm clk es1 d1 nm1 clk1 Ht Hv He Hcd Hcn Hsh Hso H; simpl in H.
  { by injection H as <- <- <- <-. }
  destruct es as [|e es]; [done|].
  apply Forall_cons in Ht as [Hr Ht], He as [[Het Hel] He], Hv as [Hvr Hv].
  set (s := mkState (Evaluator.setMatrix mat e) d nm clk) in *.
  destruct (recurse fuel r s) as [[b s']|] eqn:E; [|done].
  destruct (dispatch fuel mat es rs _ _ _) as [[[[es2 d2] nm2] clk2]|] eqn:E2; [|done].
  injection H as <- <- <- <-.
  apply recurse_sound in E as (St & Sh & So);
    [|apply Hr|done|by repeat split|done|done].
  destruct St as (_ & _ & Hcd' & Hcn').
  by apply (IH es (depth s') (norm s') (clock s') es2 d2 nm2 clk2).
Qed.

Lemma sound_below_surface x y z :
  hit_depth x y z → SFleb z (surface x y) = true.
Proof using Hz.
  clear N_pos Hsplit Hsound Hrun Hsplit_xy Hroot.
  destruct Hz as [Hinc Hfin]. unfold surface.
  intros [->|(k & Hk & Hin & ->)].
  - destruct (highest _ _ _) as [k|] eqn:E; [|done].
    apply highest_Some in E as (_ & ? & _). apply SFltb_leb, Hfin. lia.
  - destruct (highest _ _ _) as [k'|] eqn:E.
    + apply highest_Some in E as (_ & Hk' & _ & Hmax). simpl in Hk'.
      destruct (decide (k = k')) as [->|Hne].
      * eapply SFleb_refl_finite. by apply Hfin.
      * apply SFltb_leb, Hinc; [|done].
        destruct (decide (k < k')); [done|]. rewrite Hmax in Hin; [done|lia|done].
    + eapply highest_None in E; [|lia|simpl; exact Hk]. by rewrite E in Hin.
Qed.

(** X14: the images of a render that was aborted.  Whenever the flag
    [abort] is raised, and when it is not, the images that [render]
    returns hold no wrong hit: the depth of every pixel is minus infinity
    or the sample of a voxel of its column at which the field is below
    zero, it is not above the depth of the finished render, and its normal
    is the one of that depth ([0xFFFF7F7F] where the depth compares equal
    to the top sample, 0 where it is minus infinity). *)
Theorem aborted_render_is_sound fuel es d nm d' nm' :
  Forall ev_ok es → sized d → sized nm →
  render fuel es vox mat d nm = Some (d', nm') →
  ∀ y x, y < length (py vox) → x < length (px vox) →
    ∃ z w, img_lookup d' y x = Some z ∧ img_lookup nm' y x = Some w
      ∧ hit_depth x y z
      ∧ SFleb z (surface x y) = true
      ∧ if SFeqb z (at_f (pz vox) (length (pz vox) - 1)) then w = sky_normal
        else shaded_value y x z w.
Proof using N_pos Hz Hsplit Hsound Hsplit_xy Hroot abort.
  clear Hrun.
  intros He Hsd Hsn H y x Hy Hx. unfold render in H.
  destruct (dispatch _ _ _ _ _ _ _) as [[[[es1 d1] nm1] clk1]|] eqn:E; [|done].
  injection H as <- <-.
  destruct (blank_fill d nm Hsd Hsn) as (Hsd0 & Hsn0 & Hb).
  destruct (dispatch_dims _ _ _ _ _ _ _ _ _ _ _ E) as [Hd1 Hn1].
  assert (Hsd1 : sized d1) by (unfold sized; by rewrite Hd1).
  assert (Hsn1 : sized nm1) by (unfold sized; by rewrite Hn1).
  apply dispatch_sound in E as [Sh So];
    [|apply regions_tiles|apply regions_visited|done|by apply sized_covers..| |].
  2:{ intros y0 x0 Hy0 Hx0. left. destruct (Hb y0 x0 Hy0 Hx0) as [Ed En].
      unfold depth_at, norm_at, img_get. by rewrite Ed, En. }
  2:{ intros y0 x0 Hy0 Hx0. left. destruct (Hb y0 x0 Hy0 Hx0) as [Ed _].
      unfold depth_at, img_get. by rewrite Ed. }
  destruct (sized_covers d1 Hsd1 y x Hy Hx) as [z Ez].
  destruct (sized_covers nm1 Hsn1 y x Hy Hx) as [w Ew].
  specialize (Sh y x Hy Hx). specialize (So y x Hy Hx).
  unfold depth_at, norm_at in Sh, So.
  rewrite (img_get_lookup _ _ _ _ _ Ez) in Sh, So.
  rewrite (img_get_lookup _ _ _ _ _ Ew) in Sh.
  exists z, (if SFeqb z (at_f (pz vox) (length (pz vox) - 1)) then sky_normal else w).
  split_and!; [done| |done|by apply sound_below_surface|].
  - rewrite img_lookup_select_sky, Ew. simpl. unfold depth_at.
    by rewrite (img_get_lookup _ _ _ _ _ Ez).
  - by destruct (SFeqb z _).
Qed.

End Heightmap.

(** ** The splitter obeys its contracts *)

Lemma half_bounds n : 2 ≤ n → 1 ≤ n / 2 ∧ n / 2 < n.
Proof. intros H. split; [apply Nat.div_str_pos; lia|apply Nat.div_lt; lia]. Qed.

Lemma cut_wf vox r :
  view_wf vox r →
  (2 ≤ size_x r → view_wf vox (fst (cut_x r)) ∧ view_wf vox (snd (cut_x r))
                  ∧ halves AxisX r (fst (cut_x r)) (snd (cut_x r)))
  ∧ (2 ≤ size_y r → view_wf vox (fst (cut_y r)) ∧ view_wf vox (snd (cut_y r))
                    ∧ halves AxisY r (fst (cut_y r)) (snd (cut_y r)))
  ∧ (2 ≤ size_z r → view_wf vox (fst (cut_z r)) ∧ view_wf vox (snd (cut_z r))
                    ∧ halves AxisZ r (fst (cut_z r)) (snd (cut_z r))).
Proof.
  intros (Hg & Hx & Hy & Hz & Hbx & Hby & Hbz & Hbox).
  split_and!; intros H2; apply half_bounds in H2 as [H1 H2];
    unfold cut_x, cut_y, cut_z;
    [set (h := size_x r / 2) in *|set (h := size_y r / 2) in *
     |set (h := size_z r / 2) in *];
    clearbody h; (split_and!; [| |simpl; lia]);
    unfold view_wf; simpl; (split_and!; try done; try lia);
    intros i j k Hi Hj Hk; unfold pts_x, pts_y, pts_z; simpl;
    rewrite <- ?Nat.add_assoc; apply Hbox; lia.
Qed.

Lemma split_half_contract vox : split_contract split_half vox.
Proof.
  intros r Hr Hv. destruct (cut_wf vox r Hr) as (Hx & Hy & Hz).
  pose proof Hr as (_ & Px & Py & Pz & _).
  unfold split_half.
  destruct (size_y r <=? size_x r) eqn:E1; [destruct (size_z r <=? size_x r) eqn:E2|];
    simpl; rewrite ?Nat.leb_le, ?Nat.leb_gt in *.
  - destruct Hx as (? & ? & ?); [|by eauto].
    destruct (decide (size_x r = 1)) as [E|]; [|lia].
    unfold voxels in Hv. replace (size_y r) with 1 in Hv by lia.
    replace (size_z r) with 1 in Hv by lia. lia.
  - destruct (size_z r <=? size_y r) eqn:E3; rewrite ?Nat.leb_le, ?Nat.leb_gt in *.
    + destruct Hy as (? & ? & ?); [lia|by eauto].
    + destruct Hz as (? & ? & ?); [lia|by eauto].
  - destruct (size_z r <=? size_y r) eqn:E3; rewrite ?Nat.leb_le, ?Nat.leb_gt in *.
    + destruct Hy as (? & ? & ?); [lia|by eauto].
    + destruct Hz as (? & ? & ?); [lia|by eauto].
Qed.

Lemma split_half_xy_contract vox : split_xy_contract split_half_xy vox.
Proof.
  intros r Hr Hv. destruct (cut_wf vox r Hr) as (Hx & Hy & _).
  unfold split_half_xy. destruct (size_y r <=? size_x r).
  - destruct Hx as (? & ? & ?); [lia|]. split_and!; [done..|]. by exists AxisX.
  - destruct Hy as (? & ? & ?); [lia|]. split_and!; [done..|]. by exists AxisY.
Qed.

(** ** The scenes obey the contract of the evaluator *)

Lemma in_box_bounds lo hi p :
  in_box lo hi p = true →
  (SFleb (fst (fst lo)) (fst (fst p)) = true ∧ SFleb (fst (fst p)) (fst (fst hi)) = true)
  ∧ (SFleb (snd lo) (snd p) = true ∧ SFleb (snd p) (snd hi) = true).
Proof.
  destruct lo as [[lx ly] lz], hi as [[hx hy] hz], p as [[x y] z]. simpl.
  intros H. repeat (apply andb_true_iff in H as [H ?]). done.
Qed.

Lemma halfspace_sound n sp sxy mat vox : interval_sound n sp sxy halfspace mat vox.
Proof.
  intros r _ (_ & _ & _ & _ & _ & _ & _ & Hbox) i j k Hi Hj Hk. simpl.
  by destruct (in_box_bounds _ _ _ (Hbox i j k Hi Hj Hk)) as [_ H].
Qed.

Lemma wall_sound n sp sxy mat vox : interval_sound n sp sxy wall mat vox.
Proof.
  intros r _ (_ & _ & _ & _ & _ & _ & _ & Hbox) i j k Hi Hj Hk. simpl.
  by destruct (in_box_bounds _ _ _ (Hbox i j k Hi Hj Hk)) as [H _].
Qed.

Lemma turned_sound n sp sxy mat vox : interval_sound n sp sxy turned mat vox.
Proof.
  intros r _ (_ & _ & _ & _ & _ & _ & _ & Hbox) i j k Hi Hj Hk. simpl.
  by destruct (in_box_bounds _ _ _ (Hbox i j k Hi Hj Hk)) as [_ H].
Qed.

Lemma demo_z_increasing : z_increasing demo_grid.
Proof.
  split.
  - intros i j Hij Hj. simpl in Hj.
    do 4 (destruct j as [|j]; [do 4 (destruct i as [|i]; [try lia; reflexivity|]); lia|]).
    lia.
  - intros k Hk. simpl in Hk. do 4 (destruct k as [|k]; [reflexivity|]). lia.
Qed.

Lemma demo_root_wf : view_wf demo_grid (view demo_grid).
Proof.
  unfold view_wf. simpl. split_and!; try done; try lia.
  intros i j k Hi Hj Hk.
  do 4 (destruct i as [|i];
        [do 4 (destruct j as [|j];
               [do 4 (destruct k as [|k]; [reflexivity|]); lia|]); lia|]).
  lia.
Qed.

Lemma pool_ok t n : Forall (ev_ok 4 t) (pool t n).
Proof. apply Forall_replicate. split; [done|]. simpl. lia. Qed.

Lemma demo_sized {A} (a : A) : sized demo_grid (img_new 4 4 a).
Proof. reflexivity. Qed.

Lemma demo_same_shape (a : float) (b : Z) : same_shape (img_new 4 4 a) (img_new 4 4 b).
Proof.
  intros y x. rewrite !img_lookup_new. by destruct (bool_decide (y < 4 ∧ x < 4)).
Qed.

(** ** The theorems at work *)

Lemma render_depth_is_highest_filled_witness :
  ∃ d' nm',
    render 4 split_half split_half_xy never (cast_to 0) 12 (pool wall 2)
           demo_grid [] (img_new 4 4 S754_nan) (img_new 4 4 0%Z) = Some (d', nm')
    ∧ ∀ y x, y < 4 → x < 4 →
        match highest (inside wall [] demo_grid x y) 0 4 with
        | Some k =>
            img_lookup d' y x = Some (at_f (pz demo_grid) k)
            ∧ k < 4 ∧ inside wall [] demo_grid x y k = true
            ∧ ∀ k', k' < 4 → inside wall [] demo_grid x y k' = true →
                k' ≤ k ∧ SFleb (at_f (pz demo_grid) k') (at_f (pz demo_grid) k) = true
        | None =>
            img_lookup d' y x = Some neg_infinity
            ∧ ∀ k, k < 4 → inside wall [] demo_grid x y k = false
        end.
Proof.
  apply (render_depth_is_highest_filled 4 split_half split_half_xy never (cast_to 0)
           wall [] demo_grid).
  - lia.
  - apply demo_z_increasing.
  - apply split_half_contract.
  - apply wall_sound.
  - reflexivity.
  - apply split_half_xy_contract.
  - apply demo_root_wf.
  - discriminate.
  - apply pool_ok.
  - simpl. lia.
  - apply demo_sized.
  - apply demo_sized.
Defined.

Lemma recurse_push_pop_balanced_witness :
  ∃ b s',
    recurse 4 split_half from_fourth (cast_to 0) 12 (view demo_grid)
      (mkState (Evaluator.new halfspace 4)
               (img_new 4 4 neg_infinity) (img_new 4 4 0%Z) 0) = Some (b, s')
    ∧ b = false
    ∧ Evaluator.pushes (ev s') - 0 = Evaluator.pops (ev s') - 0
    ∧ 0 ≤ Evaluator.pushes (ev s')
    ∧ 0 ≤ Evaluator.pops (ev s')
    ∧ Evaluator.active (ev s') = 0.
Proof.
  eexists _, _. split; [vm_compute; reflexivity|]. split; [reflexivity|].
  apply (recurse_push_pop_balanced 4 split_half from_fourth (cast_to 0) 12
           (view demo_grid)
           (mkState (Evaluator.new halfspace 4)
                    (img_new 4 4 neg_infinity) (img_new 4 4 0%Z) 0) false).
  vm_compute. reflexivity.
Defined.

Lemma render_independent_of_workers_witness :
  is_Some (render_workers 4 split_half split_half_xy never (cast_to 0) 12
             wall demo_grid [] 1)
  ∧ render_workers 4 split_half split_half_xy never (cast_to 0) 12
      wall demo_grid [] 1
    = render_workers 4 split_half split_half_xy never (cast_to 0) 20
        wall demo_grid [] 3.
Proof.
  apply (render_independent_of_workers 4 split_half split_half_xy never (cast_to 0)
           wall [] demo_grid).
  - lia.
  - apply demo_z_increasing.
  - apply split_half_contract.
  - apply wall_sound.
  - reflexivity.
  - apply split_half_xy_contract.
  - apply demo_root_wf.
  - simpl. lia.
  - simpl. lia.
  - lia.
  - lia.
Defined.

Lemma render_sky_normal_witness :
  ∃ d' nm' es1 d1 nm1 clk1,
    dispatch 4 split_half never (cast_to 0) 12 [] (pool wall 2)
             (regions split_half_xy 2 demo_grid)
             (img_new 4 4 neg_infinity) (img_new 4 4 0%Z) 0 = Some (es1, d1, nm1, clk1)
    ∧ img_lookup nm1 0 0 = Some 0xFF7F7FFF%Z
    ∧ render 4 split_half split_half_xy never (cast_to 0) 12 (pool wall 2)
             demo_grid [] (img_new 4 4 S754_nan) (img_new 4 4 0%Z) = Some (d', nm')
    ∧ depth_at d' 0 0 = f32 3 (-1)
    ∧ img_lookup nm' 0 3 = Some 0%Z
    ∧ ∀ y x,
        is_Some (img_lookup (img_new 4 4 0%Z) y x) →
        SFeqb (depth_at d' y x) (at_f (pz demo_grid) (length (pz demo_grid) - 1)) = true →
        img_lookup nm' y x = Some 0xFFFF7F7F%Z.
Proof.
  eexists _, _, _, _, _, _. split; [vm_compute; reflexivity|].
  split; [reflexivity|]. split; [vm_compute; reflexivity|].
  split; [reflexivity|]. split; [reflexivity|].
  apply (render_sky_normal 4 split_half split_half_xy never (cast_to 0) 12
           (pool wall 2) demo_grid [] (img_new 4 4 S754_nan) (img_new 4 4 0%Z)).
  vm_compute. reflexivity.
Defined.

Lemma render_depth_normal_paired_witness :
  ∃ d' nm',
    render 4 split_half split_half_xy (from_load 14) (cast_to 0) 12 (pool turned 2)
           demo_grid [] (img_new 4 4 S754_nan) (img_new 4 4 0%Z) = Some (d', nm')
    ∧ (img_lookup d' 0 0 = Some neg_infinity ∧ img_lookup nm' 0 0 = Some 0%Z)
    ∧ (img_lookup d' 0 1 = Some (f32 (-1) (-1))
       ∧ img_lookup nm' 0 1 = Some 0xFF7F7FFF%Z)
    ∧ ∀ y x,
        is_Some (img_lookup (img_new 4 4 S754_nan) y x) →
        ∃ z w,
          img_lookup d' y x = Some z ∧ img_lookup nm' y x = Some w
          ∧ (z ≠ neg_infinity → w ≠ 0%Z) ∧ (z = neg_infinity → w = 0%Z).
Proof.
  eexists _, _. split; [vm_compute; reflexivity|].
  split; [split; reflexivity|]. split; [split; reflexivity|].
  apply (render_depth_normal_paired 4 split_half split_half_xy (from_load 14) (cast_to 0)
           12 (pool turned 2) demo_grid [] (img_new 4 4 S754_nan) (img_new 4 4 0%Z)).
  - lia.
  - apply demo_same_shape.
  - discriminate.
  - vm_compute. reflexivity.
Defined.

Lemma NormalRenderer_count_bounded_witness :
  nr_ok 4 (NormalRenderer_new 4)
  ∧ (∀ r i j z nr s, nr_ok 4 nr →
       xs (fst (enqueue r i j z nr s)) !! count nr = Some (corner_x r + i)
       ∧ ys (fst (enqueue r i j z nr s)) !! count nr = Some (corner_y r + j)
       ∧ push 4 (cast_to 0) r i j z nr s
         = (if S (count nr) =? 4
            then run (cast_to 0) (fst (enqueue r i j z nr s)) (snd (enqueue r i j z nr s))
            else enqueue r i j z nr s)
       ∧ count (fst (push 4 (cast_to 0) r i j z nr s))
         = (if S (count nr) =? 4 then 0 else S (count nr))
       ∧ nr_ok 4 (fst (push 4 (cast_to 0) r i j z nr s)))
  ∧ (∀ nr s, nr_ok 4 nr →
       nr_ok 4 (fst (run (cast_to 0) nr s)) ∧ count (fst (run (cast_to 0) nr s)) = 0)
  ∧ (∀ nr s, nr_ok 4 nr →
       nr_ok 4 (fst (flush (cast_to 0) nr s))
       ∧ flushed (fst (flush (cast_to 0) nr s)) = true).
Proof. apply (NormalRenderer_count_bounded 4 (cast_to 0)). lia. Defined.

(** ** Three scenes rendered *)

(** The half-space [z < 0]: every pixel at the sample -0.5, with the normal
    of direction +Z. *)
Example render_halfspace :
  render_workers 4 split_half split_half_xy never (cast_to 0) 12 halfspace demo_grid [] 2
  = Some (img_new 4 4 (f32 (-1) (-1)), img_new 4 4 0xFFFF7F7F%Z).
Proof. vm_compute. reflexivity. Qed.

(** The empty field: no hit and no normal. *)
Example render_empty :
  render_workers 4 split_half split_half_xy never (cast_to 0) 12 empty demo_grid [] 2
  = Some (img_new 4 4 neg_infinity, img_new 4 4 0%Z).
Proof. vm_compute. reflexivity. Qed.

(** The solid field: every pixel at the top sample, with the sky normal. *)
Example render_solid :
  render_workers 4 split_half split_half_xy never (cast_to 0) 12 solid demo_grid [] 3
  = Some (img_new 4 4 (f32 3 (-1)), img_new 4 4 sky_normal).
Proof. vm_compute. reflexivity. Qed.

(** ** Where the code departs from the description *)

(** A pool of two evaluators on a grid of one voxel: one region, hence one
    task, for two evaluators. *)
Lemma fewer_tasks_than_evaluators :
  length (regions split_half_xy (length (pool solid 2)) unit_grid)
  ≠ length (pool solid 2).
Proof. vm_compute. discriminate. Qed.

(** A gradient of length zero: the value converted to a byte is NaN, and
    the word that is written changes with what the conversion of NaN
    yields. *)
Lemma zero_gradient_gives_nan :
  is_nan (lane fzero (vec_length (fzero, fzero, fzero))) = true
  ∧ pack_normal (cast_to 0) (fzero, fzero, fzero)
    ≠ pack_normal (cast_to 1) (fzero, fzero, fzero).
Proof. split; [reflexivity|]. vm_compute. discriminate. Qed.

(** ** The further properties at work *)

Lemma demo_state_ok t : state_ok 4 t [] demo_grid (start (Evaluator.new t 4) 4 4).
Proof.
  unfold start. split_and!; [|done|apply sized_covers, demo_sized..].
  split; [done|]. simpl. lia.
Qed.

Lemma demo_blank : blank demo_grid (img_new 4 4 neg_infinity) (img_new 4 4 0%Z).
Proof.
  exact (blank_fill demo_grid (img_new 4 4 S754_nan) (img_new 4 4 0%Z)
           (demo_sized _) (demo_sized _)).
Qed.

Lemma demo_shaded uc t :
  shaded uc t [] demo_grid (img_new 4 4 neg_infinity) (img_new 4 4 0%Z).
Proof.
  intros y x Hy Hx. left. destruct (proj2 (proj2 demo_blank) y x Hy Hx) as [Ed En].
  unfold depth_at, norm_at, img_get. by rewrite Ed, En.
Qed.

Lemma corner_column_wf : view_wf demo_grid corner_column.
Proof.
  unfold view_wf. simpl. split_and!; try done; try lia.
  intros i j k Hi Hj Hk.
  destruct i as [|i]; [|lia]. destruct j as [|j]; [|lia].
  do 4 (destruct k as [|k]; [reflexivity|]). lia.
Qed.

Lemma recurse_stops_at_first_abort_witness :
  ∃ b s',
    recurse 4 split_half from_fourth (cast_to 0) 12 (view demo_grid)
      (start (Evaluator.new halfspace 4) 4 4) = Some (b, s')
    ∧ b = false
    ∧ 0 < clock s'
    ∧ (∀ n, 0 ≤ n → S n < clock s' → from_fourth n = false)
    ∧ from_fourth (clock s' - 1) = negb b.
Proof.
  eexists _, _. split; [vm_compute; reflexivity|]. split; [reflexivity|].
  apply (recurse_stops_at_first_abort 4 split_half from_fourth (cast_to 0) 12
           (view demo_grid) (start (Evaluator.new halfspace 4) 4 4) false).
  vm_compute. reflexivity.
Defined.

Lemma render_aborted_at_once_witness :
  render 4 split_half split_half_xy always (cast_to 0) 12 (pool solid 2)
         demo_grid [] (img_new 4 4 S754_nan) (img_new 4 4 7%Z)
  = Some (img_fill (img_new 4 4 S754_nan) neg_infinity,
          select_sky demo_grid (img_fill (img_new 4 4 S754_nan) neg_infinity)
                     (img_fill (img_new 4 4 7%Z) 0%Z)).
Proof.
  apply (render_aborted_at_once 4 split_half split_half_xy always (cast_to 0) 12
           (pool solid 2) demo_grid []).
  - reflexivity.
  - lia.
  - discriminate.
Defined.

Lemma render_uses_only_the_shape_witness :
  render 4 split_half split_half_xy never (cast_to 0) 12 (pool halfspace 2)
         demo_grid [] (img_new 4 4 fzero) (img_new 4 4 7%Z)
  = render 4 split_half split_half_xy never (cast_to 0) 12 (pool halfspace 2)
           demo_grid [] (img_new 4 4 S754_nan) (img_new 4 4 0%Z)
  ∧ ∀ d' nm',
      render 4 split_half split_half_xy never (cast_to 0) 12 (pool halfspace 2)
             demo_grid [] (img_new 4 4 S754_nan) (img_new 4 4 0%Z) = Some (d', nm') →
      img_dims d' = img_dims (img_new 4 4 S754_nan)
      ∧ img_dims nm' = img_dims (img_new 4 4 0%Z).
Proof.
  apply (render_uses_only_the_shape 4 split_half split_half_xy never (cast_to 0) 12
           (pool halfspace 2) demo_grid []); reflexivity.
Defined.

Lemma render_images_size_witness :
  ∃ d' nm',
    render_images 4 split_half split_half_xy from_fourth (cast_to 0) 12
                  (pool halfspace 2) demo_grid [] = Some (d', nm')
    ∧ img_dims d' = replicate (length (py demo_grid)) (length (px demo_grid))
    ∧ img_dims nm' = replicate (length (py demo_grid)) (length (px demo_grid))
    ∧ ∀ y x, (y < length (py demo_grid) ∧ x < length (px demo_grid)
              ↔ is_Some (img_lookup d' y x))
             ∧ (is_Some (img_lookup d' y x) ↔ is_Some (img_lookup nm' y x)).
Proof.
  eexists _, _. split; [vm_compute; reflexivity|].
  apply (render_images_size 4 split_half split_half_xy from_fourth (cast_to 0) 12
           (pool halfspace 2) demo_grid []).
  vm_compute. reflexivity.
Defined.

Lemma recurse_stays_in_view_witness :
  let s := start (Evaluator.new solid 4) 4 4 in
  let leaf := corner_column in
  let r := snd (cut_x (view demo_grid)) in
  untouched leaf s (pixels 4 (cast_to 0) leaf s)
  ∧ (untouched r s (fill 4 (cast_to 0) r s)
     ∧ ∀ fuel b s',
         recurse 4 split_half from_fourth (cast_to 0) fuel r s = Some (b, s') →
         untouched r s s').
Proof.
  split.
  - refine (proj1 (recurse_stays_in_view 4 split_half from_fourth (cast_to 0) demo_grid
                     corner_column (start (Evaluator.new solid 4) 4 4) _ _ _ _) _).
    + lia.
    + apply split_half_contract.
    + apply corner_column_wf.
    + vm_compute. lia.
    + vm_compute. lia.
  - refine (proj2 (recurse_stays_in_view 4 split_half from_fourth (cast_to 0) demo_grid
                     (snd (cut_x (view demo_grid)))
                     (start (Evaluator.new solid 4) 4 4) _ _ _ _)).
    + lia.
    + apply split_half_contract.
    + apply (cut_wf demo_grid (view demo_grid) demo_root_wf). simpl. lia.
    + vm_compute. lia.
Defined.

Lemma regions_partition_witness :
  Forall (tile demo_grid) (regions split_half_xy 3 demo_grid)
  ∧ ∀ y x, regions_over (regions split_half_xy 3 demo_grid) y x
           = if (y <? length (py demo_grid)) && (x <? length (px demo_grid))
             then 1 else 0.
Proof.
  apply (regions_partition split_half_xy demo_grid 3).
  - apply split_half_xy_contract.
  - apply demo_root_wf.
Defined.

Lemma render_terminates_witness :
  is_Some (render 4 split_half split_half_xy from_fourth (cast_to 0) 12
             (pool halfspace 2) demo_grid [] (img_new 4 4 S754_nan) (img_new 4 4 0%Z)).
Proof.
  apply (render_terminates 4 split_half split_half_xy from_fourth (cast_to 0) demo_grid).
  - lia.
  - apply split_half_contract.
  - apply split_half_xy_contract.
  - apply demo_root_wf.
  - discriminate.
  - simpl. lia.
Defined.

(** The gradient (0, 0, 1): the scaled components are 127, 127 and 255,
    and the word is [0xFFFF7F7F]. *)
Lemma pack_normal_layout_witness :
  pack_normal (cast_to 0) (fzero, fzero, f32 1 0)
  = (0xff * 2 ^ 24 + 255 * 2 ^ 16 + 127 * 2 ^ 8 + 127)%Z.
Proof.
  destruct (pack_normal_layout (cast_to 0) fzero fzero (f32 1 0)) as (_ & _ & H).
  apply H; reflexivity.
Defined.

Lemma render_normal_is_surface_gradient_witness :
  pack_normal (cast_to 0) (f32 1 0, fzero, fzero) = 0xFF7F7FFF%Z
  ∧ ∃ d' nm',
      render 4 split_half split_half_xy never (cast_to 0) 12 (pool turned 2)
             demo_grid [] (img_new 4 4 S754_nan) (img_new 4 4 0%Z) = Some (d', nm')
      ∧ ∀ y x, y < length (py demo_grid) → x < length (px demo_grid) →
          img_lookup nm' y x
          = Some match highest (inside turned [] demo_grid x y) 0
                               (length (pz demo_grid)) with
                 | None => 0%Z
                 | Some k =>
                     if bool_decide (k = length (pz demo_grid) - 1) then sky_normal
                     else pack_normal (cast_to 0)
                            (Evaluator.gradient turned
                               (Evaluator.transform turned []
                                  (at_f (px demo_grid) x, at_f (py demo_grid) y,
                                   at_f (pz demo_grid) k)))
                 end.
Proof.
  split; [reflexivity|].
  apply (render_normal_is_surface_gradient 4 split_half split_half_xy never (cast_to 0)
           turned [] demo_grid).
  - lia.
  - apply demo_z_increasing.
  - apply split_half_contract.
  - apply turned_sound.
  - reflexivity.
  - apply split_half_xy_contract.
  - apply demo_root_wf.
  - discriminate.
  - apply pool_ok.
  - simpl. lia.
  - apply demo_sized.
  - apply demo_sized.
Defined.

Lemma recurse_renders_view_witness :
  let s := start (Evaluator.new halfspace 4) 4 4 in
  let r := view demo_grid in
  ∃ s', recurse 4 split_half never (cast_to 0) 12 r s = Some (true, s')
    ∧ (∀ y x, depth_at (depth s') y x
              = if in_footprint r y x
                then raise demo_grid (depth_at (depth s) y x)
                       (highest (inside halfspace [] demo_grid x y)
                                (corner_z r) (size_z r))
                else depth_at (depth s) y x)
    ∧ shaded (cast_to 0) halfspace [] demo_grid (depth s') (norm s')
    ∧ ∃ s'', recurse 4 split_half never (cast_to 0) 12 r s' = Some (true, s'')
        ∧ ∀ y x, depth_at (depth s'') y x = depth_at (depth s') y x.
Proof.
  apply (recurse_renders_view 4 split_half split_half_xy never (cast_to 0) halfspace []
           demo_grid).
  - lia.
  - apply demo_z_increasing.
  - apply split_half_contract.
  - apply halfspace_sound.
  - reflexivity.
  - apply demo_root_wf.
  - apply visited_root.
  - simpl. lia.
  - apply demo_state_ok.
  - apply demo_shaded.
Defined.

Lemma pixels_renders_leaf_witness :
  let s := start (Evaluator.new halfspace 4) 4 4 in
  let r := corner_column in
  (∀ y x, depth_at (depth (pixels 4 (cast_to 0) r s)) y x
          = if in_footprint r y x
            then raise demo_grid (depth_at (depth s) y x)
                   (highest (inside halfspace [] demo_grid x y) (corner_z r) (size_z r))
            else depth_at (depth s) y x)
  ∧ shaded (cast_to 0) halfspace [] demo_grid
           (depth (pixels 4 (cast_to 0) r s)) (norm (pixels 4 (cast_to 0) r s)).
Proof.
  apply (pixels_renders_leaf 4 never (cast_to 0) halfspace [] demo_grid).
  - lia.
  - apply demo_z_increasing.
  - apply corner_column_wf.
  - vm_compute. lia.
  - apply demo_state_ok.
  - apply demo_shaded.
Defined.

Lemma fill_floods_view_witness :
  let s := start (Evaluator.new solid 4) 4 4 in
  let r := snd (cut_x (view demo_grid)) in
  depth_at (depth (fill 4 (cast_to 0) r s)) 1 3
  = (if in_footprint r 1 3
        && SFltb (depth_at (depth s) 1 3) (pts_z r (size_z r - 1))
     then pts_z r (size_z r - 1)
     else depth_at (depth s) 1 3)
  ∧ depth_at (depth (fill 4 (cast_to 0) r s)) 1 3 = f32 3 (-1)
  ∧ depth_at (depth (fill 4 (cast_to 0) r s)) 1 0 = neg_infinity.
Proof.
  split; [|split; reflexivity].
  apply (fill_floods_view 4 (cast_to 0) demo_grid).
  - apply (cut_wf demo_grid (view demo_grid) demo_root_wf). simpl. lia.
  - apply sized_covers, demo_sized.
Defined.

Lemma aborted_render_is_sound_witness :
  ∃ d' nm',
    render 4 split_half split_half_xy (from_load 14) (cast_to 0) 12 (pool turned 2)
           demo_grid [] (img_new 4 4 S754_nan) (img_new 4 4 0%Z) = Some (d', nm')
    ∧ (img_lookup d' 0 0 = Some neg_infinity ∧ img_lookup nm' 0 0 = Some 0%Z)
    ∧ (img_lookup d' 0 1 = Some (f32 (-1) (-1))
       ∧ img_lookup nm' 0 1 = Some 0xFF7F7FFF%Z)
    ∧ ∀ y x, y < length (py demo_grid) → x < length (px demo_grid) →
        ∃ z w, img_lookup d' y x = Some z ∧ img_lookup nm' y x = Some w
          ∧ hit_depth turned [] demo_grid x y z
          ∧ SFleb z (surface turned [] demo_grid x y) = true
          ∧ if SFeqb z (at_f (pz demo_grid) (length (pz demo_grid) - 1))
            then w = sky_normal
            else shaded_value (cast_to 0) turned [] demo_grid y x z w.
Proof.
  eexists _, _. split; [vm_compute; reflexivity|].
  split; [split; reflexivity|]. split; [split; reflexivity|].
  apply (aborted_render_is_sound 4 split_half split_half_xy (from_load 14) (cast_to 0)
           turned [] demo_grid)
    with (fuel := 12) (es := pool turned 2)
         (d := img_new 4 4 S754_nan) (nm := img_new 4 4 0%Z).
  - lia.
  - apply demo_z_increasing.
  - apply split_half_contract.
  - apply turned_sound.
  - apply split_half_xy_contract.
  - apply demo_root_wf.
  - apply (pool_ok turned 2).
  - apply (demo_sized S754_nan).
  - apply (demo_sized 0%Z).
  - vm_compute. reflexivity.
Defined.

Lemma dispatch_any_order_witness :
  let rs := regions split_half_xy 2 demo_grid in
  ∃ d1 nm1,
    (∃ es1 clk1,
       dispatch 4 split_half never (cast_to 0) 12 [] (pool turned 2) rs
                (img_new 4 4 neg_infinity) (img_new 4 4 0%Z) 0
       = Some (es1, d1, nm1, clk1))
    ∧ (∃ es1 clk1,
         dispatch 4 split_half never (cast_to 0) 12 [] (pool turned 3) (reverse rs)
                  (img_new 4 4 neg_infinity) (img_new 4 4 0%Z) 0
         = Some (es1, d1, nm1, clk1)).
Proof.
  apply (dispatch_any_order 4 split_half split_half_xy never (cast_to 0) turned []
           demo_grid).
  - lia.
  - apply demo_z_increasing.
  - apply split_half_contract.
  - apply turned_sound.
  - reflexivity.
  - apply (regions_tiles 4 split_half_xy demo_grid); [lia|apply split_half_xy_contract
                                                       |apply demo_root_wf].
  - apply regions_visited.
  - apply reverse_Permutation.
  - vm_compute. lia.
  - vm_compute. lia.
  - apply pool_ok.
  - apply pool_ok.
  - simpl. lia.
  - simpl. lia.
  - apply demo_blank.
Defined.
